(** * PyInotify adapters: a shallow embedding of [inotify/adapters.py]

    The development follows the module top-down: the values the code
    exchanges with its collaborators, the [Inotify] object with its watch
    registry, the record decoder, the event generator, and the recursive
    tree wrapper.  Python generators are embedded in continuation-passing
    style: a generator takes the code that runs between two of its yields
    (its consumer) as an argument, so that the laziness of the source is
    kept: what the consumer does to the registry is seen by the next
    record that is decoded. *)

From Stdlib Require Import ZArith List Ascii String Strings.Byte Lia Bool.
From stdpp Require Import base option list gmap strings.

Local Open Scope Z_scope.

(** ** Python values that the code inspects with [is]

    [superficial], [yield_nones], [ignore_missing_new_folders] and the
    result of a filter predicate are tested by identity against [None],
    [True] and [False]; every other object behaves alike there. *)

Inductive pyval :=
| PyNone
| PyBool (b : bool)
| PyInt (z : Z).

Definition is_None (v : pyval) : bool :=
  match v with PyNone => true | _ => false end.

Definition is_False (v : pyval) : bool :=
  match v with PyBool false => true | _ => false end.

Definition is_True (v : pyval) : bool :=
  match v with PyBool true => true | _ => false end.

(** Truth value of an [int], as in [if header.mask & IN_ISDIR:]. *)
Definition truthy (z : Z) : bool := negb (z =? 0).

(** ** Events *)

(** The namedtuple [_INOTIFY_EVENT]. *)
Record _INOTIFY_EVENT := {
  wd : Z;
  mask : Z;
  cookie : Z;
  len : Z
}.

(** The tuple [(header, type_names, path, filename)].  A Python [str] is
    represented by its UTF-8 encoding, kept in a Rocq [string]; a
    surrogate code point, which a str may hold ([os.listdir] gives one
    for every byte of a name that is not UTF-8) and which UTF-8 does not
    encode, is kept as the three bytes the same scheme would give it, so
    that two different strs have different representations. *)
Definition event : Type := _INOTIFY_EVENT * list string * string * string.

(** ** Exceptions *)

Inductive exn :=
| KeyError
| AssertionError (event_type : Z)
| UnicodeDecodeError
| UnicodeEncodeError
| InotifyError (errno : Z)
| IOError (errno : Z)
| TerminalEventException (type_name : string) (e : event).

Inductive result (A : Type) :=
| Ok (a : A)
| Raise (x : exn).
Arguments Ok {A} a.
Arguments Raise {A} x.

(** ** The collaborators

    [inotify.calls], [inotify.constants], [os], [select] and [time] are
    not part of the module.  Every call the code makes to them is logged,
    together with what came back, and a collaborator answers as a function
    of the log so far: this is the most general deterministic
    environment. *)

Inductive reply (A : Type) :=
| Returned (a : A)
| Failed (errno : Z).
Arguments Returned {A} a.
Arguments Failed {A} errno.

Inductive call :=
| call_add_watch (fd : Z) (path_bytes : list byte) (mask : Z) (r : reply Z)
| call_rm_watch (fd : Z) (wd : Z) (r : reply unit)
| call_read (fd : Z) (n : Z) (b : list byte)
| call_poll (timeout : Z) (r : reply (list (Z * Z)))
| call_time (t : Z)
| call_exists (path : string) (r : bool).

Record Env := {
  (* inotify.constants *)
  IN_ISDIR : Z;
  IN_CREATE : Z;
  IN_MOVED_TO : Z;
  IN_DELETE : Z;
  IN_MOVED_FROM : Z;
  MASK_LOOKUP_COMB : gmap Z (list string);
  (* inotify.calls *)
  inotify_add_watch : list call -> Z -> list byte -> Z -> reply Z;
  inotify_rm_watch : list call -> Z -> Z -> reply unit;
  (* os, select.epoll, time *)
  os_read : list call -> Z -> Z -> list byte;
  epoll_poll : list call -> Z -> reply (list (Z * Z));
  time_time : list call -> Z;
  os_path_exists : list call -> string -> bool;
  os_path_join : string -> string -> string
}.

(** [errno.EINTR]. *)
Definition EINTR : Z := 4.

(** ** The [Inotify] object *)

Inductive duration :=
| Scalar (seconds : Z)
| Callable (f : unit -> Z).

(** The private attributes of an [Inotify] instance.  [history] is not an
    attribute: it is the log of the calls made to the collaborators,
    most recent first. *)
Record Inotify := {
  block_duration : duration;
  watches : gmap string Z;
  watches_r : gmap Z string;
  buffer : list byte;
  inotify_fd : Z;
  last_success_return : option (string * event);
  history : list call
}.

Definition set_watches (f : gmap string Z -> gmap string Z) (s : Inotify) : Inotify :=
  {| block_duration := block_duration s; watches := f (watches s);
     watches_r := watches_r s; buffer := buffer s; inotify_fd := inotify_fd s;
     last_success_return := last_success_return s; history := history s |}.

Definition set_watches_r (f : gmap Z string -> gmap Z string) (s : Inotify) : Inotify :=
  {| block_duration := block_duration s; watches := watches s;
     watches_r := f (watches_r s); buffer := buffer s; inotify_fd := inotify_fd s;
     last_success_return := last_success_return s; history := history s |}.

Definition set_buffer (b : list byte) (s : Inotify) : Inotify :=
  {| block_duration := block_duration s; watches := watches s;
     watches_r := watches_r s; buffer := b; inotify_fd := inotify_fd s;
     last_success_return := last_success_return s; history := history s |}.

Definition set_last_success_return (r : option (string * event)) (s : Inotify) : Inotify :=
  {| block_duration := block_duration s; watches := watches s;
     watches_r := watches_r s; buffer := buffer s; inotify_fd := inotify_fd s;
     last_success_return := r; history := history s |}.

Definition log (c : call) (s : Inotify) : Inotify :=
  {| block_duration := block_duration s; watches := watches s;
     watches_r := watches_r s; buffer := buffer s; inotify_fd := inotify_fd s;
     last_success_return := last_success_return s; history := c :: history s |}.

(** ** Methods as state transformers that may raise *)

Definition M (A : Type) : Type := Inotify -> Inotify * result A.

Definition ret {A} (a : A) : M A := fun s => (s, Ok a).

Definition raise {A} (x : exn) : M A := fun s => (s, Raise x).

Definition bind {A B} (m : M A) (k : A -> M B) : M B :=
  fun s =>
    match m s with
    | (s', Ok a) => k a s'
    | (s', Raise x) => (s', Raise x)
    end.

Notation "'let*' x := m 'in' k" := (bind m (fun x => k))
  (at level 10, x name, m at level 200, k at level 200, only parsing).
Notation "m >> k" := (bind m (fun _ => k))
  (at level 62, right associativity, only parsing).

Definition byte_value (b : byte) : Z := Z.of_N (Byte.to_N b).

Definition between (lo hi : Z) (b : byte) : bool :=
  (lo <=? byte_value b) && (byte_value b <=? hi).

(** Well-formed UTF-8 (RFC 3629), what the strict codec accepts. *)
Fixpoint utf8_valid (bs : list byte) : bool :=
  match bs with
  | [] => true
  | b0 :: t =>
      if between 0x00 0x7f b0 then utf8_valid t
      else if between 0xc2 0xdf b0 then
        match t with
        | b1 :: t1 => between 0x80 0xbf b1 && utf8_valid t1
        | _ => false
        end
      else if between 0xe0 0xef b0 then
        match t with
        | b1 :: b2 :: t2 =>
            between (if Byte.eqb b0 xe0 then 0xa0 else 0x80)
                    (if Byte.eqb b0 xed then 0x9f else 0xbf) b1
            && between 0x80 0xbf b2 && utf8_valid t2
        | _ => false
        end
      else if between 0xf0 0xf4 b0 then
        match t with
        | b1 :: b2 :: b3 :: t3 =>
            between (if Byte.eqb b0 xf0 then 0x90 else 0x80)
                    (if Byte.eqb b0 xf4 then 0x8f else 0xbf) b1
            && between 0x80 0xbf b2 && between 0x80 0xbf b3 && utf8_valid t3
        | _ => false
        end
      else false
  end.

(** [path_unicode.encode] with the utf8 codec.  The codec is strict: a
    str that holds a surrogate code point has no encoding, and the call
    raises [UnicodeEncodeError].  On the representation these are the
    strings that are not well-formed UTF-8. *)
Definition encode_utf8 (s : string) : result (list byte) :=
  if utf8_valid (list_byte_of_string s) then Ok (list_byte_of_string s)
  else Raise UnicodeEncodeError.

Section Adapters.

Variable env : Env.

(** [Inotify.add_watch]: returns [None] on an already watched path, the
    watch descriptor otherwise. *)
Definition add_watch (path_unicode : string) (mask : Z) : M (option Z) :=
  fun s =>
    match watches s !! path_unicode with
    | Some _ => (s, Ok None)
    | None =>
        match encode_utf8 path_unicode with
        | Raise ex => (s, Raise ex)
        | Ok path_bytes =>
            let r := inotify_add_watch env (history s) (inotify_fd s) path_bytes mask in
            let s1 := log (call_add_watch (inotify_fd s) path_bytes mask r) s in
            match r with
            | Failed errno => (s1, Raise (InotifyError errno))
            | Returned wd =>
                (set_watches_r (insert wd path_unicode)
                   (set_watches (insert path_unicode wd) s1), Ok (Some wd))
            end
        end
    end.

(** [del d[k]] on one of the two dictionaries. *)
Definition del_watches (path : string) : M unit :=
  fun s =>
    match watches s !! path with
    | Some _ => (set_watches (delete path) s, Ok tt)
    | None => (s, Raise KeyError)
    end.

Definition del_watches_r (wd : Z) : M unit :=
  fun s =>
    match watches_r s !! wd with
    | Some _ => (set_watches_r (delete wd) s, Ok tt)
    | None => (s, Raise KeyError)
    end.

Definition rm_watch (wd : Z) : M unit :=
  fun s =>
    let r := inotify_rm_watch env (history s) (inotify_fd s) wd in
    let s1 := log (call_rm_watch (inotify_fd s) wd r) s in
    match r with
    | Failed errno => (s1, Raise (InotifyError errno))
    | Returned _ => (s1, Ok tt)
    end.

(** [Inotify._remove_watch]. *)
Definition _remove_watch (wd : Z) (path : string) (superficial : pyval) : M unit :=
  (if negb (is_None superficial)
   then del_watches path >> del_watches_r wd
   else ret tt) >>
  if negb (is_False superficial) then ret tt
  else rm_watch wd.

(** [Inotify.remove_watch]. *)
Definition remove_watch (path : string) (superficial : pyval) : M unit :=
  fun s =>
    match watches s !! path with
    | None => (s, Ok tt)
    | Some wd => _remove_watch wd path superficial s
    end.

(** [Inotify.remove_watch_with_id]. *)
Definition remove_watch_with_id (wd : Z) (superficial : pyval) : M unit :=
  fun s =>
    match watches_r s !! wd with
    | None => (s, Ok tt)
    | Some path => _remove_watch wd path superficial s
    end.

(** [Inotify._get_event_names]: a copy of the table entry, an
    [AssertionError] when the table has none. *)
Definition _get_event_names (event_type : Z) : result (list string) :=
  match MASK_LOOKUP_COMB env !! event_type with
  | Some names => Ok names
  | None => Raise (AssertionError event_type)
  end.

(** [Inotify.__get_block_duration]. *)
Definition get_block_duration (s : Inotify) : Z :=
  match block_duration s with
  | Scalar seconds => seconds
  | Callable f => f tt
  end.

(** [time.time()]. *)
Definition now (s : Inotify) : Inotify * Z :=
  let t := time_time env (history s) in (log (call_time t) s, t).

End Adapters.

(** ** The record decoder *)

(** [struct.calcsize] of the format [iIII]. *)
Definition _STRUCT_HEADER_LENGTH : nat := 16.

(** An unsigned field in native byte order, which is little-endian on
    the machines inotify runs on (x86, ARM). *)
Fixpoint unpack_uint (bs : list byte) : Z :=
  match bs with
  | [] => 0
  | b :: rest => byte_value b + 256 * unpack_uint rest
  end.

(** Format [i]: the same four bytes read as two's complement. *)
Definition unpack_int (bs : list byte) : Z :=
  let u := unpack_uint bs in
  if u <? 2 ^ 31 then u else u - 2 ^ 32.

(** [struct.unpack] with the format [iIII], as an [_INOTIFY_EVENT]. *)
Definition unpack (peek_slice : list byte) : _INOTIFY_EVENT :=
  {| wd := unpack_int (take 4 peek_slice);
     mask := unpack_uint (take 4 (drop 4 peek_slice));
     cookie := unpack_uint (take 4 (drop 8 peek_slice));
     len := unpack_uint (take 4 (drop 12 peek_slice)) |}.

(** [filename.rstrip] of the NUL bytes. *)
Definition rstrip_nul (filename : list byte) : list byte :=
  fold_right
    (fun b acc =>
       match acc with
       | [] => if Byte.eqb b x00 then [] else [b]
       | _ => b :: acc
       end) [] filename.

(** [filename_bytes.decode] with the utf8 codec. *)
Definition decode_utf8 (filename_bytes : list byte) : result string :=
  if utf8_valid filename_bytes then Ok (string_of_list_byte filename_bytes)
  else Raise UnicodeDecodeError.

(** ** Generators

    How a generator ended, seen from the code that drives it. *)
Inductive gen_end (Q : Type) :=
| Exhausted
| Raised (x : exn)
| Abandoned (q : Q)
| Unfinished.
Arguments Exhausted {Q}.
Arguments Raised {Q} x.
Arguments Abandoned {Q} q.
Arguments Unfinished {Q}.

(** The code between two yields: it receives the item, may change its own
    locals [X] and the [Inotify] object, and either asks for the next
    item ([None]) or stops pulling, for a reason [Q]. *)
Definition consumer (X Q A : Type) : Type :=
  A -> X -> Inotify -> X * Inotify * option Q.

(** The consumer that keeps every item and never stops. *)
Definition collect {A Q : Type} : consumer (list A) Q A :=
  fun a acc s => (acc ++ [a], s, None).

(** [for x in g: ...; yield x]: hand the item on to the next consumer. *)
Definition forward {Y Q A : Type} (k : consumer Y Q A) (a : A) (y : Y) (s : Inotify)
  : Y * Inotify * option (gen_end Q) :=
  match k a y s with
  | (y', s', Some q) => (y', s', Some (Abandoned q))
  | (y', s', None) => (y', s', None)
  end.

Section Decoder.

Variable env : Env.
Context {X Q : Type}.
Variable k : consumer X Q event.

(** The [while 1:] loop of [Inotify._handle_inotify_event].  Each turn
    takes one record off the buffer, so [fuel] bounds the turns. *)
Fixpoint decode_loop (fuel : nat) (x : X) (s : Inotify) : X * Inotify * gen_end Q :=
  match fuel with
  | O => (x, s, Unfinished)
  | S fuel' =>
      let length := Z.of_nat (length (buffer s)) in
      if length <? Z.of_nat _STRUCT_HEADER_LENGTH then (x, s, Exhausted)
      else
        let peek_slice := take _STRUCT_HEADER_LENGTH (buffer s) in
        let header := unpack peek_slice in
        match _get_event_names env (mask header) with
        | Raise ex => (x, s, Raised ex)
        | Ok type_names =>
            let event_length := Z.of_nat _STRUCT_HEADER_LENGTH + len header in
            if length <? event_length then (x, s, Exhausted)
            else
              let filename :=
                take (Z.to_nat event_length - _STRUCT_HEADER_LENGTH)
                     (drop _STRUCT_HEADER_LENGTH (buffer s)) in
              let filename_bytes := rstrip_nul filename in
              let s1 := set_buffer (drop (Z.to_nat event_length) (buffer s)) s in
              let resume (x : X) (s : Inotify) :=
                if Z.of_nat (List.length (buffer s)) <? Z.of_nat _STRUCT_HEADER_LENGTH
                then (x, s, Exhausted)
                else decode_loop fuel' x s in
              match watches_r s1 !! wd header with
              | Some path =>
                  match decode_utf8 filename_bytes with
                  | Raise ex => (x, s1, Raised ex)
                  | Ok filename_unicode =>
                      match k (header, type_names, path, filename_unicode) x s1 with
                      | (x', s2, Some q) => (x', s2, Abandoned q)
                      | (x', s2, None) => resume x' s2
                      end
                  end
              | None => resume x s1
              end
        end
  end.

(** What follows [os.read] in [_handle_inotify_event], on the bytes [b]
    that were read. *)
Definition handle_bytes (b : list byte) (x : X) (s : Inotify) : X * Inotify * gen_end Q :=
  match b with
  | [] => (x, s, Exhausted)
  | _ =>
      let s1 := set_buffer (buffer s ++ b) s in
      decode_loop (S (length (buffer s1))) x s1
  end.

(** [Inotify._handle_inotify_event]. *)
Definition _handle_inotify_event (fd : Z) (x : X) (s : Inotify) : X * Inotify * gen_end Q :=
  let b := os_read env (history s) fd 1024 in
  handle_bytes b x (log (call_read fd 1024 b) s).

End Decoder.

(** ** The event generator *)

Definition _DEFAULT_EPOLL_BLOCK_DURATION_S : Z := 1.

Definition _DEFAULT_TERMINAL_EVENTS : list string :=
  ["IN_Q_OVERFLOW"; "IN_UNMOUNT"]%string.

(** The keyword arguments of [Inotify.event_gen].  Clock readings and
    [timeout_s] are counted in integer ticks. *)
Record event_gen_args := {
  timeout_s : option Z;
  yield_nones : pyval;
  filter_predicate : option (string -> event -> pyval);
  terminal_events : list string
}.

(** What the loop over [type_names] decides for one event. *)
Inductive verdict :=
| Deliver
| FilterStop (type_name : string)
| Terminal (type_name : string).

(** [filter_predicate is not None and filter_predicate(type_name, e) is False]. *)
Definition filter_rejects (args : event_gen_args) (type_name : string) (e : event) : bool :=
  match filter_predicate args with
  | Some f => is_False (f type_name e)
  | None => false
  end.

(** [type_name in terminal_events]. *)
Definition is_terminal (args : event_gen_args) (type_name : string) : bool :=
  bool_decide (type_name ∈ terminal_events args).

(** [for type_name in type_names: if ... return elif ... raise]. *)
Fixpoint scan_type_names (args : event_gen_args) (e : event) (type_names : list string)
  : verdict :=
  match type_names with
  | [] => Deliver
  | type_name :: rest =>
      if filter_rejects args type_name e then FilterStop type_name
      else if is_terminal args type_name then Terminal type_name
      else scan_type_names args e rest
  end.

Section EventGen.

Variable env : Env.
Context {Y Q : Type}.
Variable args : event_gen_args.
Variable k : consumer Y Q (option event).

(** The body of [for (header, type_names, path, filename) in
    self._handle_inotify_event(fd)]; the local [last_hit_s] travels with
    the consumer's own state. *)
Definition on_event : consumer (Z * Y) (gen_end Q) event :=
  fun e x s =>
    let '(s1, t) := now env s in
    let '(_, type_names, _, _) := e in
    match scan_type_names args e type_names with
    | FilterStop type_name =>
        ((t, snd x), set_last_success_return (Some (type_name, e)) s1, Some Exhausted)
    | Terminal type_name =>
        ((t, snd x), s1, Some (Raised (TerminalEventException type_name e)))
    | Deliver =>
        match forward k (Some e) (snd x) s1 with
        | (y', s2, stop) => ((t, y'), s2, stop)
        end
    end.

(** [for fd, event_type in events]. *)
Fixpoint for_polled (events : list (Z * Z)) (x : Z * Y) (s : Inotify)
  : (Z * Y) * Inotify * option (gen_end Q) :=
  match events with
  | [] => (x, s, None)
  | (fd, event_type) :: rest =>
      match _get_event_names env event_type with
      | Raise ex => (x, s, Some (Raised ex))
      | Ok names =>
          match _handle_inotify_event env on_event fd x s with
          | (x', s', Exhausted) => for_polled rest x' s'
          | (x', s', Raised ex) => (x', s', Some (Raised ex))
          | (x', s', Abandoned q) => (x', s', Some q)
          | (x', s', Unfinished) => (x', s', Some Unfinished)
          end
      end
  end.

(** [if timeout_s is not None: ... if time_since_event_s > timeout_s]. *)
Definition timed_out (last_hit_s : Z) (s : Inotify) : Inotify * bool :=
  match timeout_s args with
  | None => (s, false)
  | Some timeout =>
      let '(s1, t) := now env s in
      (s1, t - last_hit_s >? timeout)
  end.

(** One turn of the [while True:] loop; [None] when the loop goes on. *)
Definition event_gen_iteration (x : Z * Y) (s : Inotify)
  : (Z * Y) * Inotify * option (gen_end Q) :=
  let block_duration_s := get_block_duration s in
  let r := epoll_poll env (history s) block_duration_s in
  let s1 := log (call_poll block_duration_s r) s in
  match r with
  | Failed errno =>
      if negb (errno =? EINTR) then (x, s1, Some (Raised (IOError errno)))
      else
        let '(s2, out) := timed_out (fst x) s1 in
        if out then (x, s2, Some Exhausted) else (x, s2, None)
  | Returned events =>
      match for_polled events x s1 with
      | (x', s2, Some q) => (x', s2, Some q)
      | (x', s2, None) =>
          let '(s3, out) := timed_out (fst x') s2 in
          if out then (x', s3, Some Exhausted)
          else if is_True (yield_nones args) then
            match forward k None (snd x') s3 with
            | (y', s4, stop) => ((fst x', y'), s4, stop)
            end
          else (x', s3, None)
      end
  end.

(** The [while True:] loop, followed for at most [iterations] turns. *)
Fixpoint event_gen_loop (iterations : nat) (x : Z * Y) (s : Inotify)
  : Y * Inotify * gen_end Q :=
  match iterations with
  | O => (snd x, s, Unfinished)
  | S n =>
      match event_gen_iteration x s with
      | (x', s', Some q) => (snd x', s', q)
      | (x', s', None) => event_gen_loop n x' s'
      end
  end.

(** [Inotify.event_gen]. *)
Definition event_gen (iterations : nat) (y : Y) (s : Inotify) : Y * Inotify * gen_end Q :=
  let s0 := set_last_success_return None s in
  let '(s1, last_hit_s) := now env s0 in
  event_gen_loop iterations (last_hit_s, y) s1.

End EventGen.

(** ** The tree wrapper *)

Section Tree.

Variable env : Env.

(** [_BaseTree.__init__]: the mask every watch of the tree is installed
    with. *)
Definition tree_mask (mask : Z) : Z :=
  Z.lor (Z.lor (Z.lor (Z.lor (Z.lor mask (IN_ISDIR env)) (IN_CREATE env))
                      (IN_MOVED_TO env)) (IN_DELETE env)) (IN_MOVED_FROM env).

(** [os.path.exists(full_path)]. *)
Definition path_exists (full_path : string) : M bool :=
  fun s =>
    let r := os_path_exists env (history s) full_path in
    (log (call_exists full_path r) s, Ok r).

(** [try: ... except inotify.calls.InotifyError: pass]. *)
Definition except_InotifyError (m : M unit) : M unit :=
  fun s =>
    match m s with
    | (s', Raise (InotifyError _)) => (s', Ok tt)
    | r => r
    end.

(** The first [if] of the directory branch of [_BaseTree.event_gen]. *)
Definition on_created (ignore_missing_new_folders : pyval) (_mask : Z)
    (header : _INOTIFY_EVENT) (full_path : string) : M unit :=
  if truthy (Z.land (mask header) (IN_MOVED_TO env))
     || truthy (Z.land (mask header) (IN_CREATE env))
  then
    let* present := path_exists full_path in
    if present || is_False ignore_missing_new_folders
    then add_watch env full_path _mask >> ret tt
    else ret tt
  else ret tt.

(** The second [if], with its [elif]. *)
Definition on_removed (header : _INOTIFY_EVENT) (full_path : string) : M unit :=
  if truthy (Z.land (mask header) (IN_DELETE env))
  then remove_watch env full_path (PyBool true)
  else if truthy (Z.land (mask header) (IN_MOVED_FROM env))
  then except_InotifyError (remove_watch env full_path (PyBool false))
  else ret tt.

(** What [_BaseTree.event_gen] does with an event before it yields it. *)
Definition housekeeping (ignore_missing_new_folders : pyval) (_mask : Z) (e : event)
  : M unit :=
  let '(header, type_names, path, filename) := e in
  if truthy (Z.land (mask header) (IN_ISDIR env))
  then
    let full_path := os_path_join env path filename in
    on_created ignore_missing_new_folders _mask header full_path >>
    on_removed header full_path
  else ret tt.

Context {Y Q : Type}.

(** The body of [for event in self._i.event_gen(...)]. *)
Definition tree_body (ignore_missing_new_folders : pyval) (_mask : Z)
    (k : consumer Y Q (option event)) : consumer Y (gen_end Q) (option event) :=
  fun item y s =>
    match item with
    | Some e =>
        match housekeeping ignore_missing_new_folders _mask e s with
        | (s1, Raise ex) => (y, s1, Some (Raised ex))
        | (s1, Ok _) => forward k item y s1
        end
    | None => forward k item y s
    end.

(** [_BaseTree.event_gen]. *)
Definition tree_event_gen (ignore_missing_new_folders : pyval) (_mask : Z)
    (args : event_gen_args) (k : consumer Y Q (option event))
    (iterations : nat) (y : Y) (s : Inotify) : Y * Inotify * gen_end Q :=
  match event_gen env args (tree_body ignore_missing_new_folders _mask k) iterations y s with
  | (y', s', Exhausted) => (y', s', Exhausted)
  | (y', s', Raised ex) => (y', s', Raised ex)
  | (y', s', Abandoned q) => (y', s', q)
  | (y', s', Unfinished) => (y', s', Unfinished)
  end.

End Tree.

(** A kind that neither the filter nor the terminal set stops. *)
Definition passes (args : event_gen_args) (e : event) (type_name : string) : Prop :=
  filter_rejects args type_name e = false /\ is_terminal args type_name = false.

(** The caller that takes every item of the stream and keeps it. *)
Definition keep : consumer (list (option event)) Empty_set (option event) := collect.

(** [acc'] is [acc] followed by events, without an idle marker. *)
Definition grown (acc acc' : list (option event)) : Prop :=
  exists es : list event, acc' = acc ++ map Some es.

(** ** The stream as the specification words it

    Two definitions that follow the words of the specification rather
    than the code, to compare the code with. *)

(** A terminal kind aborts the stream; only otherwise is the filter
    asked. *)
Fixpoint scan_terminal_first (args : event_gen_args) (e : event)
    (type_names : list string) : verdict :=
  match type_names with
  | [] => Deliver
  | type_name :: rest =>
      if is_terminal args type_name then Terminal type_name
      else if filter_rejects args type_name e then FilterStop type_name
      else scan_terminal_first args e rest
  end.

(** One idle marker for an iteration without events, none for an
    iteration with events. *)
Definition items_idle_only (args : event_gen_args) (es : list event)
  : list (option event) :=
  match es with
  | [] => if is_True (yield_nones args) then [None] else []
  | _ => map Some es
  end.

(** ** The wire format, as the kernel writes it

    The encoder is the inverse the decoder is checked against: four
    32-bit fields in native order, then [len] bytes of name, padded with
    NUL bytes by the kernel. *)

Definition byte_of_Z (z : Z) : byte :=
  match Byte.of_N (Z.to_N (z mod 256)) with
  | Some b => b
  | None => x00
  end.

Fixpoint pack_uint (width : nat) (z : Z) : list byte :=
  match width with
  | O => []
  | S width' => byte_of_Z z :: pack_uint width' (z / 256)
  end.

Record wire_record := {
  r_wd : Z;
  r_mask : Z;
  r_cookie : Z;
  r_name : list byte
}.

Definition wire_header (r : wire_record) : _INOTIFY_EVENT :=
  {| wd := r_wd r; mask := r_mask r; cookie := r_cookie r;
     len := Z.of_nat (length (r_name r)) |}.

Definition pack (h : _INOTIFY_EVENT) : list byte :=
  pack_uint 4 (wd h mod 2 ^ 32) ++ pack_uint 4 (mask h)
  ++ pack_uint 4 (cookie h) ++ pack_uint 4 (len h).

Definition encode (r : wire_record) : list byte :=
  pack (wire_header r) ++ r_name r.

Definition encode_all (rs : list wire_record) : list byte :=
  concat (map encode rs).

(** A record the kernel may write: fields in range, a mask the table
    knows, a name that is UTF-8 once the padding is removed. *)
Definition well_formed (env : Env) (r : wire_record) : Prop :=
  - 2 ^ 31 <= r_wd r < 2 ^ 31 /\
  0 <= r_mask r < 2 ^ 32 /\
  0 <= r_cookie r < 2 ^ 32 /\
  Z.of_nat (length (r_name r)) < 2 ^ 32 /\
  is_Some (MASK_LOOKUP_COMB env !! r_mask r) /\
  utf8_valid (rstrip_nul (r_name r)) = true.

(** The event a record stands for, if its watch is registered. *)
Definition decoded (env : Env) (registry : gmap Z string) (r : wire_record) : list event :=
  match registry !! r_wd r, MASK_LOOKUP_COMB env !! r_mask r with
  | Some path, Some type_names =>
      [(wire_header r, type_names, path, string_of_list_byte (rstrip_nul (r_name r)))]
  | _, _ => []
  end.

Definition decoded_all (env : Env) (registry : gmap Z string) (rs : list wire_record)
  : list event :=
  concat (map (decoded env registry) rs).

(** A buffer without a complete leading record: it is shorter than a
    header, or shorter than the record its header announces. *)
Definition starved (pending : list byte) : Prop :=
  (length pending < _STRUCT_HEADER_LENGTH)%nat \/
  Z.of_nat (length pending)
  < Z.of_nat _STRUCT_HEADER_LENGTH + len (unpack (take _STRUCT_HEADER_LENGTH pending)).

(** Where a prefix of the byte stream ends: after some whole records,
    inside the next one. *)
Definition cut (rs : list wire_record) (pending : list byte) : Prop :=
  match rs with
  | [] => pending = []
  | r :: _ => (length pending < length (encode r))%nat
  end.

(** The consumer of the decoder that keeps every event. *)
Definition keep_events : consumer (list event) Empty_set event := collect.

(** Feeding the decoder one chunk after the other, keeping every event. *)
Fixpoint feed (env : Env) (chunks : list (list byte)) (acc : list event) (s : Inotify)
  : list event * Inotify * gen_end Empty_set :=
  match chunks with
  | [] => (acc, s, Exhausted)
  | b :: rest =>
      match handle_bytes env keep_events b acc s with
      | (acc', s', Exhausted) => feed env rest acc' s'
      | stopped => stopped
      end
  end.

(** ** Sequences of registry operations *)

Inductive op :=
| Add (path : string) (mask : Z)
| Remove (path : string) (superficial : pyval)
| RemoveWithId (wd : Z) (superficial : pyval).

(** One call by a client that catches what the call raises. *)
Definition apply_op (env : Env) (o : op) (s : Inotify) : Inotify :=
  match o with
  | Add path mask => fst (add_watch env path mask s)
  | Remove path superficial => fst (remove_watch env path superficial s)
  | RemoveWithId wd superficial => fst (remove_watch_with_id env wd superficial s)
  end.

Definition run (env : Env) (ops : list op) (s : Inotify) : Inotify :=
  fold_left (fun s o => apply_op env o s) ops s.

(** The descriptors [inotify_add_watch] has returned so far. *)
Fixpoint returned_wds (h : list call) : list Z :=
  match h with
  | [] => []
  | call_add_watch _ _ _ (Returned wd) :: rest => wd :: returned_wds rest
  | _ :: rest => returned_wds rest
  end.

(** The descriptors passed to [inotify_rm_watch] so far. *)
Fixpoint rm_watch_calls (h : list call) : list Z :=
  match h with
  | [] => []
  | call_rm_watch _ wd _ :: rest => wd :: rm_watch_calls rest
  | _ :: rest => rm_watch_calls rest
  end.

(** The paths passed to [inotify_add_watch] so far, with their masks. *)
Fixpoint add_watch_calls (h : list call) : list (list byte * Z) :=
  match h with
  | [] => []
  | call_add_watch _ path_bytes mask _ :: rest => (path_bytes, mask) :: add_watch_calls rest
  | _ :: rest => add_watch_calls rest
  end.

(** [Inotify.__init__] without paths, on the descriptor [fd] that
    [inotify_init] returned. *)
Definition new_Inotify (fd : Z) (block_duration_s : duration) : Inotify :=
  {| block_duration := block_duration_s; watches := ∅; watches_r := ∅;
     buffer := []; inotify_fd := fd; last_success_return := None; history := [] |}.

(** The two dictionaries are inverse to each other. *)
Definition bijective (s : Inotify) : Prop :=
  forall (path : string) (wd : Z),
    watches s !! path = Some wd <-> watches_r s !! wd = Some path.

(** No two paths share a descriptor and no two descriptors share a path. *)
Definition no_sharing (s : Inotify) : Prop :=
  (forall (p1 p2 : string) (w : Z),
     watches s !! p1 = Some w -> watches s !! p2 = Some w -> p1 = p2) /\
  (forall (w1 w2 : Z) (p : string),
     watches_r s !! w1 = Some p -> watches_r s !! w2 = Some p -> w1 = w2).

(** The invariant behind the bijection: the dictionaries are inverse to
    each other and every registered descriptor came from the kernel. *)
Definition registry_inv (s : Inotify) : Prop :=
  bijective s /\
  forall (wd : Z) (path : string),
    watches_r s !! wd = Some path -> wd ∈ returned_wds (history s).

(** Calling a method [n] times in a row. *)
Fixpoint times {A : Type} (n : nat) (m : M A) : M unit :=
  match n with
  | O => ret tt
  | S n' => m >> times n' m
  end.

(** An operation that takes [path] or [wd] out of the registry. *)
Definition removes (path : string) (wd : Z) (o : op) : bool :=
  match o with
  | Add _ _ => false
  | Remove path' superficial => negb (is_None superficial) && bool_decide (path' = path)
  | RemoveWithId wd' superficial => negb (is_None superficial) && bool_decide (wd' = wd)
  end.

(** ** A Linux environment for examples *)

Module Linux.

(** Modelled from the spec: [inotify.constants] is not among the sources.
    The flags have the values of the kernel header, and the table expands
    a bitmask into the names of its flags, lowest bit first. *)
Definition MASK_LOOKUP : list (Z * string) :=
  [(0x1, "IN_ACCESS"); (0x2, "IN_MODIFY"); (0x4, "IN_ATTRIB");
   (0x8, "IN_CLOSE_WRITE"); (0x10, "IN_CLOSE_NOWRITE"); (0x20, "IN_OPEN");
   (0x40, "IN_MOVED_FROM"); (0x80, "IN_MOVED_TO"); (0x100, "IN_CREATE");
   (0x200, "IN_DELETE"); (0x400, "IN_DELETE_SELF"); (0x800, "IN_MOVE_SELF");
   (0x2000, "IN_UNMOUNT"); (0x4000, "IN_Q_OVERFLOW"); (0x8000, "IN_IGNORED");
   (0x40000000, "IN_ISDIR")]%string.

Definition names_of (event_type : Z) : list string :=
  map snd (List.filter (fun '(bit, _) => truthy (Z.land event_type bit)) MASK_LOOKUP).

(** Every flag alone and together with [IN_ISDIR], and the two-flag
    directory masks used below. *)
Definition known_masks : list Z :=
  map fst MASK_LOOKUP ++ map (fun '(bit, _) => Z.lor bit 0x40000000) MASK_LOOKUP
  ++ [0x40000240; 0x40000300].

Definition table : gmap Z (list string) :=
  list_to_map (map (fun m => (m, names_of m)) known_masks).

Definition count (p : call -> bool) (h : list call) : nat :=
  length (List.filter p h).

Definition is_add (c : call) : bool :=
  match c with call_add_watch _ _ _ _ => true | _ => false end.

Definition is_rm (c : call) : bool :=
  match c with call_rm_watch _ _ _ => true | _ => false end.

Definition is_read (c : call) : bool :=
  match c with call_read _ _ _ => true | _ => false end.

Definition is_poll (c : call) : bool :=
  match c with call_poll _ _ => true | _ => false end.

(** What the outside world does during a run: the answers to the
    successive calls, in order.  The kernel hands out 1, 2, 3, ... as watch
    descriptors, and the clock advances by one tick per poll. *)
Record script := {
  rm_replies : list (reply unit);
  reads : list (list byte);
  polls : list (reply (list (Z * Z)));
  present : string -> bool
}.

(** [posixpath.join] of two components. *)
Definition join (a b : string) : string :=
  if String.prefix "/" b then b
  else if (String.length a =? 0)%nat then b
  else
    match String.get (String.length a - 1) a with
    | Some "/"%char => (a ++ b)%string
    | _ => (a ++ "/" ++ b)%string
    end.

Definition env (sc : script) : Env :=
  {| IN_ISDIR := 0x40000000;
     IN_CREATE := 0x100;
     IN_MOVED_TO := 0x80;
     IN_DELETE := 0x200;
     IN_MOVED_FROM := 0x40;
     MASK_LOOKUP_COMB := table;
     inotify_add_watch := fun h _ _ _ => Returned (Z.of_nat (S (count is_add h)));
     inotify_rm_watch := fun h _ _ => nth (count is_rm h) (rm_replies sc) (Returned tt);
     os_read := fun h _ _ => nth (count is_read h) (reads sc) [];
     epoll_poll := fun h _ => nth (count is_poll h) (polls sc) (Returned []);
     time_time := fun h => Z.of_nat (count is_poll h);
     os_path_exists := fun _ path => present sc path;
     os_path_join := join |}.

(** Nothing happens outside, and every path exists. *)
Definition quiet : script :=
  {| rm_replies := []; reads := []; polls := []; present := fun _ => true |}.

(** A new object on descriptor 3, and the same after [add_watch] on
    the path [/a]. *)
Definition fresh : Inotify := new_Inotify 3 (Scalar _DEFAULT_EPOLL_BLOCK_DURATION_S).

Definition watching_a : Inotify := fst (add_watch (env quiet) "/a" 0xfff fresh).

(** Then [add_watch] on [/a/d] as well. *)
Definition watching_a_d : Inotify := fst (add_watch (env quiet) "/a/d" 0xfff watching_a).

(** The kernel refuses the first [inotify_rm_watch] with [EINVAL]. *)
Definition vanished : script :=
  {| rm_replies := [Failed 22]; reads := []; polls := [];
     present := fun _ => true |}.

(** The directory [d] is gone when its event is processed. *)
Definition missing : script :=
  {| rm_replies := []; reads := []; polls := []; present := fun _ => false |}.

(** One poll reports the descriptor readable, and one read returns [b]. *)
Definition one_read (b : list byte) : script :=
  {| rm_replies := []; reads := [b]; polls := [Returned [(3, 1)]];
     present := fun _ => true |}.

(** Events on the entry [d] of the watched directory [/a]. *)
Definition dir_event (flags : Z) : event :=
  ({| wd := 1; mask := Z.lor 0x40000000 flags; cookie := 0; len := 16 |},
   names_of (Z.lor 0x40000000 flags), "/a", "d")%string.

(** The record of an unmount of [/a], and the one of a file [f]
    created in it. *)
Definition unmount_record : wire_record :=
  {| r_wd := 1; r_mask := 0x2000; r_cookie := 0; r_name := [] |}.

Definition create_record : wire_record :=
  {| r_wd := 1; r_mask := 0x100; r_cookie := 0;
     r_name := ["f"%byte; x00; x00; x00; x00; x00; x00; x00;
                x00; x00; x00; x00; x00; x00; x00; x00] |}.

Definition unmount_event : event :=
  (wire_header unmount_record, ["IN_UNMOUNT"], "/a", "")%string.

Definition create_event : event :=
  (wire_header create_record, ["IN_CREATE"], "/a", "f")%string.

Definition default_args : event_gen_args :=
  {| timeout_s := None; yield_nones := PyBool true; filter_predicate := None;
     terminal_events := _DEFAULT_TERMINAL_EVENTS |}.

(** A filter that returns [False] on every kind. *)
Definition rejecting_args : event_gen_args :=
  {| timeout_s := None; yield_nones := PyBool true;
     filter_predicate := Some (fun _ _ => PyBool false);
     terminal_events := _DEFAULT_TERMINAL_EVENTS |}.

End Linux.

(** ** Construction and the initial walk of a tree *)

(** [for path in paths: self.add_watch(path, mask)], as in
    [Inotify.__init__] and at the end of the two loaders. *)
Fixpoint add_watches (env : Env) (paths : list string) (mask : Z) : M unit :=
  match paths with
  | [] => ret tt
  | path :: rest => add_watch env path mask >> add_watches env rest mask
  end.

(** [Inotify.__init__], on the descriptor [fd] that [inotify_init]
    returned; [IN_ALL_EVENTS] is the default mask of [add_watch]. *)
Definition Inotify_init (env : Env) (fd : Z) (IN_ALL_EVENTS : Z) (paths : list string)
    (block_duration_s : duration) : Inotify * result unit :=
  add_watches env paths IN_ALL_EVENTS (new_Inotify fd block_duration_s).

(** The directory tree as the walk sees it: [os.listdir], which fails
    with an [OSError], and [os.path.isdir].  The tree does not change
    while it is walked. *)
Record Filesystem := {
  os_listdir : string -> reply (list string);
  os_path_isdir : string -> bool
}.

(** How the [while q:] loop of a loader ended. *)
Inductive walk_end :=
| Walked
| OSError (errno : Z)
| Walking.

(** The entries of [current_path] that the inner [for] appends to [q]. *)
Definition subdirectories (env : Env) (fs : Filesystem) (current_path : string)
    (filenames : list string) : list string :=
  List.filter (os_path_isdir fs) (map (os_path_join env current_path) filenames).

(** The [while q:] loop, followed for at most [fuel] turns: the queue
    and the paths found so far, as the loop leaves them. *)
Fixpoint walk (env : Env) (fs : Filesystem) (fuel : nat) (q found : list string)
  : list string * list string * walk_end :=
  match q with
  | [] => (q, found, Walked)
  | current_path :: q' =>
      match fuel with
      | O => (q, found, Walking)
      | S fuel' =>
          match os_listdir fs current_path with
          | Failed errno => (q', found ++ [current_path], OSError errno)
          | Returned filenames =>
              walk env fs fuel' (q' ++ subdirectories env fs current_path filenames)
                   (found ++ [current_path])
          end
      end
  end.

(** How a loader ended. *)
Inductive load_end :=
| Loaded
| LoadOSError (errno : Z)
| LoadRaised (ex : exn)
| StillWalking.

Definition watch_found (env : Env) (paths : list string) (_mask : Z) (s : Inotify)
  : Inotify * load_end :=
  match add_watches env paths _mask s with
  | (s', Ok _) => (s', Loaded)
  | (s', Raise ex) => (s', LoadRaised ex)
  end.

(** [InotifyTree.__load_tree]. *)
Definition __load_tree (env : Env) (fs : Filesystem) (fuel : nat) (_mask : Z)
    (path : string) (s : Inotify) : Inotify * load_end :=
  match walk env fs fuel [path] [] with
  | (_, paths, Walked) => watch_found env paths _mask s
  | (_, _, OSError errno) => (s, LoadOSError errno)
  | (_, _, Walking) => (s, StillWalking)
  end.

(** [InotifyTrees.__load_trees].  The queue is the caller's own list
    ([q = paths]), so the list the caller passed is returned as the walk
    left it. *)
Definition __load_trees (env : Env) (fs : Filesystem) (fuel : nat) (_mask : Z)
    (paths : list string) (s : Inotify) : list string * Inotify * load_end :=
  match walk env fs fuel paths [] with
  | (q, found, Walked) =>
      let '(s', ending) := watch_found env found _mask s in (q, s', ending)
  | (q, _, OSError errno) => (q, s, LoadOSError errno)
  | (q, _, Walking) => (q, s, StillWalking)
  end.

(** [InotifyTree.__init__] and [InotifyTrees.__init__]. *)
Definition InotifyTree_init (env : Env) (fs : Filesystem) (fuel : nat) (fd : Z)
    (path : string) (mask : Z) (block_duration_s : duration) : Inotify * load_end :=
  __load_tree env fs fuel (tree_mask env mask) path (new_Inotify fd block_duration_s).

Definition InotifyTrees_init (env : Env) (fs : Filesystem) (fuel : nat) (fd : Z)
    (paths : list string) (mask : Z) (block_duration_s : duration)
  : list string * Inotify * load_end :=
  __load_trees env fs fuel (tree_mask env mask) paths (new_Inotify fd block_duration_s).

(** The directories the walk may find from [roots]: the roots, and the
    entries of a directory it may find that are directories. *)
Inductive below (env : Env) (fs : Filesystem) (roots : list string) : string -> Prop :=
| below_root (path : string) : In path roots -> below env fs roots path
| below_entry (parent filename : string) (filenames : list string) :
    below env fs roots parent ->
    os_listdir fs parent = Returned filenames ->
    In filename filenames ->
    os_path_isdir fs (os_path_join env parent filename) = true ->
    below env fs roots (os_path_join env parent filename).

(** ** What an operation leaves alone *)

(** Everything but the two dictionaries and the log. *)
Definition same_frame (s s' : Inotify) : Prop :=
  block_duration s' = block_duration s /\
  buffer s' = buffer s /\
  inotify_fd s' = inotify_fd s /\
  last_success_return s' = last_success_return s.

(** A consumer that leaves the pending buffer as it is. *)
Definition keeps_buffer {X Q A : Type} (k : consumer X Q A) : Prop :=
  forall (a : A) (x : X) (s : Inotify), buffer (snd (fst (k a x s))) = buffer s.

(** A consumer that leaves alone what the registry methods leave alone. *)
Definition keeps_frame {X Q A : Type} (k : consumer X Q A) : Prop :=
  forall (a : A) (x : X) (s : Inotify), same_frame s (snd (fst (k a x s))).


(** The number of polls made so far. *)
Fixpoint polls_made (h : list call) : nat :=
  match h with
  | [] => O
  | call_poll _ _ :: rest => S (polls_made rest)
  | _ :: rest => polls_made rest
  end.

(** The [os.read] calls made so far. *)
Fixpoint reads_made (h : list call) : nat :=
  match h with
  | [] => O
  | call_read _ _ _ :: rest => S (reads_made rest)
  | _ :: rest => reads_made rest
  end.

(** The idle markers of [n] iterations. *)
Definition markers (args : event_gen_args) (n : nat) : list (option event) :=
  if is_True (yield_nones args) then repeat None n else [].

(** A record whose header fields fit their 32-bit fields; nothing is
    asked of its mask or its name. *)
Definition in_range (r : wire_record) : Prop :=
  - 2 ^ 31 <= r_wd r < 2 ^ 31 /\
  0 <= r_mask r < 2 ^ 32 /\
  0 <= r_cookie r < 2 ^ 32 /\
  Z.of_nat (length (r_name r)) < 2 ^ 32.

(** A header whose fields fit their 32-bit fields. *)
Definition header_in_range (h : _INOTIFY_EVENT) : Prop :=
  - 2 ^ 31 <= wd h < 2 ^ 31 /\
  0 <= mask h < 2 ^ 32 /\
  0 <= cookie h < 2 ^ 32 /\
  0 <= len h < 2 ^ 32.

(** ** More environments for examples *)

Module Scenario.

(** A kernel that answers every [inotify_add_watch] with the same
    descriptor, as it does for two paths of one directory. *)
Definition same_wd : Env :=
  let base := Linux.env Linux.quiet in
  {| IN_ISDIR := IN_ISDIR base;
     IN_CREATE := IN_CREATE base;
     IN_MOVED_TO := IN_MOVED_TO base;
     IN_DELETE := IN_DELETE base;
     IN_MOVED_FROM := IN_MOVED_FROM base;
     MASK_LOOKUP_COMB := MASK_LOOKUP_COMB base;
     inotify_add_watch := fun _ _ _ _ => Returned 1;
     inotify_rm_watch := inotify_rm_watch base;
     os_read := os_read base;
     epoll_poll := epoll_poll base;
     time_time := time_time base;
     os_path_exists := os_path_exists base;
     os_path_join := os_path_join base |}.

(** A kernel that refuses every [inotify_add_watch] with [ENOENT]. *)
Definition no_watch : Env :=
  let base := Linux.env Linux.quiet in
  {| IN_ISDIR := IN_ISDIR base;
     IN_CREATE := IN_CREATE base;
     IN_MOVED_TO := IN_MOVED_TO base;
     IN_DELETE := IN_DELETE base;
     IN_MOVED_FROM := IN_MOVED_FROM base;
     MASK_LOOKUP_COMB := MASK_LOOKUP_COMB base;
     inotify_add_watch := fun _ _ _ _ => Failed 2;
     inotify_rm_watch := inotify_rm_watch base;
     os_read := os_read base;
     epoll_poll := epoll_poll base;
     time_time := time_time base;
     os_path_exists := os_path_exists base;
     os_path_join := os_path_join base |}.

(** The tree [/r] with the directories [a] and [b], the file [f], and
    the directory [c] inside [a]. *)
Definition small_tree : Filesystem :=
  {| os_listdir := fun path =>
       if String.eqb path "/r" then Returned ["a"; "f"; "b"]
       else if String.eqb path "/r/a" then Returned ["c"]
       else if String.eqb path "/r/b" then Returned []
       else if String.eqb path "/r/a/c" then Returned []
       else Failed 2;
     os_path_isdir := fun path =>
       String.eqb path "/r" || String.eqb path "/r/a" || String.eqb path "/r/b"
       || String.eqb path "/r/a/c" |}%string.

(** The same tree when [/r/a] cannot be listed ([EACCES]). *)
Definition locked_tree : Filesystem :=
  {| os_listdir := fun path =>
       if String.eqb path "/r/a" then Failed 13 else os_listdir small_tree path;
     os_path_isdir := os_path_isdir small_tree |}%string.

(** The record of the directory [d] created in [/a]. *)
Definition new_directory_record : wire_record :=
  {| r_wd := 1; r_mask := 0x40000100; r_cookie := 0;
     r_name := ["d"%byte; x00; x00; x00; x00; x00; x00; x00;
                x00; x00; x00; x00; x00; x00; x00; x00] |}.

(** The directory is gone again when its event is read: no path exists,
    and the kernel refuses [inotify_add_watch] with [ENOENT]. *)
Definition gone_before_watch : Env :=
  let base := Linux.env {| Linux.rm_replies := [];
                           Linux.reads := [encode new_directory_record];
                           Linux.polls := [Returned [(3, 1)]];
                           Linux.present := fun _ => false |} in
  {| IN_ISDIR := IN_ISDIR base;
     IN_CREATE := IN_CREATE base;
     IN_MOVED_TO := IN_MOVED_TO base;
     IN_DELETE := IN_DELETE base;
     IN_MOVED_FROM := IN_MOVED_FROM base;
     MASK_LOOKUP_COMB := MASK_LOOKUP_COMB base;
     inotify_add_watch := fun _ _ _ _ => Failed 2;
     inotify_rm_watch := inotify_rm_watch base;
     os_read := os_read base;
     epoll_poll := epoll_poll base;
     time_time := time_time base;
     os_path_exists := os_path_exists base;
     os_path_join := os_path_join base |}.

(** The str that [os.listdir] gives for a name that is the single byte
    [0xff]: the surrogate U+DCFF. *)
Definition surrogate_name : string := string_of_list_byte [xed; xb3; xbf].

(** The tree [/r] of [small_tree] with one more directory, whose name is
    not UTF-8. *)
Definition odd_tree : Filesystem :=
  {| os_listdir := fun path =>
       if String.eqb path "/r" then Returned ["a"; "f"; "b"; surrogate_name]
       else if String.eqb path ("/r/" ++ surrogate_name) then Returned []
       else os_listdir small_tree path;
     os_path_isdir := fun path =>
       String.eqb path ("/r/" ++ surrogate_name) || os_path_isdir small_tree path
  |}%string.

(** A record for a watch that is not registered, with a name that is
    not UTF-8. *)
Definition stray_record : wire_record :=
  {| r_wd := 9; r_mask := 0x100; r_cookie := 0; r_name := [xff] |}.

(** A record whose mask, [IN_ACCESS|IN_MODIFY], the table of
    [Linux.table] does not hold. *)
Definition odd_mask_record : wire_record :=
  {| r_wd := 1; r_mask := 0x3; r_cookie := 0; r_name := [] |}.

(** A record of the watch on [/a] whose name is one Latin-1 byte. *)
Definition latin1_record : wire_record :=
  {| r_wd := 1; r_mask := 0x100; r_cookie := 0; r_name := [xe9; x00; x00; x00] |}.

(** A consumer that stops at the first event. *)
Definition stop_now : consumer unit unit event := fun _ x s => (x, s, Some tt).

(** Keyword arguments with a timeout of two ticks. *)
Definition timeout_args : event_gen_args :=
  {| timeout_s := Some 2; yield_nones := PyBool true; filter_predicate := None;
     terminal_events := _DEFAULT_TERMINAL_EVENTS |}.

(** Keyword arguments with [yield_nones=1]. *)
Definition no_marker_args : event_gen_args :=
  {| timeout_s := None; yield_nones := PyInt 1; filter_predicate := None;
     terminal_events := _DEFAULT_TERMINAL_EVENTS |}.

End Scenario.

(** * Properties *)

(** ** The watch registry *)

Section Registry.

Variable env : Env.

Lemma add_watch_known (path : string) (mask : Z) (s : Inotify) :
  is_Some (watches s !! path) -> add_watch env path mask s = (s, Ok None).
Proof.
  intros [wd Hwd]. unfold add_watch. now rewrite Hwd.
Qed.

Lemma remove_watch_unknown (path : string) (superficial : pyval) (s : Inotify) :
  watches s !! path = None -> remove_watch env path superficial s = (s, Ok tt).
Proof.
  intros Hnone. unfold remove_watch. now rewrite Hnone.
Qed.

Lemma remove_watch_with_id_unknown (wd : Z) (superficial : pyval) (s : Inotify) :
  watches_r s !! wd = None -> remove_watch_with_id env wd superficial s = (s, Ok tt).
Proof.
  intros Hnone. unfold remove_watch_with_id. now rewrite Hnone.
Qed.

Lemma times_noop {A : Type} (m : M A) (a : A) (s : Inotify) (n : nat) :
  m s = (s, Ok a) -> times n m s = (s, Ok tt).
Proof.
  intros Hm. induction n as [|n IH]; simpl; [reflexivity|].
  unfold bind. now rewrite Hm.
Qed.

(** With [superficial=None] nothing is deleted and the method returns
    before it reaches the kernel. *)
Lemma _remove_watch_None (wd : Z) (path : string) (s : Inotify) :
  _remove_watch env wd path PyNone s = (s, Ok tt).
Proof. reflexivity. Qed.

(** What [_remove_watch] does on a registered pair when [superficial] is
    not [None]. *)
Lemma _remove_watch_registered (wd : Z) (path : string) (superficial : pyval) (s : Inotify) :
  is_None superficial = false ->
  is_Some (watches s !! path) ->
  is_Some (watches_r s !! wd) ->
  let s1 := set_watches_r (delete wd) (set_watches (delete path) s) in
  _remove_watch env wd path superficial s =
    if is_False superficial then rm_watch env wd s1 else (s1, Ok tt).
Proof.
  intros Hsup [w Hw] [p Hp]. unfold _remove_watch, bind, del_watches, del_watches_r.
  rewrite Hsup. simpl. rewrite Hw. simpl. rewrite Hp.
  destruct (is_False superficial); reflexivity.
Qed.

Lemma rm_watch_registry (wd : Z) (s : Inotify) :
  watches (fst (rm_watch env wd s)) = watches s /\
  watches_r (fst (rm_watch env wd s)) = watches_r s /\
  history (fst (rm_watch env wd s)) =
    call_rm_watch (inotify_fd s) wd (inotify_rm_watch env (history s) (inotify_fd s) wd)
    :: history s.
Proof.
  unfold rm_watch. destruct (inotify_rm_watch env (history s) (inotify_fd s) wd); auto.
Qed.

Lemma registry_inv_new (fd : Z) (d : duration) : registry_inv (new_Inotify fd d).
Proof.
  split; [intros path wd | intros wd path]; simpl; rewrite !lookup_empty;
    [split|]; discriminate.
Qed.

Lemma bijective_delete (s : Inotify) (path : string) (wd : Z) :
  bijective s -> watches s !! path = Some wd ->
  bijective (set_watches_r (delete wd) (set_watches (delete path) s)).
Proof.
  intros Hbij Hw p w. simpl.
  destruct (decide (p = path)) as [->|Hp], (decide (w = wd)) as [->|Hwd];
    rewrite ?lookup_delete_eq, ?lookup_delete_ne by congruence.
  - split; discriminate.
  - split; [discriminate|]. intros H. apply Hbij in H. congruence.
  - split; [|discriminate]. intros H. apply Hbij in H. apply Hbij in Hw. congruence.
  - apply Hbij.
Qed.

Lemma bijective_insert (s : Inotify) (path : string) (wd : Z) :
  bijective s -> watches s !! path = None -> watches_r s !! wd = None ->
  bijective (set_watches_r (insert wd path) (set_watches (insert path wd) s)).
Proof.
  intros Hbij Hp Hwd p w. simpl.
  destruct (decide (p = path)) as [->|Hne], (decide (w = wd)) as [->|Hne'];
    rewrite ?lookup_insert_eq, ?lookup_insert_ne by congruence.
  - split; reflexivity.
  - split; [congruence|]. intros H. apply Hbij in H. congruence.
  - split; [|congruence]. intros H. apply Hbij in H. congruence.
  - apply Hbij.
Qed.

(** The state after a removal that is not [superficial=None], on a
    consistent registry. *)
Lemma remove_watch_state (path : string) (wd : Z) (superficial : pyval) (s : Inotify) :
  bijective s -> watches s !! path = Some wd -> is_None superficial = false ->
  let s' := fst (remove_watch env path superficial s) in
  watches s' = delete path (watches s) /\
  watches_r s' = delete wd (watches_r s) /\
  returned_wds (history s') = returned_wds (history s).
Proof.
  intros Hbij Hw Hsup. unfold remove_watch. rewrite Hw.
  rewrite _remove_watch_registered; eauto.
  2:{ apply Hbij in Hw. eauto. }
  destruct (is_False superficial); simpl; auto.
  pose proof (rm_watch_registry wd
    (set_watches_r (delete wd) (set_watches (delete path) s))) as (H1 & H2 & H3).
  rewrite H1, H2, H3. simpl. auto.
Qed.

Lemma remove_watch_with_id_state (path : string) (wd : Z) (superficial : pyval)
    (s : Inotify) :
  bijective s -> watches_r s !! wd = Some path -> is_None superficial = false ->
  let s' := fst (remove_watch_with_id env wd superficial s) in
  watches s' = delete path (watches s) /\
  watches_r s' = delete wd (watches_r s) /\
  returned_wds (history s') = returned_wds (history s).
Proof.
  intros Hbij Hr Hsup. unfold remove_watch_with_id. rewrite Hr.
  rewrite _remove_watch_registered; eauto.
  2:{ apply Hbij in Hr. eauto. }
  destruct (is_False superficial); simpl; auto.
  pose proof (rm_watch_registry wd
    (set_watches_r (delete wd) (set_watches (delete path) s))) as (H1 & H2 & H3).
  rewrite H1, H2, H3. simpl. auto.
Qed.

(** The log only grows: the descriptors returned so far stay in it. *)
Lemma apply_op_returned (o : op) (s : Inotify) :
  exists l, returned_wds (history (apply_op env o s)) = l ++ returned_wds (history s).
Proof.
  destruct o as [path mask | path superficial | wd superficial]; simpl.
  - unfold add_watch. destruct (watches s !! path); [exists []; reflexivity|].
    destruct (encode_utf8 path) as [path_bytes|ex]; [|exists []; reflexivity].
    destruct (inotify_add_watch env (history s) (inotify_fd s) path_bytes mask)
      as [w|errno]; simpl; [exists [w] | exists []]; reflexivity.
  - unfold remove_watch. destruct (watches s !! path) as [wd|]; [|exists []; reflexivity].
    unfold _remove_watch, bind, del_watches, del_watches_r.
    destruct (is_None superficial); simpl.
    + destruct (is_False superficial); simpl; [|exists []; reflexivity].
      destruct (rm_watch_registry wd s) as (_ & _ & ->). exists []; reflexivity.
    + destruct (watches s !! path); simpl; [|exists []; reflexivity].
      destruct (watches_r s !! wd); simpl; [|exists []; reflexivity].
      destruct (is_False superficial); simpl; [|exists []; reflexivity].
      match goal with |- context [rm_watch env wd ?t] =>
        destruct (rm_watch_registry wd t) as (_ & _ & ->) end.
      exists []; reflexivity.
  - unfold remove_watch_with_id.
    destruct (watches_r s !! wd) as [path|]; [|exists []; reflexivity].
    unfold _remove_watch, bind, del_watches, del_watches_r.
    destruct (is_None superficial); simpl.
    + destruct (is_False superficial); simpl; [|exists []; reflexivity].
      destruct (rm_watch_registry wd s) as (_ & _ & ->). exists []; reflexivity.
    + destruct (watches s !! path); simpl; [|exists []; reflexivity].
      destruct (watches_r s !! wd); simpl; [|exists []; reflexivity].
      destruct (is_False superficial); simpl; [|exists []; reflexivity].
      match goal with |- context [rm_watch env wd ?t] =>
        destruct (rm_watch_registry wd t) as (_ & _ & ->) end.
      exists []; reflexivity.
Qed.

Lemma run_cons (o : op) (ops : list op) (s : Inotify) :
  run env (o :: ops) s = run env ops (apply_op env o s).
Proof. reflexivity. Qed.

Lemma run_app (ops1 ops2 : list op) (s : Inotify) :
  run env (ops1 ++ ops2) s = run env ops2 (run env ops1 s).
Proof. apply fold_left_app. Qed.

Lemma run_returned (ops : list op) (s : Inotify) :
  exists l, returned_wds (history (run env ops s)) = l ++ returned_wds (history s).
Proof.
  revert s. induction ops as [|o ops IH]; intros s.
  - exists []; reflexivity.
  - rewrite run_cons.
    destruct (IH (apply_op env o s)) as [l1 H1].
    destruct (apply_op_returned o s) as [l2 H2].
    exists (l1 ++ l2). now rewrite H1, H2, app_assoc.
Qed.

Lemma NoDup_app_r_inv {A : Type} (l1 l2 : list A) : NoDup (l1 ++ l2) -> NoDup l2.
Proof. intros H. apply NoDup_app in H. tauto. Qed.

(** One operation keeps the invariant, as long as the kernel has not
    handed out the same descriptor twice. *)
Lemma apply_op_inv (o : op) (s : Inotify) :
  registry_inv s ->
  NoDup (returned_wds (history (apply_op env o s))) ->
  registry_inv (apply_op env o s).
Proof.
  intros [Hbij Hdom] Hnd.
  destruct o as [path mask | path superficial | wd superficial]; simpl in *.
  - unfold add_watch in *. destruct (watches s !! path) eqn:Hp; [split; assumption|].
    destruct (encode_utf8 path) as [path_bytes|ex]; [|split; assumption].
    destruct (inotify_add_watch env (history s) (inotify_fd s) path_bytes mask)
      as [w|errno]; simpl in *; [|split; assumption].
    apply NoDup_cons in Hnd as [Hfresh _].
    assert (watches_r s !! w = None) as Hw.
    { destruct (watches_r s !! w) eqn:E; [|reflexivity].
      exfalso. apply Hfresh. eapply Hdom, E. }
    split.
    + apply (bijective_insert (log _ s) path w); assumption.
    + intros wd' p'. simpl. destruct (decide (wd' = w)) as [->|Hne].
      * intros _. left.
      * rewrite lookup_insert_ne by congruence. intros H. right. eapply Hdom, H.
  - destruct (is_None superficial) eqn:Hsup.
    + destruct superficial; try discriminate.
      unfold remove_watch in *. destruct (watches s !! path); split; assumption.
    + destruct (watches s !! path) as [wd|] eqn:Hp.
      2:{ rewrite remove_watch_unknown by assumption. split; assumption. }
      destruct (remove_watch_state path wd superficial s Hbij Hp Hsup) as (H1 & H2 & H3).
      split.
      * intros p w. rewrite H1, H2.
        apply (bijective_delete s path wd Hbij Hp p w).
      * intros w p. rewrite H2, H3. intros H.
        apply lookup_delete_Some in H as [_ H]. eapply Hdom, H.
  - destruct (is_None superficial) eqn:Hsup.
    + destruct superficial; try discriminate.
      unfold remove_watch_with_id in *. destruct (watches_r s !! wd); split; assumption.
    + destruct (watches_r s !! wd) as [path|] eqn:Hr.
      2:{ rewrite remove_watch_with_id_unknown by assumption. split; assumption. }
      destruct (remove_watch_with_id_state path wd superficial s Hbij Hr Hsup)
        as (H1 & H2 & H3).
      assert (watches s !! path = Some wd) as Hp by (apply Hbij, Hr).
      split.
      * intros p w. rewrite H1, H2.
        apply (bijective_delete s path wd Hbij Hp p w).
      * intros w p. rewrite H2, H3. intros H.
        apply lookup_delete_Some in H as [_ H]. eapply Hdom, H.
Qed.

Lemma run_inv (ops : list op) (s : Inotify) :
  registry_inv s ->
  NoDup (returned_wds (history (run env ops s))) ->
  registry_inv (run env ops s).
Proof.
  revert s. induction ops as [|o ops IH]; intros s Hinv Hnd; [assumption|].
  rewrite run_cons in *. apply IH; [|assumption].
  apply apply_op_inv; [assumption|].
  destruct (run_returned ops (apply_op env o s)) as [l Hl].
  rewrite Hl in Hnd. eapply NoDup_app_r_inv, Hnd.
Qed.

(** An operation that does not remove [path] or [wd] leaves their entry
    alone. *)
Lemma apply_op_keeps (o : op) (s : Inotify) (path : string) (wd : Z) :
  registry_inv s ->
  NoDup (returned_wds (history (apply_op env o s))) ->
  removes path wd o = false ->
  watches s !! path = Some wd ->
  watches (apply_op env o s) !! path = Some wd.
Proof.
  intros [Hbij Hdom] Hnd Hrem Hp.
  destruct o as [path' mask | path' superficial | wd' superficial]; simpl in *.
  - unfold add_watch in *. destruct (watches s !! path') eqn:Hp'; [assumption|].
    destruct (encode_utf8 path') as [path_bytes|ex]; [|assumption].
    destruct (inotify_add_watch env (history s) (inotify_fd s) path_bytes mask)
      as [w|errno]; simpl in *; [|assumption].
    rewrite lookup_insert_ne by congruence. assumption.
  - destruct (is_None superficial) eqn:Hsup.
    + destruct superficial; try discriminate.
      unfold remove_watch. destruct (watches s !! path'); assumption.
    + simpl in Hrem. apply bool_decide_eq_false in Hrem.
      destruct (watches s !! path') as [w|] eqn:Hp'.
      2:{ rewrite remove_watch_unknown by assumption. assumption. }
      destruct (remove_watch_state path' w superficial s Hbij Hp' Hsup) as (H1 & _).
      rewrite H1, lookup_delete_ne by congruence. assumption.
  - destruct (is_None superficial) eqn:Hsup.
    + destruct superficial; try discriminate.
      unfold remove_watch_with_id. destruct (watches_r s !! wd'); assumption.
    + simpl in Hrem. apply bool_decide_eq_false in Hrem.
      destruct (watches_r s !! wd') as [p|] eqn:Hr.
      2:{ rewrite remove_watch_with_id_unknown by assumption. assumption. }
      destruct (remove_watch_with_id_state p wd' superficial s Hbij Hr Hsup) as (H1 & _).
      rewrite H1, lookup_delete_ne; [assumption|].
      intros ->. apply Hbij in Hr. congruence.
Qed.

Lemma run_keeps (ops : list op) (s : Inotify) (path : string) (wd : Z) :
  registry_inv s ->
  NoDup (returned_wds (history (run env ops s))) ->
  forallb (fun o => negb (removes path wd o)) ops = true ->
  watches s !! path = Some wd ->
  watches (run env ops s) !! path = Some wd.
Proof.
  revert s. induction ops as [|o ops IH]; intros s Hinv Hnd Hops Hp; [assumption|].
  rewrite run_cons in *. simpl in Hops.
  apply andb_true_iff in Hops as [Ho Hops]. apply negb_true_iff in Ho.
  assert (NoDup (returned_wds (history (apply_op env o s)))) as Hnd1.
  { destruct (run_returned ops (apply_op env o s)) as [l Hl].
    rewrite Hl in Hnd. eapply NoDup_app_r_inv, Hnd. }
  apply IH; auto using apply_op_inv, apply_op_keeps.
Qed.

Lemma add_watch_returns (path : string) (mask : Z) (s s' : Inotify) (wd : Z) :
  add_watch env path mask s = (s', Ok (Some wd)) ->
  watches s' !! path = Some wd /\ watches_r s' !! wd = Some path.
Proof.
  unfold add_watch. destruct (watches s !! path); [discriminate|].
  destruct (encode_utf8 path) as [path_bytes|ex]; [|discriminate].
  destruct (inotify_add_watch env (history s) (inotify_fd s) path_bytes mask);
    [|discriminate].
  intros [= <- <-]. simpl. now rewrite !lookup_insert_eq.
Qed.

Lemma bijective_no_sharing (s : Inotify) : bijective s -> no_sharing s.
Proof.
  intros Hbij. split.
  - intros p1 p2 w H1 H2. apply Hbij in H1, H2. congruence.
  - intros w1 w2 p H1 H2. apply Hbij in H1, H2. congruence.
Qed.

(** C5 — registry bijection.  Take any operations [before], then
    [add_watch path], then any operations [after], starting from a new
    object, in a run where the kernel never returned the same descriptor
    twice.  Before the add, after it and at the end the two dictionaries
    are inverse to each other, so no two paths share a descriptor and no
    two descriptors share a path.  If the add returned [wd], then looking
    up [path] gives [wd] and looking up [wd] gives [path], right away and
    for as long as no later operation removes either; and once
    [remove_watch path] or [remove_watch_with_id wd] has run (in a mode
    that removes the entry) both lookups fail. *)
Theorem registry_bijection (fd : Z) (d : duration) (before after : list op)
    (path : string) (mask : Z) :
  let s0 := run env before (new_Inotify fd d) in
  let s1 := fst (add_watch env path mask s0) in
  let s2 := run env after s1 in
  NoDup (returned_wds (history s2)) ->
  (bijective s0 /\ no_sharing s0) /\
  (bijective s1 /\ no_sharing s1) /\
  (bijective s2 /\ no_sharing s2) /\
  forall wd : Z,
    snd (add_watch env path mask s0) = Ok (Some wd) ->
    (watches s1 !! path = Some wd /\ watches_r s1 !! wd = Some path) /\
    (forallb (fun o => negb (removes path wd o)) after = true ->
     (watches s2 !! path = Some wd /\ watches_r s2 !! wd = Some path) /\
     forall superficial : pyval,
       is_None superficial = false ->
       let s3 := fst (remove_watch env path superficial s2) in
       let s4 := fst (remove_watch_with_id env wd superficial s2) in
       (watches s3 !! path = None /\ watches_r s3 !! wd = None) /\
       (watches s4 !! path = None /\ watches_r s4 !! wd = None)).
Proof.
  intros s0 s1 s2 Hnd.
  assert (NoDup (returned_wds (history s1))) as Hnd1.
  { destruct (run_returned after s1) as [l Hl]. fold s2 in Hl.
    rewrite Hl in Hnd. eapply NoDup_app_r_inv, Hnd. }
  assert (NoDup (returned_wds (history s0))) as Hnd0.
  { destruct (apply_op_returned (Add path mask) s0) as [l Hl]. simpl in Hl.
    fold s1 in Hl. rewrite Hl in Hnd1. eapply NoDup_app_r_inv, Hnd1. }
  assert (registry_inv s0) as Hinv0 by (apply run_inv; auto using registry_inv_new).
  assert (registry_inv s1) as Hinv1 by (apply (apply_op_inv (Add path mask)); assumption).
  assert (registry_inv s2) as Hinv2 by (apply run_inv; assumption).
  destruct Hinv0 as [Hb0 ?]. pose proof Hinv1 as [Hb1 ?]. destruct Hinv2 as [Hb2 ?].
  split; [auto using bijective_no_sharing|].
  split; [auto using bijective_no_sharing|].
  split; [auto using bijective_no_sharing|].
  intros wd Hret.
  assert (watches s1 !! path = Some wd /\ watches_r s1 !! wd = Some path) as [Hp1 Hw1].
  { apply (add_watch_returns path mask s0). subst s1.
    destruct (add_watch env path mask s0) as [s' r]. simpl in *. now subst r. }
  split; [auto|]. intros Hafter.
  assert (watches s2 !! path = Some wd) as Hp2 by (apply run_keeps; assumption).
  assert (watches_r s2 !! wd = Some path) as Hw2 by (apply Hb2, Hp2).
  split; [auto|]. intros superficial Hsup s3 s4.
  destruct (remove_watch_state path wd superficial s2 Hb2 Hp2 Hsup) as (H3 & H3' & _).
  destruct (remove_watch_with_id_state path wd superficial s2 Hb2 Hw2 Hsup)
    as (H4 & H4' & _).
  subst s3 s4. rewrite H3, H3', H4, H4', !lookup_delete_eq. auto.
Qed.

(** C6 — tolerated duplicates.  [add_watch] on a path that is already in
    the registry returns without raising, leaves the whole object as it
    was and makes no call to the kernel (the log is part of the state);
    [remove_watch] on a path and [remove_watch_with_id] on a descriptor
    that are not registered do the same, whatever [superficial] is; and
    this stays so however many times the call is repeated. *)
Theorem tolerated_duplicates (s : Inotify) (path : string) (mask : Z) (wd : Z)
    (superficial : pyval) (n : nat) :
  (is_Some (watches s !! path) ->
   add_watch env path mask s = (s, Ok None) /\
   times n (add_watch env path mask) s = (s, Ok tt)) /\
  (watches s !! path = None ->
   remove_watch env path superficial s = (s, Ok tt) /\
   times n (remove_watch env path superficial) s = (s, Ok tt)) /\
  (watches_r s !! wd = None ->
   remove_watch_with_id env wd superficial s = (s, Ok tt) /\
   times n (remove_watch_with_id env wd superficial) s = (s, Ok tt)).
Proof.
  split; [|split]; intros H.
  - pose proof (add_watch_known path mask s H) as E. eauto using times_noop.
  - pose proof (remove_watch_unknown path superficial s H) as E. eauto using times_noop.
  - pose proof (remove_watch_with_id_unknown wd superficial s H) as E.
    eauto using times_noop.
Qed.

(** C9 — [superficial=None] changes nothing.  On a registered path,
    [remove_watch] with [superficial=None] returns with the object exactly
    as it was: both dictionaries keep their entries, and the log of calls
    is the same, so [inotify_rm_watch] was not called.  The same holds for
    [remove_watch_with_id] on a registered descriptor. *)
Theorem superficial_None_is_noop (s : Inotify) (path : string) (wd : Z) :
  (watches s !! path = Some wd ->
   remove_watch env path PyNone s = (s, Ok tt)) /\
  (watches_r s !! wd = Some path ->
   remove_watch_with_id env wd PyNone s = (s, Ok tt)).
Proof.
  split; intros H.
  - unfold remove_watch. rewrite H. apply _remove_watch_None.
  - unfold remove_watch_with_id. rewrite H. apply _remove_watch_None.
Qed.

End Registry.

Lemma registry_bijection_witness :
  let E := Linux.env Linux.quiet in
  let s0 := run E [Add "/x" 1]%string (new_Inotify 3 (Scalar 1)) in
  let s1 := fst (add_watch E "/a" 1 s0) in
  let s2 := run E [Add "/b" 1; Remove "/x" (PyBool true)]%string s1 in
  NoDup (returned_wds (history s2)) /\
  bijective s2 /\
  watches s2 !! "/a"%string = Some 2 /\ watches_r s2 !! 2 = Some "/a"%string /\
  watches (fst (remove_watch E "/a" (PyBool false) s2)) !! "/a"%string = None /\
  watches_r (fst (remove_watch E "/a" (PyBool false) s2)) !! 2 = None.
Proof.
  intros E s0 s1 s2.
  assert (NoDup (returned_wds (history s2))) as Hnd.
  { apply (bool_decide_unpack (NoDup (returned_wds (history s2)))).
    vm_compute. exact I. }
  split; [exact Hnd|].
  pose proof (registry_bijection E 3 (Scalar 1)
              [Add "/x" 1]%string [Add "/b" 1; Remove "/x" (PyBool true)]%string
              "/a"%string 1 Hnd) as (_ & _ & [Hb _] & Hadd).
  assert (snd (add_watch E "/a" 1 s0) = Ok (Some 2)) as Hret by (vm_compute; reflexivity).
  destruct (Hadd 2 Hret) as (_ & Hafter).
  assert (forallb (fun o => negb (removes "/a" 2 o))
            [Add "/b" 1; Remove "/x" (PyBool true)]%string = true) as Hops
    by (vm_compute; reflexivity).
  destruct (Hafter Hops) as ([Hp Hw] & Hrm).
  destruct (Hrm (PyBool false) eq_refl) as ([Hp3 Hw3] & _).
  exact (conj Hb (conj Hp (conj Hw (conj Hp3 Hw3)))).
Defined.

Lemma tolerated_duplicates_witness :
  let E := Linux.env Linux.quiet in
  add_watch E "/a" 0xfff Linux.watching_a = (Linux.watching_a, Ok None) /\
  times 5 (remove_watch E "/b" (PyBool false)) Linux.watching_a
    = (Linux.watching_a, Ok tt) /\
  times 5 (remove_watch_with_id E 7 (PyBool true)) Linux.watching_a
    = (Linux.watching_a, Ok tt).
Proof.
  intros E.
  destruct (tolerated_duplicates E Linux.watching_a "/a" 0xfff 7 (PyBool false) 5)
    as (Hadd & _ & _).
  destruct (tolerated_duplicates E Linux.watching_a "/b" 0xfff 7 (PyBool false) 5)
    as (_ & Hrm & _).
  destruct (tolerated_duplicates E Linux.watching_a "/b" 0xfff 7 (PyBool true) 5)
    as (_ & _ & Hid).
  split; [apply Hadd; vm_compute; eauto|].
  split; [apply Hrm; vm_compute; reflexivity|].
  apply Hid; vm_compute; reflexivity.
Defined.

Lemma superficial_None_is_noop_witness :
  let E := Linux.env Linux.quiet in
  remove_watch E "/a" PyNone Linux.watching_a = (Linux.watching_a, Ok tt) /\
  remove_watch_with_id E 1 PyNone Linux.watching_a = (Linux.watching_a, Ok tt).
Proof.
  intros E.
  destruct (superficial_None_is_noop E Linux.watching_a "/a" 1) as [Hp Hw].
  split; [apply Hp | apply Hw]; vm_compute; reflexivity.
Defined.

(** ** The tree wrapper *)

Section TreeProperties.

Variable env : Env.

Lemma remove_watch_superficial_history (path : string) (s : Inotify) :
  history (fst (remove_watch env path (PyBool true) s)) = history s.
Proof.
  unfold remove_watch. destruct (watches s !! path) as [wd|]; [|reflexivity].
  unfold _remove_watch, bind, del_watches, del_watches_r. simpl.
  destruct (watches s !! path); [|reflexivity]. simpl.
  destruct (watches_r s !! wd); reflexivity.
Qed.


Lemma except_InotifyError_state (m : M unit) (s : Inotify) :
  fst (except_InotifyError m s) = fst (m s).
Proof.
  unfold except_InotifyError. destruct (m s) as [s' [[]|[]]]; reflexivity.
Qed.



Lemma add_watch_rm_calls (path : string) (mask : Z) (s : Inotify) :
  rm_watch_calls (history (fst (add_watch env path mask s))) = rm_watch_calls (history s).
Proof.
  unfold add_watch. destruct (watches s !! path); [reflexivity|].
  destruct (encode_utf8 path) as [path_bytes|ex]; [|reflexivity].
  destruct (inotify_add_watch env (history s) (inotify_fd s) path_bytes mask);
    reflexivity.
Qed.

Lemma on_created_rm_calls (ign : pyval) (_mask : Z) (header : _INOTIFY_EVENT)
    (full_path : string) (s : Inotify) :
  rm_watch_calls (history (fst (on_created env ign _mask header full_path s)))
  = rm_watch_calls (history s).
Proof.
  unfold on_created.
  destruct (truthy (Z.land (mask header) (IN_MOVED_TO env))
            || truthy (Z.land (mask header) (IN_CREATE env))); [|reflexivity].
  unfold bind, path_exists.
  destruct (os_path_exists env (history s) full_path || is_False ign); [|reflexivity].
  match goal with |- context [add_watch env full_path _mask ?t] =>
    pose proof (add_watch_rm_calls full_path _mask t) as H;
    destruct (add_watch env full_path _mask t) as [s' [a|x]] end; exact H.
Qed.

Lemma housekeeping_directory (ign : pyval) (_mask : Z) (header : _INOTIFY_EVENT)
    (type_names : list string) (path filename : string) (s : Inotify) :
  truthy (Z.land (mask header) (IN_ISDIR env)) = true ->
  housekeeping env ign _mask (header, type_names, path, filename) s =
    (on_created env ign _mask header (os_path_join env path filename) >>
     on_removed env header (os_path_join env path filename)) s.
Proof.
  intros Hdir. unfold housekeeping. now rewrite Hdir.
Qed.


(** C10 — delete together with moved-from.  When the mask of a directory
    event has both the delete flag and the moved-from flag, the handler
    runs the delete branch only: after the create branch it is
    [remove_watch(full_path, superficial=True)], and the handler as a
    whole makes no call to [inotify_rm_watch]. *)
Theorem delete_shadows_moved_from (ign : pyval) (_mask : Z) (header : _INOTIFY_EVENT)
    (type_names : list string) (path filename : string) (s : Inotify) :
  let full_path := os_path_join env path filename in
  let r := housekeeping env ign _mask (header, type_names, path, filename) s in
  truthy (Z.land (mask header) (IN_ISDIR env)) = true ->
  truthy (Z.land (mask header) (IN_DELETE env)) = true ->
  truthy (Z.land (mask header) (IN_MOVED_FROM env)) = true ->
  on_removed env header full_path = remove_watch env full_path (PyBool true) /\
  r = (on_created env ign _mask header full_path >>
       remove_watch env full_path (PyBool true)) s /\
  rm_watch_calls (history (fst r)) = rm_watch_calls (history s).
Proof.
  intros full_path r Hdir Hdel Hmoved.
  assert (on_removed env header full_path = remove_watch env full_path (PyBool true))
    as Hrem by (unfold on_removed; now rewrite Hdel).
  assert (r = (on_created env ign _mask header full_path >>
               remove_watch env full_path (PyBool true)) s) as Hr.
  { subst r. rewrite housekeeping_directory by assumption.
    fold full_path. now rewrite Hrem. }
  split; [assumption|]. split; [assumption|].
  rewrite Hr. unfold bind.
  pose proof (on_created_rm_calls ign _mask header full_path s) as Hc.
  destruct (on_created env ign _mask header full_path s) as [s1 [[]|x]]; simpl in *;
    [|assumption].
  now rewrite remove_watch_superficial_history.
Qed.

(** C8 — a watch for a new directory.  For a directory event whose mask
    has the create or the moved-to flag, the handler asks whether the
    joined path exists and then calls [add_watch] on it with the tree's
    mask exactly when the path exists or [ignore_missing_new_folders] is
    [False] (its default, under which existence is not verified).  What
    the call does to a path that is already watched is nothing.  A path
    that is not yet watched and has an encoding is passed to
    [inotify_add_watch] with the tree's mask: if the kernel returns a
    descriptor the path is registered under it; if the kernel refuses,
    the handler raises the [InotifyError], nothing is registered and the
    removal branch is not run.  A path without an encoding raises
    [UnicodeEncodeError] before the kernel is called.  When the path is
    missing and [ignore_missing_new_folders] is not [False], the step
    returns normally, with the registry as it was and no call to the
    kernel. *)
Theorem directory_creation (ign : pyval) (m : Z) (header : _INOTIFY_EVENT)
    (type_names : list string) (path filename : string) (s : Inotify) :
  let full_path := os_path_join env path filename in
  let _mask := tree_mask env m in
  let present := os_path_exists env (history s) full_path in
  let s0 := log (call_exists full_path present) s in
  let r := on_created env ign _mask header full_path s in
  truthy (Z.land (mask header) (IN_ISDIR env)) = true ->
  truthy (Z.land (mask header) (IN_MOVED_TO env))
  || truthy (Z.land (mask header) (IN_CREATE env)) = true ->
  housekeeping env ign _mask (header, type_names, path, filename) s =
    match r with
    | (s1, Ok _) => on_removed env header full_path s1
    | (s1, Raise ex) => (s1, Raise ex)
    end /\
  (present || is_False ign = true ->
   r = (add_watch env full_path _mask >> ret tt) s0 /\
   (is_Some (watches s !! full_path) -> r = (s0, Ok tt)) /\
   (watches s !! full_path = None ->
    (encode_utf8 full_path = Raise UnicodeEncodeError ->
     r = (s0, Raise UnicodeEncodeError)) /\
    forall path_bytes : list byte,
      encode_utf8 full_path = Ok path_bytes ->
      add_watch_calls (history (fst r))
      = (path_bytes, _mask) :: add_watch_calls (history s) /\
      (forall wd : Z,
         inotify_add_watch env (history s0) (inotify_fd s) path_bytes _mask
         = Returned wd ->
         snd r = Ok tt /\
         watches (fst r) !! full_path = Some wd /\
         watches_r (fst r) !! wd = Some full_path) /\
      (forall errno : Z,
         inotify_add_watch env (history s0) (inotify_fd s) path_bytes _mask
         = Failed errno ->
         snd r = Raise (InotifyError errno) /\
         watches (fst r) = watches s /\
         watches_r (fst r) = watches_r s /\
         housekeeping env ign _mask (header, type_names, path, filename) s
         = (fst r, Raise (InotifyError errno))))) /\
  (present || is_False ign = false -> r = (s0, Ok tt)).
Proof.
  intros full_path _mask present s0 r Hdir Hnew.
  assert (housekeeping env ign _mask (header, type_names, path, filename) s =
          match r with
          | (s1, Ok _) => on_removed env header full_path s1
          | (s1, Raise ex) => (s1, Raise ex)
          end) as Hhk.
  { rewrite housekeeping_directory by assumption. unfold bind. fold full_path r.
    destruct r as [s1 [[]|ex]]; reflexivity. }
  split; [exact Hhk|].
  assert (r = if present || is_False ign
              then (add_watch env full_path _mask >> ret tt) s0
              else (s0, Ok tt)) as Hr.
  { subst r. unfold on_created. rewrite Hnew. unfold bind at 1, path_exists.
    fold present s0. destruct (present || is_False ign); reflexivity. }
  split; intros Hcond; rewrite Hcond in Hr; [|assumption].
  split; [assumption|]. split.
  { intros [wd Hwd]. rewrite Hr. unfold bind, add_watch. simpl. now rewrite Hwd. }
  intros Hfree. split.
  { intros Henc. rewrite Hr. unfold bind, add_watch. simpl. now rewrite Hfree, Henc. }
  intros path_bytes Henc.
  rewrite Hhk, Hr. unfold bind, add_watch. simpl. rewrite Hfree, Henc.
  destruct (inotify_add_watch env (call_exists full_path present :: history s)
              (inotify_fd s) path_bytes _mask) as [w|errno] eqn:Hk;
    simpl; (split; [reflexivity|]); split; intros x; try discriminate.
  - intros [= ->]. now rewrite !lookup_insert_eq.
  - intros [= ->]. auto.
Qed.

End TreeProperties.


Lemma delete_shadows_moved_from_witness :
  let E := Linux.env Linux.quiet in
  let r := housekeeping E (PyBool false) 0xfff (Linux.dir_event 0x240)
             Linux.watching_a_d in
  rm_watch_calls (history (fst r)) = rm_watch_calls (history Linux.watching_a_d).
Proof.
  intros E r.
  destruct (delete_shadows_moved_from E (PyBool false) 0xfff
              {| wd := 1; mask := Z.lor 0x40000000 0x240; cookie := 0; len := 16 |}
              (Linux.names_of (Z.lor 0x40000000 0x240)) "/a" "d" Linux.watching_a_d)
    as (_ & _ & Hcalls); [vm_compute; reflexivity ..|].
  exact Hcalls.
Defined.

Lemma directory_creation_witness :
  let header := {| wd := 1; mask := Z.lor 0x40000000 0x100; cookie := 0; len := 16 |} in
  let there := on_created (Linux.env Linux.quiet) (PyBool true)
                 (tree_mask (Linux.env Linux.quiet) 0x2) header "/a/d" Linux.watching_a in
  let gone := on_created (Linux.env Linux.missing) (PyBool true)
                (tree_mask (Linux.env Linux.missing) 0x2) header "/a/d" Linux.watching_a in
  let unchecked := on_created (Linux.env Linux.missing) (PyBool false)
                     (tree_mask (Linux.env Linux.missing) 0x2) header "/a/d"
                     Linux.watching_a in
  let refused := on_created Scenario.gone_before_watch (PyBool false)
                   (tree_mask Scenario.gone_before_watch 0x2) header "/a/d"
                   Linux.watching_a in
  (snd there = Ok tt /\ watches (fst there) !! "/a/d"%string = Some 2 /\
   watches_r (fst there) !! 2 = Some "/a/d"%string) /\
  gone = (log (call_exists "/a/d" false) Linux.watching_a, Ok tt) /\
  (snd unchecked = Ok tt /\ watches (fst unchecked) !! "/a/d"%string = Some 2 /\
   watches_r (fst unchecked) !! 2 = Some "/a/d"%string) /\
  (snd refused = Raise (InotifyError 2) /\
   watches (fst refused) = watches Linux.watching_a /\
   watches_r (fst refused) = watches_r Linux.watching_a).
Proof.
  intros header there gone unchecked refused.
  assert (encode_utf8 "/a/d" = Ok ["/"; "a"; "/"; "d"]%byte) as Henc
    by (vm_compute; reflexivity).
  split; [|split; [|split]].
  - destruct (directory_creation (Linux.env Linux.quiet) (PyBool true) 0x2 header
                (Linux.names_of (Z.lor 0x40000000 0x100)) "/a" "d" Linux.watching_a)
      as (_ & Hyes & _); [vm_compute; reflexivity ..|].
    destruct Hyes as (_ & _ & Hnew); [vm_compute; reflexivity|].
    destruct Hnew as (_ & Hcall); [vm_compute; reflexivity|].
    destruct (Hcall _ Henc) as (_ & Hwd & _).
    apply (Hwd 2). vm_compute. reflexivity.
  - destruct (directory_creation (Linux.env Linux.missing) (PyBool true) 0x2 header
                (Linux.names_of (Z.lor 0x40000000 0x100)) "/a" "d" Linux.watching_a)
      as (_ & _ & Hno); [vm_compute; reflexivity ..|].
    apply Hno. vm_compute. reflexivity.
  - destruct (directory_creation (Linux.env Linux.missing) (PyBool false) 0x2 header
                (Linux.names_of (Z.lor 0x40000000 0x100)) "/a" "d" Linux.watching_a)
      as (_ & Hyes & _); [vm_compute; reflexivity ..|].
    destruct Hyes as (_ & _ & Hnew); [vm_compute; reflexivity|].
    destruct Hnew as (_ & Hcall); [vm_compute; reflexivity|].
    destruct (Hcall _ Henc) as (_ & Hwd & _).
    apply (Hwd 2). vm_compute. reflexivity.
  - destruct (directory_creation Scenario.gone_before_watch (PyBool false) 0x2 header
                (Linux.names_of (Z.lor 0x40000000 0x100)) "/a" "d" Linux.watching_a)
      as (_ & Hyes & _); [vm_compute; reflexivity ..|].
    destruct Hyes as (_ & _ & Hnew); [vm_compute; reflexivity|].
    destruct Hnew as (_ & Hcall); [vm_compute; reflexivity|].
    destruct (Hcall _ Henc) as (_ & _ & Hrefused).
    destruct (Hrefused 2) as (Hraise & Hw & Hwr & _); [vm_compute; reflexivity|].
    exact (conj Hraise (conj Hw Hwr)).
Defined.

(** The new directory is gone when its event is processed,
    [ignore_missing_new_folders] has its default [False], under which
    existence is not verified, and the kernel answers [ENOENT].  No watch
    is installed although existence is not verified, and an error is
    raised although the directory is missing: the handler raises, and the
    stream of the tree ends with the error without delivering the
    event. *)
Lemma missing_directory_refused :
  let E := Scenario.gone_before_watch in
  let _mask := tree_mask E 0x2 in
  let r := housekeeping E (PyBool false) _mask (Linux.dir_event 0x100) Linux.watching_a in
  let g := tree_event_gen E (PyBool false) _mask Linux.default_args keep 1 []
             Linux.watching_a in
  os_path_exists E (history Linux.watching_a) "/a/d" = false /\
  snd r = Raise (InotifyError 2) /\
  watches (fst r) !! "/a/d"%string = None /\
  fst (fst g) = [] /\
  snd g = Raised (InotifyError 2) /\
  watches (snd (fst g)) !! "/a/d"%string = None.
Proof.
  vm_compute. repeat split.
Qed.

(** ** The event generator *)

Section EventGenProperties.

Variable env : Env.
Variable args : event_gen_args.

Lemma scan_type_names_passes (e : event) (pre rest : list string) :
  Forall (passes args e) pre ->
  scan_type_names args e (pre ++ rest) = scan_type_names args e rest.
Proof.
  induction 1 as [|type_name pre [Hf Ht] _ IH]; simpl; [reflexivity|].
  now rewrite Hf, Ht.
Qed.

Lemma scan_type_names_deliver (e : event) (type_names : list string) :
  Forall (passes args e) type_names -> scan_type_names args e type_names = Deliver.
Proof.
  intros H. rewrite <- (app_nil_r type_names). now rewrite scan_type_names_passes.
Qed.

(** C1, amended — the filter is asked before the terminal set.  The kinds
    of a decoded event are examined in order.  At the first kind that the
    filter rejects (it returns [False]) or that is terminal: if the filter
    rejects it, the stream ends normally and [last_success_return] holds
    the kind and the event, whether or not the kind is terminal as well;
    if the filter does not reject it and it is terminal, the stream ends
    with [TerminalEventException] carrying the kind and the event.  When
    no kind is of either sort the event is yielded. *)
Theorem filter_before_terminal {Y Q : Type} (k : consumer Y Q (option event))
    (header : _INOTIFY_EVENT) (type_names : list string) (path filename : string)
    (x : Z * Y) (s : Inotify) :
  let e := (header, type_names, path, filename) in
  let s1 := fst (now env s) in
  let t := snd (now env s) in
  (forall (pre post : list string) (type_name : string),
     type_names = pre ++ type_name :: post ->
     Forall (passes args e) pre ->
     (filter_rejects args type_name e = true ->
      on_event env args k e x s =
        ((t, snd x), set_last_success_return (Some (type_name, e)) s1, Some Exhausted)) /\
     (filter_rejects args type_name e = false ->
      is_terminal args type_name = true ->
      on_event env args k e x s =
        ((t, snd x), s1, Some (Raised (TerminalEventException type_name e))))) /\
  (Forall (passes args e) type_names ->
   on_event env args k e x s =
     let '(y', s2, stop) := forward k (Some e) (snd x) s1 in ((t, y'), s2, stop)).
Proof.
  intros e s1 t. split.
  - intros pre post type_name -> Hpre.
    unfold on_event. simpl. rewrite scan_type_names_passes by assumption. simpl.
    split.
    + intros ->. reflexivity.
    + intros -> ->. reflexivity.
  - intros Hall. unfold on_event. simpl.
    rewrite scan_type_names_deliver by assumption. reflexivity.
Qed.

(** The two orders agree on an event without a kind that is both
    terminal and rejected by the filter. *)
Lemma scan_orders_agree (e : event) (type_names : list string) :
  Forall (fun type_name =>
            filter_rejects args type_name e && is_terminal args type_name = false)
         type_names ->
  scan_type_names args e type_names = scan_terminal_first args e type_names.
Proof.
  induction 1 as [|type_name rest Hone _ IH]; simpl; [reflexivity|].
  destruct (filter_rejects args type_name e), (is_terminal args type_name);
    simpl in *; try discriminate; auto.
Qed.

(** *** Items delivered to a consumer that keeps them all *)

Lemma grown_refl (acc : list (option event)) : grown acc acc.
Proof. exists []. simpl. now rewrite app_nil_r. Qed.

Lemma grown_trans (a b c : list (option event)) : grown a b -> grown b c -> grown a c.
Proof.
  intros [es1 ->] [es2 ->]. exists (es1 ++ es2). now rewrite map_app, app_assoc.
Qed.

Lemma on_event_grown (e : event) (x x' : Z * list (option event)) (s s' : Inotify)
    (stop : option (gen_end Empty_set)) :
  on_event env args keep e x s = (x', s', stop) -> grown (snd x) (snd x').
Proof.
  unfold on_event. destruct (now env s) as [s1 t]. destruct e as [[[h tn] p] f].
  destruct (scan_type_names args (h, tn, p, f) tn).
  - unfold forward, keep, collect. intros [= <- <- <-]. simpl.
    exists [(h, tn, p, f)]. reflexivity.
  - intros [= <- <- <-]. apply grown_refl.
  - intros [= <- <- <-]. apply grown_refl.
Qed.

Lemma decode_loop_grown (fuel : nat) (x x' : Z * list (option event)) (s s' : Inotify)
    (r : gen_end (gen_end Empty_set)) :
  decode_loop env (on_event env args keep) fuel x s = (x', s', r) ->
  grown (snd x) (snd x').
Proof.
  revert x s. induction fuel as [|fuel IH]; intros x s; simpl.
  - intros [= <- <- <-]. apply grown_refl.
  - destruct (Z.of_nat (length (buffer s)) <? Z.of_nat _STRUCT_HEADER_LENGTH);
      [intros [= <- <- <-]; apply grown_refl|].
    destruct (_get_event_names env _) as [type_names|ex];
      [|intros [= <- <- <-]; apply grown_refl].
    destruct (Z.of_nat (length (buffer s)) <? _);
      [intros [= <- <- <-]; apply grown_refl|].
    destruct (watches_r _ !! _) as [path|].
    + destruct (decode_utf8 _) as [filename_unicode|ex];
        [|intros [= <- <- <-]; apply grown_refl].
      destruct (on_event env args keep _ x _) as [[x1 s2] [q|]] eqn:Hk;
        apply on_event_grown in Hk.
      * intros [= <- <- <-]. assumption.
      * destruct (Z.of_nat (length (buffer s2)) <? _).
        -- intros [= <- <- <-]. assumption.
        -- intros H. apply IH in H. eapply grown_trans; eassumption.
    + simpl. destruct (_ <? _).
      * intros [= <- <- <-]. apply grown_refl.
      * apply IH.
Qed.

Lemma for_polled_grown (events : list (Z * Z)) (x x' : Z * list (option event))
    (s s' : Inotify) (stop : option (gen_end Empty_set)) :
  for_polled env args keep events x s = (x', s', stop) -> grown (snd x) (snd x').
Proof.
  revert x s. induction events as [|[fd event_type] rest IH]; intros x s; simpl.
  - intros [= <- <- <-]. apply grown_refl.
  - destruct (_get_event_names env event_type) as [names|ex];
      [|intros [= <- <- <-]; apply grown_refl].
    destruct (_handle_inotify_event env (on_event env args keep) fd x s)
      as [[x1 s1] r] eqn:Hh.
    assert (grown (snd x) (snd x1)) as Hg.
    { unfold _handle_inotify_event, handle_bytes in Hh.
      destruct (os_read env (history s) fd 1024).
      - injection Hh as <- _ _. apply grown_refl.
      - eapply decode_loop_grown, Hh. }
    destruct r; try (intros [= <- <- <-]; assumption).
    intros H. apply IH in H. eapply grown_trans; eassumption.
Qed.

(** C2, amended — an idle marker at the end of every iteration.  Take an
    iteration whose poll returned, whose events were processed without
    ending the stream, and whose timeout check did not fire.  The
    iteration has delivered events only, then delivers exactly one [None]
    when [yield_nones] is [True] and nothing more otherwise, and the loop
    goes on; this does not depend on whether any event was delivered.
    When the poll reported no descriptor, the [None] is all that is
    delivered. *)
Theorem idle_marker_every_iteration (events : list (Z * Z)) (last_hit_s t' : Z)
    (acc acc1 : list (option event)) (s s2 s3 : Inotify) :
  let s1 := log (call_poll (get_block_duration s) (Returned events)) s in
  let marker := if is_True (yield_nones args) then [None] else [] in
  epoll_poll env (history s) (get_block_duration s) = Returned events ->
  for_polled env args keep events (last_hit_s, acc) s1 = ((t', acc1), s2, None) ->
  timed_out env args t' s2 = (s3, false) ->
  event_gen_iteration env args keep (last_hit_s, acc) s = ((t', acc1 ++ marker), s3, None) /\
  (exists es : list event, acc1 ++ marker = acc ++ map Some es ++ marker) /\
  (events = [] -> acc1 ++ marker = acc ++ marker).
Proof.
  intros s1 marker Hpoll Hfor Hout.
  split; [|split].
  - unfold event_gen_iteration. rewrite Hpoll. fold s1. rewrite Hfor. simpl.
    rewrite Hout. subst marker.
    destruct (is_True (yield_nones args)); simpl; [reflexivity|].
    now rewrite app_nil_r.
  - apply for_polled_grown in Hfor as [es Hes]. simpl in Hes.
    exists es. now rewrite Hes, app_assoc.
  - intros ->. simpl in Hfor. now injection Hfor as _ <- _.
Qed.

End EventGenProperties.

Lemma filter_before_terminal_witness :
  let E := Linux.env Linux.quiet in
  let s1 := fst (now E Linux.watching_a) in
  let t := snd (now E Linux.watching_a) in
  on_event E Linux.rejecting_args keep Linux.unmount_event (0, []) Linux.watching_a
  = ((t, []), set_last_success_return (Some ("IN_UNMOUNT"%string, Linux.unmount_event)) s1,
     Some Exhausted) /\
  on_event E Linux.default_args keep Linux.unmount_event (0, []) Linux.watching_a
  = ((t, []), s1,
     Some (Raised (TerminalEventException "IN_UNMOUNT" Linux.unmount_event))) /\
  on_event E Linux.default_args keep Linux.create_event (0, []) Linux.watching_a
  = ((t, [Some Linux.create_event]), s1, None).
Proof.
  intros E s1 t.
  destruct (filter_before_terminal E Linux.rejecting_args keep
              (wire_header Linux.unmount_record) ["IN_UNMOUNT"%string] "/a" ""
              (0, []) Linux.watching_a) as [Hstop _].
  destruct (Hstop [] [] "IN_UNMOUNT"%string eq_refl ltac:(constructor)) as [Hrej _].
  destruct (filter_before_terminal E Linux.default_args keep
              (wire_header Linux.unmount_record) ["IN_UNMOUNT"%string] "/a" ""
              (0, []) Linux.watching_a) as [Hstop' _].
  destruct (Hstop' [] [] "IN_UNMOUNT"%string eq_refl ltac:(constructor)) as [_ Hterm].
  destruct (filter_before_terminal E Linux.default_args keep
              (wire_header Linux.create_record) ["IN_CREATE"%string] "/a" "f"
              (0, []) Linux.watching_a) as [_ Hpass].
  split; [apply Hrej; vm_compute; reflexivity|].
  split; [apply Hterm; vm_compute; reflexivity|].
  apply Hpass. repeat constructor.
Defined.

Lemma filter_stop_on_terminal_kind :
  let E := Linux.env (Linux.one_read (encode Linux.unmount_record)) in
  let args := Linux.rejecting_args in
  let e := Linux.unmount_event in
  let r := event_gen E args keep 1 [] Linux.watching_a in
  is_terminal args "IN_UNMOUNT" = true /\
  filter_rejects args "IN_UNMOUNT" e = true /\
  scan_terminal_first args e ["IN_UNMOUNT"%string] = Terminal "IN_UNMOUNT" /\
  scan_type_names args e ["IN_UNMOUNT"%string] = FilterStop "IN_UNMOUNT" /\
  fst (fst r) = [] /\
  snd r = Exhausted /\
  last_success_return (snd (fst r)) = Some ("IN_UNMOUNT"%string, e) /\
  snd r <> Raised (TerminalEventException "IN_UNMOUNT" e).
Proof.
  vm_compute. repeat split; discriminate.
Qed.

Lemma idle_marker_every_iteration_witness :
  let E := Linux.env (Linux.one_read (encode Linux.create_record)) in
  event_gen_iteration E Linux.default_args keep (0, []) Linux.watching_a
  = ((1, [Some Linux.create_event; None]),
     snd (fst (event_gen_iteration E Linux.default_args keep (0, []) Linux.watching_a)),
     None).
Proof.
  intros E.
  pose (s1 := log (call_poll (get_block_duration Linux.watching_a)
                     (Returned [(3, 1)])) Linux.watching_a).
  pose (s2 := snd (fst (for_polled E Linux.default_args keep [(3, 1)] (0, []) s1))).
  destruct (idle_marker_every_iteration E Linux.default_args [(3, 1)] 0 1 []
              [Some Linux.create_event] Linux.watching_a s2 s2) as (Hiter & _);
    [vm_compute; reflexivity ..|].
  rewrite Hiter. vm_compute. reflexivity.
Defined.

Lemma idle_marker_after_event :
  let E := Linux.env (Linux.one_read (encode Linux.create_record)) in
  let r := event_gen E Linux.default_args keep 1 [] Linux.watching_a in
  fst (fst r) = [Some Linux.create_event; None] /\
  fst (fst r) <> items_idle_only Linux.default_args [Linux.create_event] /\
  snd r = Unfinished.
Proof.
  vm_compute. repeat split; discriminate.
Qed.

(** ** The record decoder *)

Section WireFormat.

Lemma byte_value_range (b : byte) : 0 <= byte_value b < 256.
Proof.
  unfold byte_value. pose proof (Byte.to_N_bounded b). lia.
Qed.

Lemma byte_value_of_Z (z : Z) : byte_value (byte_of_Z z) = z mod 256.
Proof.
  pose proof (Z.mod_pos_bound z 256 eq_refl) as Hz.
  unfold byte_of_Z, byte_value. destruct (Byte.of_N (Z.to_N (z mod 256))) eqn:E.
  - apply Byte.to_of_N in E. rewrite E. apply Z2N.id. lia.
  - apply Byte.of_N_None_iff in E. lia.
Qed.

Lemma length_pack_uint (width : nat) (z : Z) : length (pack_uint width z) = width.
Proof.
  revert z. induction width as [|width IH]; intros z; simpl; [reflexivity|].
  now rewrite IH.
Qed.

Lemma unpack_pack_uint (width : nat) (z : Z) :
  unpack_uint (pack_uint width z) = z mod 256 ^ Z.of_nat width.
Proof.
  revert z. induction width as [|width IH]; intros z.
  - simpl. now rewrite Z.mod_1_r.
  - cbn [pack_uint unpack_uint]. rewrite byte_value_of_Z, IH.
    rewrite Nat2Z.inj_succ, Z.pow_succ_r by lia.
    rewrite Z.rem_mul_r by lia. reflexivity.
Qed.

Lemma unpack_pack_field (z : Z) :
  0 <= z < 2 ^ 32 -> unpack_uint (pack_uint 4 z) = z.
Proof.
  intros Hz. rewrite unpack_pack_uint. apply Z.mod_small.
  change (256 ^ Z.of_nat 4) with (2 ^ 32). assumption.
Qed.

Lemma unpack_pack_int (z : Z) :
  - 2 ^ 31 <= z < 2 ^ 31 -> unpack_int (pack_uint 4 (z mod 2 ^ 32)) = z.
Proof.
  intros Hz. unfold unpack_int. rewrite unpack_pack_uint.
  change (256 ^ Z.of_nat 4) with (2 ^ 32). rewrite Z.mod_mod by lia.
  change (2 ^ 32) with 4294967296 in *. change (2 ^ 31) with 2147483648 in *.
  destruct (Z.ltb_spec (z mod 4294967296) 2147483648) as [Hlt|Hge];
    Z.div_mod_to_equations; lia.
Qed.

Lemma length_pack (h : _INOTIFY_EVENT) : length (pack h) = _STRUCT_HEADER_LENGTH.
Proof.
  unfold pack. now rewrite !length_app, !length_pack_uint.
Qed.

(** Unpacking inverts packing on headers whose fields are in range. *)
Lemma unpack_pack (h : _INOTIFY_EVENT) :
  - 2 ^ 31 <= wd h < 2 ^ 31 ->
  0 <= mask h < 2 ^ 32 ->
  0 <= cookie h < 2 ^ 32 ->
  0 <= len h < 2 ^ 32 ->
  unpack (pack h) = h.
Proof.
  intros Hwd Hmask Hcookie Hlen. unfold unpack, pack.
  set (a := pack_uint 4 (wd h mod 2 ^ 32)).
  set (b := pack_uint 4 (mask h)).
  set (c := pack_uint 4 (cookie h)).
  set (d := pack_uint 4 (len h)).
  assert (length a = 4%nat /\ length b = 4%nat /\ length c = 4%nat /\ length d = 4%nat)
    as (Ha & Hb & Hc & Hd) by (subst a b c d; now rewrite !length_pack_uint).
  rewrite (take_app_length' a) by congruence.
  rewrite (drop_app_length' a) by congruence.
  rewrite (take_app_length' b) by congruence.
  replace (drop 8 (a ++ b ++ c ++ d)) with (c ++ d).
  2:{ rewrite (app_assoc a b). rewrite drop_app_length'; [reflexivity|].
      rewrite length_app. lia. }
  rewrite (take_app_length' c) by congruence.
  replace (drop 12 (a ++ b ++ c ++ d)) with d.
  2:{ rewrite (app_assoc a b), (app_assoc (a ++ b) c).
      rewrite drop_app_length'; [reflexivity|]. rewrite !length_app. lia. }
  rewrite <- (app_nil_r d), (take_app_length' d) by congruence.
  subst a b c d.
  rewrite unpack_pack_int, !unpack_pack_field by assumption.
  destruct h; reflexivity.
Qed.

Lemma length_encode (r : wire_record) :
  length (encode r) = (_STRUCT_HEADER_LENGTH + length (r_name r))%nat.
Proof.
  unfold encode. now rewrite length_app, length_pack.
Qed.

Lemma length_encode_all (rs : list wire_record) :
  (length rs <= length (encode_all rs))%nat.
Proof.
  induction rs as [|r rs IH]; [simpl; lia|].
  unfold encode_all in *. cbn [map concat length].
  rewrite length_app, length_encode. unfold _STRUCT_HEADER_LENGTH. lia.
Qed.

End WireFormat.

Section DecoderProperties.

Variable env : Env.

Lemma set_buffer_same (s : Inotify) : set_buffer (buffer s) s = s.
Proof. destruct s; reflexivity. Qed.

Section AnyConsumer.

Context {X Q : Type}.
Variable k : consumer X Q event.

(** On a starved buffer the loop stops at once, or raises when the mask
    of the partial record is not in the table; the consumer is not
    called and the object is not touched. *)
Lemma decode_loop_starved (fuel : nat) (x : X) (s : Inotify) :
  starved (buffer s) ->
  decode_loop env k (S fuel) x s =
    (x, s,
     if Z.of_nat (length (buffer s)) <? Z.of_nat _STRUCT_HEADER_LENGTH then Exhausted
     else match _get_event_names env (mask (unpack (take _STRUCT_HEADER_LENGTH (buffer s)))) with
          | Ok _ => Exhausted
          | Raise ex => Raised ex
          end).
Proof.
  intros Hstarved. cbn [decode_loop].
  destruct (Z.ltb_spec (Z.of_nat (length (buffer s))) (Z.of_nat _STRUCT_HEADER_LENGTH))
    as [Hshort|Hlong]; [reflexivity|].
  destruct Hstarved as [Hlt|Hlt]; [lia|].
  destruct (_get_event_names env _); [|reflexivity].
  destruct (Z.ltb_spec (Z.of_nat (length (buffer s)))
              (Z.of_nat _STRUCT_HEADER_LENGTH
               + len (unpack (take _STRUCT_HEADER_LENGTH (buffer s)))));
    [reflexivity|lia].
Qed.

Lemma unpack_uint_nonneg (bs : list byte) : 0 <= unpack_uint bs.
Proof.
  induction bs as [|b bs IH]; simpl; [lia|].
  pose proof (byte_value_range b). lia.
Qed.

(** The bound on the turns is never reached: every turn takes at least a
    header off the buffer, as long as the consumer does not put bytes
    back. *)
Lemma decode_loop_finishes (fuel : nat) (x : X) (s : Inotify) :
  (forall e x s, (length (buffer (snd (fst (k e x s)))) <= length (buffer s))%nat) ->
  (length (buffer s) < fuel)%nat ->
  snd (decode_loop env k fuel x s) <> Unfinished.
Proof.
  intros Hk. revert x s. induction fuel as [|fuel IH]; intros x s Hfuel; [lia|].
  cbn [decode_loop].
  destruct (Z.ltb_spec (Z.of_nat (length (buffer s))) (Z.of_nat _STRUCT_HEADER_LENGTH))
    as [Hshort|Hlong]; [discriminate|].
  destruct (_get_event_names env _) as [type_names|]; [|discriminate].
  set (header := unpack (take _STRUCT_HEADER_LENGTH (buffer s))).
  assert (0 <= len header) as Hlen by apply unpack_uint_nonneg.
  clearbody header.
  destruct (Z.ltb_spec (Z.of_nat (length (buffer s)))
              (Z.of_nat _STRUCT_HEADER_LENGTH + len header)); [discriminate|].
  set (s1 := set_buffer _ s).
  assert (length (buffer s1) < fuel)%nat as Hless.
  { subst s1. cbn [buffer set_buffer]. rewrite length_drop.
    unfold _STRUCT_HEADER_LENGTH in *. clear IH Hk.
    generalize dependent (len header). generalize dependent (length (buffer s)).
    intros; lia. }
  assert (forall x s, (length (buffer s) < fuel)%nat ->
            snd (if Z.of_nat (length (buffer s)) <? Z.of_nat _STRUCT_HEADER_LENGTH
                 then (x, s, Exhausted) else decode_loop env k fuel x s) <> Unfinished)
    as Hresume.
  { intros x0 s0 H0. destruct (_ <? _); [discriminate|]. now apply IH. }
  destruct (watches_r s1 !! wd header) as [path|]; [|now apply Hresume].
  destruct (decode_utf8 _) as [filename_unicode|]; [|discriminate].
  pose proof (Hk (header, type_names, path, filename_unicode) x s1) as Hkeep.
  destruct (k (header, type_names, path, filename_unicode) x s1) as [[x' s2] [q|]];
    [discriminate|].
  apply Hresume. cbn [fst snd] in Hkeep. lia.
Qed.

(** C4 — transactional decoding.  Let [pending] be the retained buffer
    followed by the bytes just read.  If [pending] is shorter than a
    header, the call ends normally, the consumer has received no event and
    the buffer is [pending], nothing taken off.  If [pending] holds a
    header but is shorter than the header length plus the name length the
    header declares, again no event is emitted and the buffer is exactly
    [pending], header included; the call ends normally when the mask of
    the header is in the table (and with the assertion error of
    [_get_event_names] otherwise). *)
Theorem transactional_decoding (b : list byte) (x : X) (s : Inotify) :
  let pending := buffer s ++ b in
  let header := unpack (take _STRUCT_HEADER_LENGTH pending) in
  let r := handle_bytes env k b x s in
  ((length pending < _STRUCT_HEADER_LENGTH)%nat ->
   r = (x, set_buffer pending s, Exhausted)) /\
  ((_STRUCT_HEADER_LENGTH <= length pending)%nat ->
   Z.of_nat (length pending) < Z.of_nat _STRUCT_HEADER_LENGTH + len header ->
   fst r = (x, set_buffer pending s) /\
   (is_Some (MASK_LOOKUP_COMB env !! mask header) -> snd r = Exhausted) /\
   (snd r = Exhausted \/ snd r = Raised (AssertionError (mask header)))).
Proof.
  intros pending header r. subst r. unfold handle_bytes.
  destruct b as [|b0 b].
  - subst pending header. rewrite app_nil_r, set_buffer_same. simpl. auto.
  - set (s1 := set_buffer (buffer s ++ b0 :: b) s).
    assert (buffer s1 = pending) as Hb by reflexivity.
    split.
    + intros Hshort. rewrite decode_loop_starved by (left; now rewrite Hb).
      rewrite Hb. destruct (Z.ltb_spec (Z.of_nat (length pending))
                              (Z.of_nat _STRUCT_HEADER_LENGTH)); [reflexivity|lia].
    + intros Hlong Hpartial.
      rewrite decode_loop_starved by (right; now rewrite Hb).
      rewrite Hb. fold header.
      destruct (Z.ltb_spec (Z.of_nat (length pending))
                  (Z.of_nat _STRUCT_HEADER_LENGTH)); [lia|].
      unfold _get_event_names.
      destruct (MASK_LOOKUP_COMB env !! mask header) as [names|]; simpl.
      * split; [reflexivity|]. split; [reflexivity|]. now left.
      * split; [reflexivity|]. split; [intros [? [=]]|]. now right.
Qed.

End AnyConsumer.

End DecoderProperties.

Lemma transactional_decoding_witness :
  let E := Linux.env Linux.quiet in
  let whole := encode Linux.create_record in
  handle_bytes E (collect (Q := Empty_set)) (take 7 whole) [] Linux.watching_a
  = ([], set_buffer (take 7 whole) Linux.watching_a, Exhausted) /\
  handle_bytes E (collect (Q := Empty_set)) (take 20 whole) [] Linux.watching_a
  = ([], set_buffer (take 20 whole) Linux.watching_a, Exhausted).
Proof.
  intros E whole. split.
  - destruct (transactional_decoding E (collect (Q := Empty_set)) (take 7 whole) []
                Linux.watching_a) as [Hshort _].
    apply Hshort. vm_compute. lia.
  - destruct (transactional_decoding E (collect (Q := Empty_set)) (take 20 whole) []
                Linux.watching_a) as [_ Hpartial].
    destruct Hpartial as (Hfst & Hknown & _); [vm_compute; lia | vm_compute; reflexivity |].
    rewrite (surjective_pairing (handle_bytes _ _ _ _ _)), Hfst, Hknown;
      [reflexivity | vm_compute; eauto].
Defined.

Section DecoderCompleteness.

Variable env : Env.

Lemma take_header_encode (r : wire_record) (rest : list byte) :
  take _STRUCT_HEADER_LENGTH (encode r ++ rest) = pack (wire_header r).
Proof.
  unfold encode. rewrite <- app_assoc.
  apply take_app_length'. now rewrite length_pack.
Qed.

Lemma unpack_wire_header (r : wire_record) :
  well_formed env r -> unpack (pack (wire_header r)) = wire_header r.
Proof.
  intros (Hwd & Hmask & Hcookie & Hlen & _). apply unpack_pack; simpl; try assumption.
  lia.
Qed.

(** One turn of the loop on a buffer that starts with a whole record:
    the record is taken off, and its event, if its watch is registered,
    goes to the consumer, which decides whether the loop resumes. *)
Lemma decode_loop_head {X Q : Type} (k : consumer X Q event) (fuel : nat) (x : X)
    (s : Inotify) (r : wire_record) (rest : list byte) :
  well_formed env r ->
  buffer s = encode r ++ rest ->
  let resume (x : X) (s : Inotify) :=
    if Z.of_nat (length (buffer s)) <? Z.of_nat _STRUCT_HEADER_LENGTH
    then (x, s, Exhausted)
    else decode_loop env k fuel x s in
  decode_loop env k (S fuel) x s =
    match decoded env (watches_r s) r with
    | [] => resume x (set_buffer rest s)
    | e :: _ =>
        match k e x (set_buffer rest s) with
        | (x', s2, Some q) => (x', s2, Abandoned q)
        | (x', s2, None) => resume x' s2
        end
    end.
Proof.
  intros Hwf Hb. pose proof Hwf as (_ & _ & _ & _ & [names Hnames] & Hutf).
  cbn [decode_loop]. rewrite Hb, take_header_encode, unpack_wire_header by assumption.
  rewrite length_app, length_encode.
  destruct (Z.ltb_spec
              (Z.of_nat (_STRUCT_HEADER_LENGTH + length (r_name r) + length rest))
              (Z.of_nat _STRUCT_HEADER_LENGTH)) as [Habs|_]; [lia|].
  unfold _get_event_names. cbn [mask len wd wire_header]. rewrite Hnames.
  destruct (Z.ltb_spec
              (Z.of_nat (_STRUCT_HEADER_LENGTH + length (r_name r) + length rest))
              (Z.of_nat _STRUCT_HEADER_LENGTH + Z.of_nat (length (r_name r))))
    as [Habs|_]; [lia|].
  replace (Z.to_nat (Z.of_nat _STRUCT_HEADER_LENGTH + Z.of_nat (length (r_name r))))
    with (length (encode r)) by (rewrite length_encode; lia).
  rewrite drop_app_length.
  replace (take (length (encode r) - _STRUCT_HEADER_LENGTH)
             (drop _STRUCT_HEADER_LENGTH (encode r ++ rest))) with (r_name r).
  2:{ unfold encode. rewrite <- app_assoc.
      rewrite drop_app_length' by (now rewrite length_pack).
      rewrite length_app, length_pack.
      rewrite take_app_length'; [reflexivity|lia]. }
  cbn [watches_r set_buffer buffer]. unfold decoded. rewrite Hnames.
  destruct (watches_r s !! r_wd r) as [path|]; [|reflexivity].
  unfold decode_utf8. rewrite Hutf. reflexivity.
Qed.

Lemma decode_loop_record (fuel : nat) (acc : list event) (s : Inotify)
    (r : wire_record) (rest : list byte) :
  well_formed env r ->
  buffer s = encode r ++ rest ->
  decode_loop env keep_events (S fuel) acc s =
    if Z.of_nat (length rest) <? Z.of_nat _STRUCT_HEADER_LENGTH
    then (acc ++ decoded env (watches_r s) r, set_buffer rest s, Exhausted)
    else decode_loop env keep_events fuel
           (acc ++ decoded env (watches_r s) r) (set_buffer rest s).
Proof.
  intros Hwf Hb. rewrite (decode_loop_head keep_events fuel acc s r rest Hwf Hb).
  unfold decoded.
  destruct (watches_r s !! r_wd r), (MASK_LOOKUP_COMB env !! r_mask r);
    rewrite ?app_nil_r; reflexivity.
Qed.

Lemma decoded_all_cons (registry : gmap Z string) (r : wire_record)
    (rs : list wire_record) :
  decoded_all env registry (r :: rs)
  = decoded env registry r ++ decoded_all env registry rs.
Proof. reflexivity. Qed.

Lemma decoded_all_app (registry : gmap Z string) (rs1 rs2 : list wire_record) :
  decoded_all env registry (rs1 ++ rs2)
  = decoded_all env registry rs1 ++ decoded_all env registry rs2.
Proof.
  unfold decoded_all. now rewrite map_app, concat_app.
Qed.

Lemma encode_all_cons (r : wire_record) (rs : list wire_record) :
  encode_all (r :: rs) = encode r ++ encode_all rs.
Proof. reflexivity. Qed.

(** The loop takes every whole record off the buffer, in order, and
    leaves a starved rest alone. *)
Lemma decode_loop_records (rs : list wire_record) (fuel : nat) (acc : list event)
    (s : Inotify) (rest : list byte) :
  Forall (well_formed env) rs ->
  (length rest < _STRUCT_HEADER_LENGTH)%nat \/
    (starved rest /\
     is_Some (MASK_LOOKUP_COMB env !! mask (unpack (take _STRUCT_HEADER_LENGTH rest)))) ->
  (length rs < fuel)%nat ->
  buffer s = encode_all rs ++ rest ->
  decode_loop env keep_events fuel acc s =
    (acc ++ decoded_all env (watches_r s) rs, set_buffer rest s, Exhausted).
Proof.
  intros Hwf Hrest. revert fuel acc s.
  induction Hwf as [|r rs Hr Hrs IH]; intros fuel acc s Hfuel Hb.
  - destruct fuel as [|fuel]; [simpl in Hfuel; lia|].
    simpl in Hb.
    assert (starved (buffer s)) as Hstarved
      by (rewrite Hb; destruct Hrest as [?|[? _]]; [left|]; assumption).
    rewrite decode_loop_starved by assumption.
    replace (set_buffer rest s) with s
      by (rewrite <- Hb; symmetry; apply set_buffer_same).
    rewrite Hb. unfold decoded_all. cbn [map concat]. rewrite app_nil_r.
    destruct (Z.ltb_spec (Z.of_nat (length rest)) (Z.of_nat _STRUCT_HEADER_LENGTH));
      [reflexivity|].
    destruct Hrest as [Hshort|[_ [names Hnames]]]; [lia|].
    unfold _get_event_names. now rewrite Hnames.
  - destruct fuel as [|fuel]; [simpl in Hfuel; lia|]. simpl in Hfuel.
    rewrite encode_all_cons, <- app_assoc in Hb.
    rewrite (decode_loop_record fuel acc s r (encode_all rs ++ rest) Hr Hb).
    rewrite decoded_all_cons, app_assoc.
    destruct (Z.ltb_spec (Z.of_nat (length (encode_all rs ++ rest)))
                (Z.of_nat _STRUCT_HEADER_LENGTH)) as [Hshort|Hlong].
    + destruct rs as [|r' rs'].
      * simpl. unfold decoded_all. simpl. now rewrite app_nil_r.
      * exfalso. rewrite encode_all_cons, !length_app, length_encode in Hshort. lia.
    + rewrite (IH fuel _ (set_buffer (encode_all rs ++ rest) s)); [reflexivity|lia|].
      reflexivity.
Qed.

(** What is left of a record whose bytes have not all arrived is a
    starved buffer with a known mask. *)
Lemma partial_record_starved (r : wire_record) (pending tail more : list byte) :
  well_formed env r ->
  pending ++ tail = encode r ++ more ->
  (length pending < length (encode r))%nat ->
  (length pending < _STRUCT_HEADER_LENGTH)%nat \/
    (starved pending /\
     is_Some (MASK_LOOKUP_COMB env
                !! mask (unpack (take _STRUCT_HEADER_LENGTH pending)))).
Proof.
  intros Hwf Heq Hlen.
  destruct (Nat.lt_ge_cases (length pending) _STRUCT_HEADER_LENGTH) as [Hshort|Hlong];
    [now left|right].
  assert (take _STRUCT_HEADER_LENGTH pending = pack (wire_header r)) as Htake.
  { rewrite <- (take_app_le pending tail) by assumption.
    rewrite Heq. apply take_header_encode. }
  unfold starved. rewrite Htake, unpack_wire_header by assumption.
  destruct Hwf as (_ & _ & _ & _ & Hnames & _).
  split; [|exact Hnames].
  right. simpl. rewrite length_encode in Hlen. lia.
Qed.

Lemma prefix_split (rs : list wire_record) (prefix suffix : list byte) :
  prefix ++ suffix = encode_all rs ->
  exists (rs1 rs2 : list wire_record) (pending : list byte),
    rs = rs1 ++ rs2 /\
    prefix = encode_all rs1 ++ pending /\
    pending ++ suffix = encode_all rs2 /\
    cut rs2 pending.
Proof.
  revert prefix. induction rs as [|r rs IH]; intros prefix Heq.
  - apply app_eq_nil in Heq as [-> ->]. exists [], [], []. repeat split.
  - destruct (Nat.lt_ge_cases (length prefix) (length (encode r))) as [Hlt|Hge].
    + exists [], (r :: rs), prefix. repeat split; assumption.
    + rewrite encode_all_cons in Heq.
      assert (exists prefix', prefix = encode r ++ prefix'
                               /\ prefix' ++ suffix = encode_all rs) as (p' & -> & Hp').
      { apply List.app_eq_app in Heq as [l [[-> ->]|[Hr ->]]].
        - exists l. auto.
        - assert (l = []) as ->.
          { apply (f_equal (@length byte)) in Hr. rewrite length_app in Hr.
            destruct l; [reflexivity|cbn [length] in Hr; lia]. }
          rewrite app_nil_r in Hr. subst prefix. exists []. rewrite app_nil_r. auto. }
      destruct (IH p' Hp') as (rs1 & rs2 & pending & -> & -> & Hrest & Hcut).
      exists (r :: rs1), rs2, pending.
      rewrite encode_all_cons, <- app_assoc. repeat split; assumption.
Qed.

Lemma cut_starved (rs : list wire_record) (pending suffix : list byte) :
  Forall (well_formed env) rs ->
  pending ++ suffix = encode_all rs ->
  cut rs pending ->
  (length pending < _STRUCT_HEADER_LENGTH)%nat \/
    (starved pending /\
     is_Some (MASK_LOOKUP_COMB env
                !! mask (unpack (take _STRUCT_HEADER_LENGTH pending)))).
Proof.
  intros Hwf Heq Hcut. destruct Hwf as [|r rs Hr _]; cbn [cut] in Hcut.
  - subst pending. left. unfold _STRUCT_HEADER_LENGTH. simpl. lia.
  - rewrite encode_all_cons in Heq. eapply partial_record_starved; eassumption.
Qed.

(** Feeding chunk after chunk, from a buffer that holds the beginning of
    the records still to come. *)
Lemma feed_chunks (chunks : list (list byte)) (rs : list wire_record)
    (acc : list event) (s : Inotify) :
  Forall (well_formed env) rs ->
  buffer s ++ concat chunks = encode_all rs ->
  cut rs (buffer s) ->
  feed env chunks acc s =
    (acc ++ decoded_all env (watches_r s) rs, set_buffer [] s, Exhausted).
Proof.
  revert rs acc s. induction chunks as [|b chunks IH]; intros rs acc s Hwf Heq Hcut.
  - simpl in Heq. rewrite app_nil_r in Heq.
    destruct rs as [|r rs]; cbn [cut] in Hcut.
    + rewrite <- Hcut, set_buffer_same. unfold decoded_all. simpl.
      now rewrite app_nil_r.
    + exfalso. rewrite Heq, encode_all_cons, length_app in Hcut. lia.
  - cbn [feed]. destruct b as [|b0 b].
    + cbn [handle_bytes]. simpl in Heq. now apply IH.
    + cbn [handle_bytes].
      set (s1 := set_buffer (buffer s ++ b0 :: b) s).
      cbn [concat] in Heq. rewrite app_assoc in Heq.
      destruct (prefix_split rs _ _ Heq) as (rs1 & rs2 & pending & -> & Hp & Hrest & Hcut2).
      apply Forall_app in Hwf as [Hwf1 Hwf2].
      rewrite (decode_loop_records rs1 _ acc s1 pending Hwf1).
      * rewrite (IH rs2 _ (set_buffer pending s1) Hwf2 Hrest Hcut2).
        rewrite decoded_all_app, app_assoc. reflexivity.
      * eapply cut_starved; eassumption.
      * subst s1. cbn [buffer set_buffer]. rewrite Hp, length_app.
        pose proof (length_encode_all rs1). lia.
      * exact Hp.
Qed.

(** C3 — decoder completeness.  Take well-formed records and any way of
    cutting the concatenation of their encodings into chunks, empty
    chunks included.  From an empty buffer, feeding the chunks one call
    after the other yields the same events, in the same order, as feeding
    the concatenation in one call: the events of the records whose watch
    is registered.  In both cases every call ends normally and the buffer
    is empty again at the end. *)
Theorem decoder_completeness (rs : list wire_record) (chunks : list (list byte))
    (s : Inotify) :
  Forall (well_formed env) rs ->
  buffer s = [] ->
  concat chunks = encode_all rs ->
  feed env chunks [] s = feed env [concat chunks] [] s /\
  feed env chunks [] s = (decoded_all env (watches_r s) rs, s, Exhausted).
Proof.
  intros Hwf Hempty Hcat.
  assert (cut rs (buffer s)) as Hcut.
  { rewrite Hempty. destruct rs as [|r rs]; cbn [cut]; [reflexivity|].
    rewrite length_encode. unfold _STRUCT_HEADER_LENGTH. simpl. lia. }
  assert (set_buffer [] s = s) as Hs by (rewrite <- Hempty; apply set_buffer_same).
  rewrite (feed_chunks chunks rs [] s), (feed_chunks [concat chunks] rs [] s);
    try assumption.
  - rewrite Hs. auto.
  - rewrite Hempty. simpl. now rewrite app_nil_r.
  - now rewrite Hempty.
Qed.

End DecoderCompleteness.

Lemma decoder_completeness_witness :
  let E := Linux.env Linux.quiet in
  let whole := encode Linux.create_record ++ encode Linux.unmount_record in
  feed E [take 5 whole; []; drop 5 whole] [] Linux.watching_a
  = ([Linux.create_event; Linux.unmount_event], Linux.watching_a, Exhausted) /\
  feed E [take 5 whole; []; drop 5 whole] [] Linux.watching_a
  = feed E [whole] [] Linux.watching_a.
Proof.
  intros E whole.
  assert (well_formed E Linux.create_record) as Hcreate.
  { repeat split; try (vm_compute; (discriminate || reflexivity)).
    vm_compute. eauto. }
  assert (well_formed E Linux.unmount_record) as Hunmount.
  { repeat split; try (vm_compute; (discriminate || reflexivity)).
    vm_compute. eauto. }
  assert (Forall (well_formed E) [Linux.create_record; Linux.unmount_record]) as Hwf
    by (constructor; [assumption | constructor; [assumption | constructor]]).
  destruct (decoder_completeness E [Linux.create_record; Linux.unmount_record]
              [take 5 whole; []; drop 5 whole] Linux.watching_a Hwf)
    as [Hsame Hall]; [vm_compute; reflexivity ..|].
  split.
  - rewrite Hall. vm_compute. reflexivity.
  - rewrite Hsame. vm_compute. reflexivity.
Defined.

(** ** From a stopping kind to the end of the stream *)

Section StreamEnd.

Variable env : Env.
Variable args : event_gen_args.
Context {Y Q : Type}.
Variable k : consumer Y Q (option event).

(** An iteration in which one descriptor is ready and the bytes read
    complete a record of a registered watch at the head of the buffer.
    When the loop over the kinds of that event stops on the filter, the
    generator returns, with the kind and the event recorded; when it
    stops on a terminal kind, the generator raises.  In both cases the
    caller has received nothing from this iteration. *)
Lemma first_event_ends_stream (n : nat) (x : Z * Y) (s : Inotify) (fd event_type : Z)
    (b0 : byte) (b rest : list byte) (r : wire_record) (path : string)
    (names : list string) :
  let s1 := log (call_poll (get_block_duration s) (Returned [(fd, event_type)])) s in
  let e := (wire_header r, names, path, string_of_list_byte (rstrip_nul (r_name r))) in
  let out := event_gen_loop env args k (S n) x s in
  epoll_poll env (history s) (get_block_duration s) = Returned [(fd, event_type)] ->
  is_Some (MASK_LOOKUP_COMB env !! event_type) ->
  os_read env (history s1) fd 1024 = b0 :: b ->
  buffer s ++ b0 :: b = encode r ++ rest ->
  well_formed env r ->
  MASK_LOOKUP_COMB env !! r_mask r = Some names ->
  watches_r s !! r_wd r = Some path ->
  (forall type_name : string,
     scan_type_names args e names = FilterStop type_name ->
     snd out = Exhausted /\
     fst (fst out) = snd x /\
     last_success_return (snd (fst out)) = Some (type_name, e)) /\
  (forall type_name : string,
     scan_type_names args e names = Terminal type_name ->
     snd out = Raised (TerminalEventException type_name e) /\
     fst (fst out) = snd x).
Proof.
  intros s1 e out Hpoll [polled Hpolled] Hread Hbuf Hwf Hnames Hpath.
  set (s2 := log (call_read fd 1024 (b0 :: b)) s1).
  set (s3 := set_buffer (buffer s ++ b0 :: b) s2).
  set (s4 := set_buffer rest s3).
  assert (_handle_inotify_event env (on_event env args k) fd x s1
          = match on_event env args k e x s4 with
            | (x', s', Some q) => (x', s', Abandoned q)
            | (x', s', None) =>
                if Z.of_nat (length (buffer s')) <? Z.of_nat _STRUCT_HEADER_LENGTH
                then (x', s', Exhausted)
                else decode_loop env (on_event env args k) (length (buffer s3)) x' s'
            end) as Hdecode.
  { unfold _handle_inotify_event. rewrite Hread. fold s2.
    change (handle_bytes env (on_event env args k) (b0 :: b) x s2)
      with (decode_loop env (on_event env args k) (S (length (buffer s3))) x s3).
    rewrite (decode_loop_head env (on_event env args k) _ x s3 r rest Hwf Hbuf).
    unfold decoded. change (watches_r s3) with (watches_r s).
    rewrite Hpath, Hnames. reflexivity. }
  assert (forall stop s',
            on_event env args k e x s4 = ((snd (now env s4), snd x), s', Some stop) ->
            out = (snd x, s', stop)) as Hout.
  { intros stop s' Hstop. subst out. cbn [event_gen_loop].
    unfold event_gen_iteration. rewrite Hpoll. fold s1. cbn [for_polled].
    unfold _get_event_names. rewrite Hpolled, Hdecode, Hstop. reflexivity. }
  split; intros type_name Hscan.
  - rewrite (Hout Exhausted
               (set_last_success_return (Some (type_name, e)) (fst (now env s4)))).
    + auto.
    + unfold on_event. cbn [now fst snd]. unfold e at 1. fold e.
      now rewrite Hscan.
  - rewrite (Hout (Raised (TerminalEventException type_name e)) (fst (now env s4))).
    + auto.
    + unfold on_event. cbn [now fst snd]. unfold e at 1. fold e.
      now rewrite Hscan.
Qed.

End StreamEnd.

(** * Further properties *)

(** ** The registry: round trips, shared descriptors, frames *)

Section MoreRegistry.

Variable env : Env.

(** X1 — adding and removing is a round trip.  When [add_watch] on an
    unwatched path returns a descriptor that was not registered,
    [remove_watch] on that path (with [superficial] other than [None])
    gives back the two dictionaries exactly as they were before the add,
    without raising anything but what the kernel removal raises. *)
Theorem add_then_remove (path : string) (mask wd : Z) (superficial : pyval)
    (s s1 : Inotify) :
  watches_r s !! wd = None ->
  is_None superficial = false ->
  add_watch env path mask s = (s1, Ok (Some wd)) ->
  let s2 := fst (remove_watch env path superficial s1) in
  watches s2 = watches s /\ watches_r s2 = watches_r s.
Proof.
  intros Hfresh Hsup Hadd s2.
  assert (watches s !! path = None /\
          watches s1 = <[path := wd]> (watches s) /\
          watches_r s1 = <[wd := path]> (watches_r s)) as (Hp & Hw1 & Hr1).
  { unfold add_watch in Hadd. destruct (watches s !! path); [discriminate|].
    destruct (encode_utf8 path) as [path_bytes|ex]; [|discriminate].
    destruct (inotify_add_watch env (history s) (inotify_fd s) path_bytes mask);
      [|discriminate].
    injection Hadd as <- <-. auto. }
  assert (watches s1 !! path = Some wd) as Hp1 by (rewrite Hw1; apply lookup_insert_eq).
  assert (is_Some (watches_r s1 !! wd)) as Hwd1
    by (rewrite Hr1, lookup_insert_eq; eauto).
  subst s2. unfold remove_watch. rewrite Hp1.
  rewrite _remove_watch_registered by eauto.
  assert (delete path (watches s1) = watches s) as Hd1
    by (rewrite Hw1; now apply delete_insert_id).
  assert (delete wd (watches_r s1) = watches_r s) as Hd2
    by (rewrite Hr1; now apply delete_insert_id).
  destruct (is_False superficial).
  - match goal with |- context [rm_watch env wd ?t] =>
      destruct (rm_watch_registry env wd t) as (-> & -> & _) end.
    simpl. auto.
  - simpl. auto.
Qed.

(** X2 — two paths with one descriptor.  When two different paths are
    registered with the same descriptor (the kernel returns the
    descriptor of an existing watch for a second path to the same
    directory), removing the first path takes the only reverse entry
    away, and removing the second one then raises [KeyError]: its entry
    in [watches] is deleted, the kernel is not called, and the descriptor
    is no longer known to the registry. *)
Theorem shared_descriptor_removal (p1 p2 : string) (wd : Z) (sup1 sup2 : pyval)
    (s : Inotify) :
  p1 <> p2 ->
  watches s !! p1 = Some wd ->
  watches s !! p2 = Some wd ->
  is_Some (watches_r s !! wd) ->
  is_None sup1 = false ->
  is_None sup2 = false ->
  let s1 := fst (remove_watch env p1 sup1 s) in
  let r2 := remove_watch env p2 sup2 s1 in
  watches_r s1 !! wd = None /\
  snd r2 = Raise KeyError /\
  watches (fst r2) !! p2 = None /\
  history (fst r2) = history s1.
Proof.
  intros Hne H1 H2 Hwd Hsup1 Hsup2 s1 r2.
  assert (watches s1 = delete p1 (watches s) /\ watches_r s1 = delete wd (watches_r s))
    as [Hw1 Hr1].
  { subst s1. unfold remove_watch. rewrite H1.
    rewrite _remove_watch_registered by eauto.
    destruct (is_False sup1); simpl; auto.
    match goal with |- context [rm_watch env wd ?t] =>
      destruct (rm_watch_registry env wd t) as (-> & -> & _) end.
    simpl. auto. }
  assert (watches s1 !! p2 = Some wd) as H2'
    by (rewrite Hw1, lookup_delete_ne by congruence; assumption).
  assert (watches_r s1 !! wd = None) as Hgone by (rewrite Hr1; apply lookup_delete_eq).
  split; [assumption|].
  subst r2. unfold remove_watch. rewrite H2'.
  unfold _remove_watch, bind, del_watches, del_watches_r. rewrite Hsup2. simpl.
  rewrite H2'. simpl. rewrite Hgone. simpl.
  split; [reflexivity|]. split; [apply lookup_delete_eq|reflexivity].
Qed.

(** X3 — removing by path and by descriptor is the same.  On a pair
    that both dictionaries hold, [remove_watch] on the path and
    [remove_watch_with_id] on the descriptor do the same thing, in every
    mode: same object afterwards, same calls to the kernel, same
    outcome. *)
Theorem remove_by_path_or_id (path : string) (wd : Z) (superficial : pyval)
    (s : Inotify) :
  watches s !! path = Some wd ->
  watches_r s !! wd = Some path ->
  remove_watch env path superficial s = remove_watch_with_id env wd superficial s.
Proof.
  intros Hp Hw. unfold remove_watch, remove_watch_with_id. now rewrite Hp, Hw.
Qed.

(** X4 — a refused kernel removal cannot be retried.  When the full
    removal of a registered pair fails in the kernel, the call raises
    [InotifyError] with the entries already deleted; calling
    [remove_watch] or [remove_watch_with_id] again returns normally
    without reaching the kernel, so the kernel watch stays. *)
Theorem refused_removal_is_final (path : string) (wd errno : Z) (s : Inotify) :
  watches s !! path = Some wd ->
  is_Some (watches_r s !! wd) ->
  inotify_rm_watch env (history s) (inotify_fd s) wd = Failed errno ->
  let r := remove_watch env path (PyBool false) s in
  snd r = Raise (InotifyError errno) /\
  watches (fst r) !! path = None /\
  watches_r (fst r) !! wd = None /\
  forall superficial : pyval,
    remove_watch env path superficial (fst r) = (fst r, Ok tt) /\
    remove_watch_with_id env wd superficial (fst r) = (fst r, Ok tt).
Proof.
  intros Hp Hw Hk r.
  assert (r = (log (call_rm_watch (inotify_fd s) wd (Failed errno))
                 (set_watches_r (delete wd) (set_watches (delete path) s)),
               Raise (InotifyError errno))) as Hr.
  { subst r. unfold remove_watch. rewrite Hp.
    rewrite _remove_watch_registered by eauto. simpl.
    unfold rm_watch. simpl. now rewrite Hk. }
  rewrite Hr. simpl. rewrite !lookup_delete_eq.
  split; [reflexivity|]. split; [reflexivity|]. split; [reflexivity|].
  intros superficial. split.
  - apply remove_watch_unknown. simpl. apply lookup_delete_eq.
  - apply remove_watch_with_id_unknown. simpl. apply lookup_delete_eq.
Qed.

(** X5 — when the kernel is asked to remove a watch.  [remove_watch]
    calls [inotify_rm_watch] exactly when [superficial] is the object
    [False] and both entries of the pair are present; it then calls it
    once, on the descriptor of the path.  With any other value, such as
    [True], [None] or the integer [0], or on an unknown path, the log of
    removals is unchanged. *)
Theorem kernel_removal_condition (path : string) (superficial : pyval) (s : Inotify) :
  rm_watch_calls (history (fst (remove_watch env path superficial s))) =
    match watches s !! path with
    | Some wd =>
        if is_False superficial && bool_decide (is_Some (watches_r s !! wd))
        then wd :: rm_watch_calls (history s)
        else rm_watch_calls (history s)
    | None => rm_watch_calls (history s)
    end.
Proof.
  unfold remove_watch. destruct (watches s !! path) as [wd|] eqn:Hp; [|reflexivity].
  assert (bool_decide (is_Some (watches_r s !! wd))
          = match watches_r s !! wd with Some _ => true | None => false end) as ->.
  { destruct (watches_r s !! wd).
    - apply bool_decide_eq_true_2. eauto.
    - apply bool_decide_eq_false_2. intros [? [=]]. }
  unfold _remove_watch, bind, del_watches, del_watches_r, rm_watch.
  destruct superficial as [|[|]|z]; simpl; rewrite ?Hp; simpl;
    destruct (watches_r s !! wd); simpl; try reflexivity;
    destruct (inotify_rm_watch env _ _ wd); reflexivity.
Qed.

Lemma add_watch_frame (path : string) (mask : Z) (s : Inotify) :
  same_frame s (fst (add_watch env path mask s)).
Proof.
  unfold add_watch, same_frame. destruct (watches s !! path); [auto|].
  destruct (encode_utf8 path) as [path_bytes|ex]; [|auto].
  destruct (inotify_add_watch env (history s) (inotify_fd s) path_bytes mask);
    simpl; auto.
Qed.

Lemma _remove_watch_frame (wd : Z) (path : string) (superficial : pyval) (s : Inotify) :
  same_frame s (fst (_remove_watch env wd path superficial s)).
Proof.
  unfold _remove_watch, bind, del_watches, del_watches_r, rm_watch, same_frame.
  destruct (is_None superficial); simpl.
  - destruct (is_False superficial); simpl; auto.
    destruct (inotify_rm_watch env (history s) (inotify_fd s) wd); simpl; auto.
  - destruct (watches s !! path); simpl; auto.
    destruct (watches_r s !! wd); simpl; auto.
    destruct (is_False superficial); simpl; auto.
    destruct (inotify_rm_watch env (history s) (inotify_fd s) wd); simpl; auto.
Qed.

Lemma remove_watch_frame (path : string) (superficial : pyval) (s : Inotify) :
  same_frame s (fst (remove_watch env path superficial s)).
Proof.
  unfold remove_watch. destruct (watches s !! path).
  - apply _remove_watch_frame.
  - unfold same_frame. auto.
Qed.

Lemma remove_watch_with_id_frame (wd : Z) (superficial : pyval) (s : Inotify) :
  same_frame s (fst (remove_watch_with_id env wd superficial s)).
Proof.
  unfold remove_watch_with_id. destruct (watches_r s !! wd).
  - apply _remove_watch_frame.
  - unfold same_frame. auto.
Qed.

Lemma same_frame_trans (a b c : Inotify) : same_frame a b -> same_frame b c -> same_frame a c.
Proof.
  unfold same_frame. intros (? & ? & ? & ?) (? & ? & ? & ?).
  repeat split; congruence.
Qed.

Lemma same_frame_refl (s : Inotify) : same_frame s s.
Proof. unfold same_frame. auto. Qed.

(** X6 — the registry methods keep to the registry.  Whatever sequence
    of [add_watch], [remove_watch] and [remove_watch_with_id] calls is
    made, and whatever they raise, the pending buffer of the decoder, the
    descriptor, the block duration and [last_success_return] are as
    before. *)
Theorem registry_calls_frame (ops : list op) (s : Inotify) :
  same_frame s (run env ops s).
Proof.
  revert s. induction ops as [|o ops IH]; intros s; [apply same_frame_refl|].
  rewrite run_cons. eapply same_frame_trans; [|apply IH].
  destruct o; simpl;
    auto using add_watch_frame, remove_watch_frame, remove_watch_with_id_frame.
Qed.

End MoreRegistry.

Lemma add_then_remove_witness :
  let E := Linux.env Linux.quiet in
  let s1 := fst (add_watch E "/a/d" 0xfff Linux.watching_a) in
  let s2 := fst (remove_watch E "/a/d" (PyBool false) s1) in
  watches s2 = watches Linux.watching_a /\ watches_r s2 = watches_r Linux.watching_a.
Proof.
  intros E s1 s2.
  apply (add_then_remove E "/a/d" 0xfff 2 (PyBool false) Linux.watching_a s1);
    vm_compute; reflexivity.
Defined.

Lemma shared_descriptor_removal_witness :
  let E := Scenario.same_wd in
  let s := run E [Add "/a" 0xfff; Add "/a/" 0xfff]%string Linux.fresh in
  let s1 := fst (remove_watch E "/a" (PyBool true) s) in
  watches_r s1 !! 1 = None /\
  snd (remove_watch E "/a/" (PyBool true) s1) = Raise KeyError.
Proof.
  intros E s s1.
  destruct (shared_descriptor_removal E "/a" "/a/" 1 (PyBool true) (PyBool true) s)
    as (Hgone & Hraise & _);
    [discriminate | vm_compute; reflexivity | vm_compute; reflexivity
    | vm_compute; eauto | reflexivity | reflexivity |].
  exact (conj Hgone Hraise).
Defined.

Lemma remove_by_path_or_id_witness :
  let E := Linux.env Linux.quiet in
  remove_watch E "/a/d" (PyBool false) Linux.watching_a_d
  = remove_watch_with_id E 2 (PyBool false) Linux.watching_a_d.
Proof.
  intros E.
  apply (remove_by_path_or_id E "/a/d" 2 (PyBool false) Linux.watching_a_d);
    vm_compute; reflexivity.
Defined.

Lemma refused_removal_is_final_witness :
  let E := Linux.env Linux.vanished in
  let r := remove_watch E "/a/d" (PyBool false) Linux.watching_a_d in
  snd r = Raise (InotifyError 22) /\
  remove_watch E "/a/d" (PyBool false) (fst r) = (fst r, Ok tt).
Proof.
  intros E r.
  destruct (refused_removal_is_final E "/a/d" 2 22 Linux.watching_a_d)
    as (Hraise & _ & _ & Hretry);
    [vm_compute; reflexivity | vm_compute; eauto | vm_compute; reflexivity |].
  exact (conj Hraise (proj1 (Hretry (PyBool false)))).
Defined.

(** ** Registering a list of paths *)

Section AddWatches.

Variable env : Env.

Lemma add_watch_keeps (path p : string) (mask wd : Z) (s : Inotify) :
  watches s !! p = Some wd ->
  watches (fst (add_watch env path mask s)) !! p = Some wd.
Proof.
  intros Hp. unfold add_watch. destruct (watches s !! path) eqn:Hpath; [assumption|].
  destruct (encode_utf8 path) as [path_bytes|ex]; [|assumption].
  destruct (inotify_add_watch env (history s) (inotify_fd s) path_bytes mask);
    simpl; [|assumption].
  rewrite lookup_insert_ne by congruence. assumption.
Qed.

Lemma add_watches_keeps (paths : list string) (mask : Z) (p : string) (wd : Z)
    (s : Inotify) :
  watches s !! p = Some wd ->
  watches (fst (add_watches env paths mask s)) !! p = Some wd.
Proof.
  revert s. induction paths as [|path paths IH]; intros s Hp; [assumption|].
  cbn [add_watches]. unfold bind.
  pose proof (add_watch_keeps path p mask wd s Hp) as H1.
  destruct (add_watch env path mask s) as [s1 [a|ex]]; simpl in *; auto.
Qed.

Lemma add_watches_fd (paths : list string) (mask : Z) (s : Inotify) :
  inotify_fd (fst (add_watches env paths mask s)) = inotify_fd s.
Proof.
  revert s. induction paths as [|path paths IH]; intros s; [reflexivity|].
  cbn [add_watches]. unfold bind.
  pose proof (add_watch_frame env path mask s) as (_ & _ & Hfd & _).
  destruct (add_watch env path mask s) as [s1 [a|ex]]; simpl in *; [|assumption].
  now rewrite IH.
Qed.

Lemma encode_utf8_raises (p : string) (ex : exn) :
  encode_utf8 p = Raise ex -> ex = UnicodeEncodeError.
Proof.
  unfold encode_utf8. destruct (utf8_valid (list_byte_of_string p)); congruence.
Qed.

(** A call that raises: the path was not watched, and either it has no
    encoding, or the kernel refused it. *)
Lemma add_watch_raises (path : string) (mask : Z) (s s' : Inotify) (ex : exn) :
  add_watch env path mask s = (s', Raise ex) ->
  watches s !! path = None /\
  watches s' = watches s /\
  match encode_utf8 path with
  | Raise _ => ex = UnicodeEncodeError /\ s' = s
  | Ok path_bytes =>
      exists errno : Z,
        ex = InotifyError errno /\
        s' = log (call_add_watch (inotify_fd s) path_bytes mask (Failed errno)) s
  end.
Proof.
  unfold add_watch. destruct (watches s !! path) eqn:Hp; [discriminate|].
  destruct (encode_utf8 path) as [path_bytes|ex'] eqn:Henc.
  - destruct (inotify_add_watch env (history s) (inotify_fd s) path_bytes mask)
      as [wd|errno] eqn:Hk; [discriminate|].
    intros [= <- <-]. eauto.
  - intros [= <- <-]. apply encode_utf8_raises in Henc. auto.
Qed.

Lemma add_watch_registers (path : string) (mask : Z) (s s' : Inotify) (a : option Z) :
  add_watch env path mask s = (s', Ok a) -> is_Some (watches s' !! path).
Proof.
  unfold add_watch. destruct (watches s !! path) eqn:Hp.
  - intros [= <- _]. rewrite Hp. eauto.
  - destruct (encode_utf8 path) as [path_bytes|ex]; [|discriminate].
    destruct (inotify_add_watch env _ _ _ _); [|discriminate].
    intros [= <- _]. simpl. rewrite lookup_insert_eq. eauto.
Qed.

Lemma add_watches_result (paths : list string) (mask : Z) (s s' : Inotify)
    (r : result unit) :
  add_watches env paths mask s = (s', r) ->
  (forall (p : string) (wd : Z), watches s !! p = Some wd -> watches s' !! p = Some wd) /\
  match r with
  | Ok _ => forall p : string, In p paths -> is_Some (watches s' !! p)
  | Raise ex =>
      exists (done : list string) (p : string) (rest : list string) (sd : Inotify),
        paths = done ++ p :: rest /\
        add_watches env done mask s = (sd, Ok tt) /\
        (forall q : string, In q done -> is_Some (watches s' !! q)) /\
        watches s' !! p = None /\
        match encode_utf8 p with
        | Raise _ => ex = UnicodeEncodeError /\ s' = sd
        | Ok path_bytes =>
            exists errno : Z,
              ex = InotifyError errno /\
              s' = log (call_add_watch (inotify_fd s) path_bytes mask (Failed errno)) sd
        end
  end.
Proof.
  intros Hrun. split.
  { intros p wd Hp. pose proof (add_watches_keeps paths mask p wd s Hp) as H.
    now rewrite Hrun in H. }
  revert s s' r Hrun. induction paths as [|path paths IH]; intros s s' r Hrun.
  - injection Hrun as <- <-. intros p [].
  - cbn [add_watches] in Hrun. unfold bind in Hrun.
    destruct (add_watch env path mask s) as [s1 [a|ex]] eqn:Hadd.
    + pose proof (add_watch_registers _ _ _ _ _ Hadd) as Hpath.
      assert (inotify_fd s1 = inotify_fd s) as Hfd.
      { pose proof (add_watch_frame env path mask s) as (_ & _ & H & _).
        now rewrite Hadd in H. }
      assert (forall q, is_Some (watches s1 !! q) -> is_Some (watches s' !! q)) as Hmono.
      { intros q [wd Hq]. exists wd.
        pose proof (add_watches_keeps paths mask q wd s1 Hq) as H.
        now rewrite Hrun in H. }
      specialize (IH s1 s' r Hrun). destruct r as [[]|ex].
      * intros p [<-|Hin]; auto.
      * destruct IH as (done & p & rest & sd & -> & Hdone_run & Hdone & Hp & Hex).
        exists (path :: done), p, rest, sd.
        split; [reflexivity|]. split.
        { cbn [add_watches]. unfold bind. now rewrite Hadd. }
        split; [intros q [<-|Hin]; auto|]. split; [assumption|].
        now rewrite <- Hfd.
    + injection Hrun as <- <-.
      destruct (add_watch_raises _ _ _ _ _ Hadd) as (Hp & Hw & Hex).
      exists [], path, paths, s.
      split; [reflexivity|]. split; [reflexivity|].
      split; [intros q []|]. split; [now rewrite Hw|]. exact Hex.
Qed.

(** X7 — registering a list of paths, as the constructor and the
    loaders do.  Watches that existed before stay as they were.  When
    the loop returns, every path of the list is registered, repeated
    paths included.  When it raises, it has stopped at the first path
    that could not be registered: the paths before it were registered
    without an error, the path itself is not registered, and no later
    path was tried.  Either that path has no encoding (a str that holds a
    surrogate), and [UnicodeEncodeError] is raised before the kernel is
    called for it; or the kernel refused it, and [InotifyError] is
    raised with the refusal as the last call made. *)
Theorem add_watches_outcome (paths : list string) (mask : Z) (s s' : Inotify)
    (r : result unit) :
  add_watches env paths mask s = (s', r) ->
  (forall (p : string) (wd : Z), watches s !! p = Some wd -> watches s' !! p = Some wd) /\
  match r with
  | Ok _ => forall p : string, In p paths -> is_Some (watches s' !! p)
  | Raise ex =>
      exists (done : list string) (p : string) (rest : list string) (sd : Inotify),
        paths = done ++ p :: rest /\
        add_watches env done mask s = (sd, Ok tt) /\
        (forall q : string, In q done -> is_Some (watches s' !! q)) /\
        watches s' !! p = None /\
        match encode_utf8 p with
        | Raise _ => ex = UnicodeEncodeError /\ s' = sd
        | Ok path_bytes =>
            exists errno : Z,
              ex = InotifyError errno /\
              s' = log (call_add_watch (inotify_fd s) path_bytes mask (Failed errno)) sd
        end
  end.
Proof. exact (add_watches_result paths mask s s' r). Qed.

End AddWatches.

Lemma add_watches_outcome_witness :
  let good := Inotify_init (Linux.env Linux.quiet) 3 0xfff ["/a"; "/b"; "/a"]%string
                (Scalar 1) in
  let bad := Inotify_init Scenario.no_watch 3 0xfff ["/a"; "/b"]%string (Scalar 1) in
  let odd := Inotify_init (Linux.env Linux.quiet) 3 0xfff
               ["/a"%string; Scenario.surrogate_name; "/b"%string] (Scalar 1) in
  (is_Some (watches (fst good) !! "/a"%string) /\
   is_Some (watches (fst good) !! "/b"%string)) /\
  (exists errno : Z, snd bad = Raise (InotifyError errno)) /\
  (snd odd = Raise UnicodeEncodeError /\
   is_Some (watches (fst odd) !! "/a"%string) /\ watches (fst odd) !! "/b"%string = None).
Proof.
  intros good bad odd. split; [|split].
  - destruct (add_watches_outcome (Linux.env Linux.quiet) ["/a"; "/b"; "/a"]%string 0xfff
                (new_Inotify 3 (Scalar 1)) (fst good) (Ok tt)) as [_ Hall];
      [vm_compute; reflexivity|].
    split; apply Hall; [now left|right; now left].
  - destruct (add_watches_outcome Scenario.no_watch ["/a"; "/b"]%string 0xfff
                (new_Inotify 3 (Scalar 1)) (fst bad) (snd bad)) as [_ Hbad];
      [vm_compute; reflexivity|].
    assert (snd bad = Raise (InotifyError 2)) as Hsnd by (vm_compute; reflexivity).
    exists 2. exact Hsnd.
  - destruct (add_watches_outcome (Linux.env Linux.quiet)
                ["/a"%string; Scenario.surrogate_name; "/b"%string] 0xfff
                (new_Inotify 3 (Scalar 1)) (fst odd) (snd odd)) as [_ Hodd];
      [vm_compute; reflexivity|].
    split; [vm_compute; reflexivity|].
    split; [vm_compute; eauto|vm_compute; reflexivity].
Defined.

(** ** The decoder: headers, names, records it cannot deliver *)

Section MoreWireFormat.

Lemma byte_of_Z_value (b : byte) : byte_of_Z (byte_value b) = b.
Proof.
  pose proof (byte_value_range b) as Hb.
  unfold byte_of_Z. rewrite Z.mod_small by lia.
  unfold byte_value. rewrite N2Z.id. now rewrite Byte.of_to_N.
Qed.

Lemma byte_of_Z_mod (z : Z) : byte_of_Z (z mod 256) = byte_of_Z z.
Proof.
  unfold byte_of_Z. now rewrite Z.mod_mod by lia.
Qed.

Lemma unpack_uint_bound (bs : list byte) :
  0 <= unpack_uint bs < 256 ^ Z.of_nat (length bs).
Proof.
  induction bs as [|b bs IH].
  - simpl. lia.
  - cbn [unpack_uint length]. rewrite Nat2Z.inj_succ, Z.pow_succ_r by lia.
    pose proof (byte_value_range b). lia.
Qed.

Lemma pack_unpack_uint (bs : list byte) :
  pack_uint (length bs) (unpack_uint bs) = bs.
Proof.
  induction bs as [|b bs IH]; [reflexivity|].
  pose proof (byte_value_range b) as Hb.
  cbn [unpack_uint length pack_uint]. f_equal.
  - rewrite <- byte_of_Z_mod.
    replace ((byte_value b + 256 * unpack_uint bs) mod 256) with (byte_value b).
    + apply byte_of_Z_value.
    + generalize (unpack_uint bs) (byte_value b) Hb. intros u v Hv.
      Z.div_mod_to_equations. lia.
  - replace ((byte_value b + 256 * unpack_uint bs) / 256) with (unpack_uint bs);
      [assumption|].
    generalize (unpack_uint bs) (byte_value b) Hb. intros u v Hv.
    Z.div_mod_to_equations. lia.
Qed.

Lemma pack_unpack_field (bs : list byte) :
  length bs = 4%nat -> pack_uint 4 (unpack_uint bs) = bs.
Proof.
  intros Hlen. rewrite <- Hlen. apply pack_unpack_uint.
Qed.

Lemma unpack_int_range (bs : list byte) :
  length bs = 4%nat -> - 2 ^ 31 <= unpack_int bs < 2 ^ 31.
Proof.
  intros Hlen. pose proof (unpack_uint_bound bs) as Hu. rewrite Hlen in Hu.
  change (256 ^ Z.of_nat 4) with 4294967296 in Hu.
  unfold unpack_int. change (2 ^ 31) with 2147483648. change (2 ^ 32) with 4294967296.
  destruct (Z.ltb_spec (unpack_uint bs) 2147483648); lia.
Qed.

Lemma unpack_int_mod (bs : list byte) :
  length bs = 4%nat -> unpack_int bs mod 2 ^ 32 = unpack_uint bs.
Proof.
  intros Hlen. pose proof (unpack_uint_bound bs) as Hu. rewrite Hlen in Hu.
  change (256 ^ Z.of_nat 4) with 4294967296 in Hu.
  unfold unpack_int. change (2 ^ 31) with 2147483648. change (2 ^ 32) with 4294967296.
  destruct (Z.ltb_spec (unpack_uint bs) 2147483648).
  - apply Z.mod_small. lia.
  - replace (unpack_uint bs - 4294967296) with (unpack_uint bs + (-1) * 4294967296) by lia.
    rewrite Z.mod_add by lia. apply Z.mod_small. lia.
Qed.

(** X8 — the header format is a bijection.  [struct.unpack] with the
    format [iIII] turns any sixteen bytes into a header whose descriptor
    is a signed and whose mask, cookie and name length are unsigned 32-bit
    numbers (the name length in particular is never negative), and loses
    nothing: packing the header again gives the same sixteen bytes, and
    unpacking the packing of a header with fields in range gives the same
    header. *)
Theorem header_bijection :
  (forall peek_slice : list byte,
     length peek_slice = _STRUCT_HEADER_LENGTH ->
     header_in_range (unpack peek_slice) /\ pack (unpack peek_slice) = peek_slice) /\
  (forall h : _INOTIFY_EVENT,
     header_in_range h ->
     length (pack h) = _STRUCT_HEADER_LENGTH /\ unpack (pack h) = h).
Proof.
  split.
  - intros bs Hlen.
    assert (exists a b c d : list byte,
              bs = a ++ b ++ c ++ d /\ length a = 4%nat /\ length b = 4%nat /\
              length c = 4%nat /\ length d = 4%nat) as (a & b & c & d & -> & Ha & Hb & Hc & Hd).
    { exists (take 4 bs), (take 4 (drop 4 bs)), (take 4 (drop 8 bs)), (drop 12 bs).
      unfold _STRUCT_HEADER_LENGTH in Hlen.
      rewrite !length_take, !length_drop, Hlen.
      repeat split; try reflexivity.
      rewrite <- (take_drop 4 bs) at 1. f_equal.
      rewrite <- (take_drop 4 (drop 4 bs)) at 1. f_equal.
      rewrite drop_drop. change (4 + 4)%nat with 8%nat.
      rewrite <- (take_drop 4 (drop 8 bs)) at 1. f_equal.
      now rewrite drop_drop. }
    assert (unpack (a ++ b ++ c ++ d)
            = {| wd := unpack_int a; mask := unpack_uint b;
                 cookie := unpack_uint c; len := unpack_uint d |}) as ->.
    { unfold unpack.
      rewrite (take_app_length' a) by congruence.
      rewrite (drop_app_length' a) by congruence.
      rewrite (take_app_length' b) by congruence.
      replace (drop 8 (a ++ b ++ c ++ d)) with (c ++ d).
      2:{ rewrite (app_assoc a b). rewrite drop_app_length'; [reflexivity|].
          rewrite length_app. lia. }
      rewrite (take_app_length' c) by congruence.
      replace (drop 12 (a ++ b ++ c ++ d)) with d.
      2:{ rewrite (app_assoc a b), (app_assoc (a ++ b) c).
          rewrite drop_app_length'; [reflexivity|]. rewrite !length_app. lia. }
      rewrite <- (app_nil_r d) at 1. rewrite (take_app_length' d) by congruence.
      reflexivity. }
    pose proof (unpack_uint_bound b) as Hub. pose proof (unpack_uint_bound c) as Huc.
    pose proof (unpack_uint_bound d) as Hud. rewrite Hb in Hub. rewrite Hc in Huc.
    rewrite Hd in Hud. change (256 ^ Z.of_nat 4) with (2 ^ 32) in *.
    split.
    + unfold header_in_range. simpl. auto using unpack_int_range.
    + unfold pack. cbn [wd mask cookie len]. rewrite unpack_int_mod by assumption.
      now rewrite !pack_unpack_field by assumption.
  - intros h (Hwd & Hmask & Hcookie & Hlen).
    split; [apply length_pack | now apply unpack_pack].
Qed.

Lemma rstrip_nul_zeros (n : nat) : rstrip_nul (repeat x00 n) = [].
Proof.
  induction n as [|n IH]; [reflexivity|].
  unfold rstrip_nul in *. cbn [repeat fold_right]. now rewrite IH.
Qed.

Lemma rstrip_nul_cons (b : byte) (l : list byte) :
  rstrip_nul (b :: l) =
    match rstrip_nul l with
    | [] => if Byte.eqb b x00 then [] else [b]
    | _ => b :: rstrip_nul l
    end.
Proof. reflexivity. Qed.

(** The padding does not change what is left after stripping. *)
Lemma rstrip_nul_padding (name : list byte) (n : nat) :
  rstrip_nul (name ++ repeat x00 n) = rstrip_nul name.
Proof.
  induction name as [|b name IH].
  - apply rstrip_nul_zeros.
  - rewrite <- app_comm_cons, !rstrip_nul_cons, IH. reflexivity.
Qed.

End MoreWireFormat.

Section MoreDecoder.

Variable env : Env.

(** One turn of the loop on a buffer that starts with the bytes of a
    record, whatever its mask and its name are. *)
Lemma decode_loop_first {X Q : Type} (k : consumer X Q event) (fuel : nat) (x : X)
    (s : Inotify) (r : wire_record) (rest : list byte) :
  in_range r ->
  buffer s = encode r ++ rest ->
  let resume (x : X) (s : Inotify) :=
    if Z.of_nat (length (buffer s)) <? Z.of_nat _STRUCT_HEADER_LENGTH
    then (x, s, Exhausted)
    else decode_loop env k fuel x s in
  decode_loop env k (S fuel) x s =
    match MASK_LOOKUP_COMB env !! r_mask r with
    | None => (x, s, Raised (AssertionError (r_mask r)))
    | Some type_names =>
        match watches_r s !! r_wd r with
        | None => resume x (set_buffer rest s)
        | Some path =>
            if utf8_valid (rstrip_nul (r_name r))
            then
              match k (wire_header r, type_names, path,
                       string_of_list_byte (rstrip_nul (r_name r))) x (set_buffer rest s) with
              | (x', s2, Some q) => (x', s2, Abandoned q)
              | (x', s2, None) => resume x' s2
              end
            else (x, set_buffer rest s, Raised UnicodeDecodeError)
        end
    end.
Proof.
  intros (Hwd & Hmask & Hcookie & Hlen) Hb.
  assert (unpack (pack (wire_header r)) = wire_header r) as Hunpack
    by (apply unpack_pack; simpl; try assumption; lia).
  cbn [decode_loop]. rewrite Hb, take_header_encode, Hunpack.
  rewrite length_app, length_encode.
  destruct (Z.ltb_spec
              (Z.of_nat (_STRUCT_HEADER_LENGTH + length (r_name r) + length rest))
              (Z.of_nat _STRUCT_HEADER_LENGTH)) as [Habs|_]; [lia|].
  unfold _get_event_names. cbn [mask len wd wire_header].
  destruct (MASK_LOOKUP_COMB env !! r_mask r) as [type_names|]; [|reflexivity].
  destruct (Z.ltb_spec
              (Z.of_nat (_STRUCT_HEADER_LENGTH + length (r_name r) + length rest))
              (Z.of_nat _STRUCT_HEADER_LENGTH + Z.of_nat (length (r_name r))))
    as [Habs|_]; [lia|].
  replace (Z.to_nat (Z.of_nat _STRUCT_HEADER_LENGTH + Z.of_nat (length (r_name r))))
    with (length (encode r)) by (rewrite length_encode; lia).
  rewrite drop_app_length.
  replace (take (length (encode r) - _STRUCT_HEADER_LENGTH)
             (drop _STRUCT_HEADER_LENGTH (encode r ++ rest))) with (r_name r).
  2:{ unfold encode. rewrite <- app_assoc.
      rewrite drop_app_length' by (now rewrite length_pack).
      rewrite length_app, length_pack.
      rewrite take_app_length'; [reflexivity|lia]. }
  cbn [watches_r set_buffer buffer].
  destruct (watches_r s !! r_wd r) as [path|]; [|reflexivity].
  unfold decode_utf8. destruct (utf8_valid (rstrip_nul (r_name r))); reflexivity.
Qed.

Lemma encode_not_nil (r : wire_record) (rest : list byte) : encode r ++ rest <> [].
Proof.
  intros H. apply (f_equal (@length byte)) in H.
  rewrite length_app, length_encode in H. unfold _STRUCT_HEADER_LENGTH in H.
  simpl in H. lia.
Qed.

Lemma handle_bytes_not_nil {X Q : Type} (k : consumer X Q event) (b : list byte)
    (x : X) (s : Inotify) :
  b <> [] ->
  handle_bytes env k b x s =
    decode_loop env k (S (length (buffer s ++ b))) x (set_buffer (buffer s ++ b) s).
Proof.
  intros Hb. destruct b; [contradiction|reflexivity].
Qed.

(** X9 — the padding of a name is stripped.  A record whose name field
    is a name followed by any number of NUL bytes, for a registered
    watch, is delivered as one event whose filename is the name: the
    header reports the padded length, the filename is without padding.
    The name is UTF-8 and does not itself end in a NUL byte. *)
Theorem padded_name_decoded (r : wire_record) (name : list byte) (padding : nat)
    (path : string) (type_names : list string) (s : Inotify) :
  in_range r ->
  r_name r = name ++ repeat x00 padding ->
  rstrip_nul name = name ->
  utf8_valid name = true ->
  MASK_LOOKUP_COMB env !! r_mask r = Some type_names ->
  watches_r s !! r_wd r = Some path ->
  buffer s = [] ->
  handle_bytes env keep_events (encode r) [] s =
    ([(wire_header r, type_names, path, string_of_list_byte name)], s, Exhausted) /\
  len (wire_header r) = Z.of_nat (length name + padding).
Proof.
  intros Hrange Hname Hstrip Hutf Hmask Hpath Hempty.
  assert (rstrip_nul (r_name r) = name) as Hr
    by (rewrite Hname, rstrip_nul_padding; assumption).
  split.
  - rewrite handle_bytes_not_nil by (rewrite <- (app_nil_r (encode r)); apply encode_not_nil).
    rewrite (decode_loop_first keep_events _ [] _ r []); [|assumption|].
    2:{ cbn [buffer set_buffer]. now rewrite Hempty, app_nil_r. }
    cbn [watches_r set_buffer buffer]. rewrite Hmask, Hpath, Hr, Hutf.
    unfold keep_events, collect. cbn [buffer set_buffer length app].
    destruct s; cbn in Hempty; subst; reflexivity.
  - simpl. now rewrite Hname, length_app, repeat_length.
Qed.

(** X10 — an event for an unknown watch is dropped.  When the bytes read
    complete a record whose descriptor is not in the registry (its watch
    was removed), the record is taken off the buffer and nothing is
    delivered: whatever the consumer is, it is not called for this
    record, and if the record ends the buffer the call returns
    normally with an empty buffer.  The name is not decoded, so its
    bytes need not be UTF-8. *)
Theorem unknown_watch_dropped {X Q : Type} (k : consumer X Q event) (r : wire_record)
    (b rest : list byte) (x : X) (s : Inotify) :
  in_range r ->
  b <> [] ->
  buffer s ++ b = encode r ++ rest ->
  is_Some (MASK_LOOKUP_COMB env !! r_mask r) ->
  watches_r s !! r_wd r = None ->
  handle_bytes env k b x s =
    (if Z.of_nat (length rest) <? Z.of_nat _STRUCT_HEADER_LENGTH
     then (x, set_buffer rest s, Exhausted)
     else decode_loop env k (length (buffer s ++ b)) x (set_buffer rest s)) /\
  (rest = [] -> handle_bytes env k b x s = (x, set_buffer [] s, Exhausted)).
Proof.
  intros Hrange Hb Hbuf [names Hnames] Hwd.
  assert (handle_bytes env k b x s =
          if Z.of_nat (length rest) <? Z.of_nat _STRUCT_HEADER_LENGTH
          then (x, set_buffer rest s, Exhausted)
          else decode_loop env k (length (buffer s ++ b)) x (set_buffer rest s)) as H.
  { rewrite handle_bytes_not_nil by assumption.
    rewrite (decode_loop_first k _ x (set_buffer (buffer s ++ b) s) r rest Hrange Hbuf).
    cbn [watches_r set_buffer buffer]. now rewrite Hnames, Hwd. }
  split; [exact H|]. intros ->. rewrite H. reflexivity.
Qed.

(** X11 — a mask the table does not know blocks the decoder.  When the
    sixteen bytes at the head of the buffer carry a mask that is not a
    key of [MASK_LOOKUP_COMB], the call raises [AssertionError] and takes
    nothing off the buffer, whether or not the record is complete.  The
    header therefore stays at the head, and every later call that reads
    bytes raises the same error again, without delivering anything. *)
Theorem unknown_mask_blocks {X Q : Type} (k : consumer X Q event) (b : list byte)
    (x : X) (s : Inotify) :
  let pending := buffer s ++ b in
  let event_type := mask (unpack (take _STRUCT_HEADER_LENGTH pending)) in
  b <> [] ->
  (_STRUCT_HEADER_LENGTH <= length pending)%nat ->
  MASK_LOOKUP_COMB env !! event_type = None ->
  handle_bytes env k b x s = (x, set_buffer pending s, Raised (AssertionError event_type)) /\
  forall (k' : consumer X Q event) (b' : list byte) (x' : X),
    b' <> [] ->
    handle_bytes env k' b' x' (set_buffer pending s) =
      (x', set_buffer (pending ++ b') s, Raised (AssertionError event_type)).
Proof.
  intros pending event_type Hb Hlen Hmask.
  assert (forall (k0 : consumer X Q event) (x0 : X) (more : list byte) (fuel : nat),
            decode_loop env k0 (S fuel) x0 (set_buffer (pending ++ more) s)
            = (x0, set_buffer (pending ++ more) s, Raised (AssertionError event_type)))
    as Hloop.
  { intros k0 x0 more fuel. cbn [decode_loop buffer set_buffer].
    rewrite length_app.
    destruct (Z.ltb_spec (Z.of_nat (length pending + length more))
                (Z.of_nat _STRUCT_HEADER_LENGTH)); [lia|].
    rewrite take_app_le by assumption. fold event_type.
    unfold _get_event_names. now rewrite Hmask. }
  split.
  - rewrite handle_bytes_not_nil by assumption. fold pending.
    specialize (Hloop k x [] (length pending)). now rewrite app_nil_r in Hloop.
  - intros k' b' x' Hb'. rewrite handle_bytes_not_nil by assumption.
    cbn [buffer set_buffer]. apply Hloop.
Qed.

(** X12 — a name that is not UTF-8 costs its record.  When the bytes
    read complete a record of a registered watch whose name, once the
    padding is stripped, is not valid UTF-8, the call raises
    [UnicodeDecodeError] after the record has been taken off the buffer:
    the consumer is not called, the event is lost, and the next call
    starts with the bytes that followed the record. *)
Theorem invalid_name_consumed {X Q : Type} (k : consumer X Q event) (r : wire_record)
    (b rest : list byte) (path : string) (x : X) (s : Inotify) :
  in_range r ->
  b <> [] ->
  buffer s ++ b = encode r ++ rest ->
  is_Some (MASK_LOOKUP_COMB env !! r_mask r) ->
  watches_r s !! r_wd r = Some path ->
  utf8_valid (rstrip_nul (r_name r)) = false ->
  handle_bytes env k b x s = (x, set_buffer rest s, Raised UnicodeDecodeError).
Proof.
  intros Hrange Hb Hbuf [names Hnames] Hwd Hutf.
  rewrite handle_bytes_not_nil by assumption.
  rewrite (decode_loop_first k _ x (set_buffer (buffer s ++ b) s) r rest Hrange Hbuf).
  cbn [watches_r set_buffer buffer]. now rewrite Hnames, Hwd, Hutf.
Qed.

End MoreDecoder.

(** ** The decoder under its consumers *)

Section DecoderAndConsumers.

Variable env : Env.

Lemma decode_loop_stop_from_consumer {X Q : Type} (k : consumer X Q event) (bad : Q)
    (fuel : nat) (x : X) (s : Inotify) :
  (forall e x s, snd (k e x s) <> Some bad) ->
  snd (decode_loop env k fuel x s) <> Abandoned bad.
Proof.
  intros Hk. revert x s. induction fuel as [|fuel IH]; intros x s; [discriminate|].
  cbn [decode_loop].
  destruct (_ <? _); [discriminate|].
  destruct (_get_event_names env _) as [type_names|]; [|discriminate].
  destruct (_ <? _); [discriminate|].
  destruct (watches_r _ !! _) as [path|].
  - destruct (decode_utf8 _) as [filename_unicode|]; [|discriminate].
    match goal with |- context [k ?e x ?t] =>
      pose proof (Hk e x t) as Hstop; destruct (k e x t) as [[x' s2] [q|]] end.
    + simpl in *. congruence.
    + destruct (_ <? _); [discriminate|apply IH].
  - simpl. destruct (_ <? _); [discriminate|apply IH].
Qed.

Lemma decode_loop_suffix {X Q : Type} (k : consumer X Q event) (fuel : nat) (x : X)
    (s : Inotify) :
  keeps_buffer k ->
  exists consumed : list byte,
    buffer s = consumed ++ buffer (snd (fst (decode_loop env k fuel x s))).
Proof.
  intros Hk. revert x s. induction fuel as [|fuel IH]; intros x s; [now exists []|].
  cbn [decode_loop].
  destruct (_ <? _); [now exists []|].
  destruct (_get_event_names env _) as [type_names|]; [|now exists []].
  destruct (_ <? _); [now exists []|].
  set (n := Z.to_nat _).
  assert (forall x' s', buffer s' = drop n (buffer s) ->
            exists consumed,
              buffer s = consumed ++
                buffer (snd (fst (if Z.of_nat (length (buffer s')) <?
                                     Z.of_nat _STRUCT_HEADER_LENGTH
                                  then (x', s', Exhausted)
                                  else decode_loop env k fuel x' s')))) as Hresume.
  { intros x' s' Hs'. destruct (_ <? _).
    - exists (take n (buffer s)). simpl. now rewrite Hs', take_drop.
    - destruct (IH x' s') as [c Hc]. exists (take n (buffer s) ++ c).
      rewrite <- app_assoc, <- Hc, Hs'. now rewrite take_drop. }
  destruct (watches_r _ !! _) as [path|].
  - destruct (decode_utf8 _) as [filename_unicode|].
    + match goal with |- context [k ?e x ?t] =>
        pose proof (Hk e x t) as Hkeep; destruct (k e x t) as [[x' s2] [q|]] end;
        simpl in Hkeep.
      * exists (take n (buffer s)). simpl. now rewrite Hkeep, take_drop.
      * apply Hresume. exact Hkeep.
    + exists (take n (buffer s)). simpl. now rewrite take_drop.
  - apply Hresume. reflexivity.
Qed.

(** X13 — no byte is lost or reordered.  Whatever was read and whatever
    the consumer did with the events, as long as it leaves the buffer
    alone: the buffer after the call is a suffix of the buffer before it
    followed by the bytes read.  What the decoder took off is a prefix. *)
Theorem buffer_is_a_suffix {X Q : Type} (k : consumer X Q event) (b : list byte)
    (x : X) (s : Inotify) :
  keeps_buffer k ->
  exists consumed : list byte,
    buffer s ++ b = consumed ++ buffer (snd (fst (handle_bytes env k b x s))).
Proof.
  intros Hk. destruct b as [|b0 b].
  - exists []. simpl. now rewrite app_nil_r.
  - cbn [handle_bytes].
    destruct (decode_loop_suffix k (S (length (buffer s ++ b0 :: b))) x
                (set_buffer (buffer s ++ b0 :: b) s) Hk) as [c Hc].
    exists c. exact Hc.
Qed.

Lemma forward_keeps_buffer {Y Q A : Type} (k : consumer Y Q A) (a : A) (y : Y)
    (s : Inotify) :
  keeps_buffer k -> buffer (snd (fst (forward k a y s))) = buffer s.
Proof.
  intros Hk. unfold forward. pose proof (Hk a y s) as H.
  destruct (k a y s) as [[y' s'] [q|]]; exact H.
Qed.

Lemma on_event_keeps_buffer {Y Q : Type} (args : event_gen_args)
    (k : consumer Y Q (option event)) :
  keeps_buffer k -> keeps_buffer (on_event env args k).
Proof.
  intros Hk [[[header type_names] path] filename] x s. unfold on_event, now.
  destruct (scan_type_names args _ type_names); try reflexivity.
  match goal with |- context [forward k ?a ?y ?t] =>
    pose proof (forward_keeps_buffer k a y t Hk) as H;
    destruct (forward k a y t) as [[y' s2] stop] end.
  exact H.
Qed.

Lemma on_event_stop {Y Q : Type} (args : event_gen_args) (k : consumer Y Q (option event))
    (e : event) (x : Z * Y) (s : Inotify) :
  snd (on_event env args k e x s) <> Some Unfinished.
Proof.
  destruct e as [[[header type_names] path] filename]. unfold on_event, now.
  destruct (scan_type_names args _ type_names); try discriminate.
  unfold forward.
  match goal with |- context [k ?a ?y ?t] => destruct (k a y t) as [[y' s2] [q|]] end;
    discriminate.
Qed.

Lemma housekeeping_frame (ign : pyval) (_mask : Z) (e : event) (s : Inotify) :
  same_frame s (fst (housekeeping env ign _mask e s)).
Proof.
  destruct e as [[[header type_names] path] filename]. unfold housekeeping.
  destruct (truthy _); [|apply same_frame_refl].
  set (full_path := os_path_join env path filename).
  assert (same_frame s (fst (on_created env ign _mask header full_path s))) as Hc.
  { unfold on_created. destruct (_ || _); [|apply same_frame_refl].
    unfold bind, path_exists.
    destruct (_ || _); [|unfold same_frame; simpl; auto].
    match goal with |- context [add_watch env full_path _mask ?t] =>
      pose proof (add_watch_frame env full_path _mask t) as H;
      destruct (add_watch env full_path _mask t) as [s1 [a|ex]] end;
      exact H. }
  unfold bind. destruct (on_created env ign _mask header full_path s) as [s1 [[]|ex]];
    simpl in Hc; [|exact Hc].
  eapply same_frame_trans; [exact Hc|].
  unfold on_removed. destruct (truthy _); [apply remove_watch_frame|].
  destruct (truthy _); [|apply same_frame_refl].
  rewrite except_InotifyError_state. apply remove_watch_frame.
Qed.

Lemma tree_body_keeps_buffer {Y Q : Type} (ign : pyval) (_mask : Z)
    (k : consumer Y Q (option event)) :
  keeps_buffer k -> keeps_buffer (tree_body env ign _mask k).
Proof.
  intros Hk [e|] y s; unfold tree_body.
  - pose proof (housekeeping_frame ign _mask e s) as (_ & Hb & _).
    destruct (housekeeping env ign _mask e s) as [s1 [[]|ex]]; simpl in Hb.
    + now rewrite forward_keeps_buffer.
    + exact Hb.
  - now apply forward_keeps_buffer.
Qed.

Lemma for_polled_finishes {Y Q : Type} (args : event_gen_args)
    (k : consumer Y Q (option event)) (events : list (Z * Z)) (x : Z * Y) (s : Inotify) :
  keeps_buffer k ->
  snd (for_polled env args k events x s) <> Some Unfinished.
Proof.
  intros Hk. revert x s. induction events as [|[fd event_type] rest IH]; intros x s;
    [discriminate|].
  cbn [for_polled]. destruct (_get_event_names env event_type); [|discriminate].
  assert (snd (_handle_inotify_event env (on_event env args k) fd x s) <> Unfinished /\
          snd (_handle_inotify_event env (on_event env args k) fd x s)
          <> Abandoned Unfinished) as [Hfin Hstop].
  { unfold _handle_inotify_event, handle_bytes.
    destruct (os_read env (history s) fd 1024) as [|b0 b]; [split; discriminate|].
    split.
    - apply decode_loop_finishes.
      + intros e x0 s0. now rewrite (on_event_keeps_buffer args k Hk e x0 s0).
      + lia.
    - apply decode_loop_stop_from_consumer. intros e x0 s0. apply on_event_stop. }
  destruct (_handle_inotify_event env (on_event env args k) fd x s) as [[x' s'] r].
  simpl in *. destruct r as [|ex|q|].
  - apply IH.
  - discriminate.
  - intros [= ->]. now apply Hstop.
  - now contradiction Hfin.
Qed.

(** X14 — decoding always finishes.  The bound on the turns of the
    decoding loop is never what ends it: with a caller that leaves the
    buffer alone, a call of the decoder from [event_gen] ends because the
    buffer is starved, because something was raised or because the caller
    stopped, and so does the processing of everything one poll reported,
    also when the caller is the tree wrapper with its housekeeping. *)
Theorem decoding_finishes {Y Q : Type} (args : event_gen_args) (ign : pyval) (_mask : Z)
    (k : consumer Y Q (option event)) :
  keeps_buffer k ->
  (forall (b : list byte) (x : Z * Y) (s : Inotify),
     snd (handle_bytes env (on_event env args k) b x s) <> Unfinished) /\
  (forall (events : list (Z * Z)) (x : Z * Y) (s : Inotify),
     snd (for_polled env args k events x s) <> Some Unfinished) /\
  (forall (events : list (Z * Z)) (x : Z * Y) (s : Inotify),
     snd (for_polled env args (tree_body env ign _mask k) events x s)
     <> Some Unfinished).
Proof.
  intros Hk. split; [|split].
  - intros b x s. unfold handle_bytes. destruct b as [|b0 b]; [discriminate|].
    apply decode_loop_finishes.
    + intros e x0 s0. now rewrite (on_event_keeps_buffer args k Hk e x0 s0).
    + lia.
  - intros events x s. now apply for_polled_finishes.
  - intros events x s. apply for_polled_finishes. now apply tree_body_keeps_buffer.
Qed.

Lemma encode_all_app (rs1 rs2 : list wire_record) :
  encode_all (rs1 ++ rs2) = encode_all rs1 ++ encode_all rs2.
Proof.
  unfold encode_all. now rewrite map_app, concat_app.
Qed.

(** X15 — records left behind wait for the next bytes.  When the
    consumer stops at the event of the first record of a batch, the later
    records of the batch stay in the buffer, undecoded.  A later call
    whose read returns nothing delivers none of them; a later call that
    reads more records delivers the retained ones first, then the new
    ones. *)
Theorem abandoned_records_wait {X Q : Type} (k : consumer X Q event)
    (r : wire_record) (rs rs2 : list wire_record) (e : event) (q : Q)
    (x x' : X) (acc : list event) (s s' : Inotify) :
  well_formed env r ->
  Forall (well_formed env) rs ->
  Forall (well_formed env) rs2 ->
  buffer s = [] ->
  decoded env (watches_r s) r = [e] ->
  k e x (set_buffer (encode_all rs) s) = (x', s', Some q) ->
  buffer s' = encode_all rs ->
  handle_bytes env k (encode_all (r :: rs)) x s = (x', s', Abandoned q) /\
  handle_bytes env keep_events [] acc s' = (acc, s', Exhausted) /\
  (rs2 <> [] ->
   handle_bytes env keep_events (encode_all rs2) acc s' =
     (acc ++ decoded_all env (watches_r s') (rs ++ rs2), set_buffer [] s', Exhausted)).
Proof.
  intros Hr Hrs Hrs2 Hempty He Hk Hs'.
  split; [|split; [reflexivity|]].
  - rewrite handle_bytes_not_nil by (rewrite encode_all_cons; apply encode_not_nil).
    rewrite (decode_loop_head env k _ x
               (set_buffer (buffer s ++ encode_all (r :: rs)) s) r (encode_all rs) Hr)
      by (cbn [buffer set_buffer]; now rewrite Hempty).
    cbn [watches_r set_buffer]. rewrite He.
    change (set_buffer (encode_all rs) (set_buffer (buffer s ++ encode_all (r :: rs)) s))
      with (set_buffer (encode_all rs) s).
    now rewrite Hk.
  - intros Hne.
    assert (encode_all rs2 <> []) as Hbytes.
    { destruct rs2 as [|r2 rs2]; [contradiction|].
      rewrite encode_all_cons. apply encode_not_nil. }
    rewrite handle_bytes_not_nil by assumption.
    rewrite (decode_loop_records env (rs ++ rs2) _ acc _ []).
    + reflexivity.
    + now apply Forall_app.
    + left. unfold _STRUCT_HEADER_LENGTH. simpl. lia.
    + cbn [buffer set_buffer]. rewrite Hs', <- encode_all_app.
      pose proof (length_encode_all (rs ++ rs2)). lia.
    + cbn [buffer set_buffer]. now rewrite Hs', app_nil_r, encode_all_app.
Qed.

End DecoderAndConsumers.

Lemma collect_keeps_frame {A Q : Type} : keeps_frame (collect (A := A) (Q := Q)).
Proof. intros a x s. apply same_frame_refl. Qed.

Lemma keeps_frame_buffer {X Q A : Type} (k : consumer X Q A) :
  keeps_frame k -> keeps_buffer k.
Proof. intros Hk a x s. now destruct (Hk a x s) as (_ & Hb & _). Qed.

Lemma header_bijection_witness :
  let peek_slice := pack (wire_header Linux.create_record) in
  header_in_range (unpack peek_slice) /\
  pack (unpack peek_slice) = peek_slice /\
  unpack (pack (unpack peek_slice)) = unpack peek_slice.
Proof.
  intros peek_slice. destruct header_bijection as [Hbytes Hheader].
  destruct (Hbytes peek_slice) as [Hrange Hpack]; [vm_compute; reflexivity|].
  destruct (Hheader (unpack peek_slice) Hrange) as [_ Hunpack].
  exact (conj Hrange (conj Hpack Hunpack)).
Defined.

Lemma padded_name_decoded_witness :
  handle_bytes (Linux.env Linux.quiet) keep_events (encode Linux.create_record) []
    Linux.watching_a
  = ([Linux.create_event], Linux.watching_a, Exhausted).
Proof.
  destruct (padded_name_decoded (Linux.env Linux.quiet) Linux.create_record
              ["f"%byte] 15 "/a" ["IN_CREATE"%string] Linux.watching_a) as [Hdecoded _].
  - repeat split; vm_compute; (discriminate || reflexivity).
  - vm_compute. reflexivity.
  - vm_compute. reflexivity.
  - vm_compute. reflexivity.
  - vm_compute. reflexivity.
  - vm_compute. reflexivity.
  - vm_compute. reflexivity.
  - exact Hdecoded.
Defined.

Lemma unknown_watch_dropped_witness :
  handle_bytes (Linux.env Linux.quiet) keep_events (encode Scenario.stray_record) []
    Linux.watching_a
  = ([], set_buffer [] Linux.watching_a, Exhausted).
Proof.
  destruct (unknown_watch_dropped (Linux.env Linux.quiet) keep_events
              Scenario.stray_record (encode Scenario.stray_record) [] []
              Linux.watching_a) as [_ Hdropped].
  - repeat split; vm_compute; (discriminate || reflexivity).
  - discriminate.
  - vm_compute. reflexivity.
  - vm_compute. eauto.
  - vm_compute. reflexivity.
  - apply Hdropped. reflexivity.
Defined.

Lemma unknown_mask_blocks_witness :
  let E := Linux.env Linux.quiet in
  let b := encode Scenario.odd_mask_record in
  handle_bytes E keep_events b [] Linux.watching_a
  = ([], set_buffer b Linux.watching_a, Raised (AssertionError 3)) /\
  handle_bytes E keep_events (encode Linux.create_record) [] (set_buffer b Linux.watching_a)
  = ([], set_buffer (b ++ encode Linux.create_record) Linux.watching_a,
     Raised (AssertionError 3)).
Proof.
  intros E b.
  destruct (unknown_mask_blocks E keep_events b [] Linux.watching_a) as [Hfirst Hlater].
  - discriminate.
  - vm_compute. lia.
  - vm_compute. reflexivity.
  - split.
    + exact Hfirst.
    + apply (Hlater keep_events (encode Linux.create_record) []). discriminate.
Defined.

Lemma invalid_name_consumed_witness :
  handle_bytes (Linux.env Linux.quiet) keep_events
    (encode Scenario.latin1_record ++ encode Linux.create_record) [] Linux.watching_a
  = ([], set_buffer (encode Linux.create_record) Linux.watching_a,
     Raised UnicodeDecodeError).
Proof.
  apply (invalid_name_consumed (Linux.env Linux.quiet) keep_events Scenario.latin1_record
           _ (encode Linux.create_record) "/a" [] Linux.watching_a).
  - repeat split; vm_compute; (discriminate || reflexivity).
  - discriminate.
  - reflexivity.
  - vm_compute. eauto.
  - vm_compute. reflexivity.
  - vm_compute. reflexivity.
Defined.

Lemma buffer_is_a_suffix_witness :
  let b := take 40 (encode Linux.create_record ++ encode Linux.unmount_record) in
  exists consumed : list byte,
    b = consumed ++
        buffer (snd (fst (handle_bytes (Linux.env Linux.quiet) keep_events b []
                            Linux.watching_a))).
Proof.
  intros b.
  destruct (buffer_is_a_suffix (Linux.env Linux.quiet) keep_events b [] Linux.watching_a)
    as [consumed Hc].
  - apply keeps_frame_buffer, collect_keeps_frame.
  - exists consumed. exact Hc.
Defined.

Lemma decoding_finishes_witness :
  let E := Linux.env (Linux.one_read (encode Linux.create_record)) in
  snd (for_polled E Linux.default_args (tree_body E (PyBool false) 0xfff keep)
         [(3, 1)] (0, []) Linux.watching_a) <> Some Unfinished.
Proof.
  intros E.
  destruct (decoding_finishes E Linux.default_args (PyBool false) 0xfff keep)
    as (_ & _ & Htree).
  - apply keeps_frame_buffer, collect_keeps_frame.
  - apply Htree.
Defined.

Lemma abandoned_records_wait_witness :
  let E := Linux.env Linux.quiet in
  let s' := set_buffer (encode_all [Linux.unmount_record]) Linux.watching_a in
  handle_bytes E Scenario.stop_now
    (encode_all [Linux.create_record; Linux.unmount_record]) tt Linux.watching_a
  = (tt, s', Abandoned tt) /\
  handle_bytes E keep_events [] [] s' = ([], s', Exhausted) /\
  handle_bytes E keep_events (encode_all [Linux.create_record]) [] s'
  = ([Linux.unmount_event; Linux.create_event], set_buffer [] s', Exhausted).
Proof.
  intros E s'.
  assert (well_formed E Linux.create_record) as Hcreate.
  { repeat split; try (vm_compute; (discriminate || reflexivity)).
    vm_compute. eauto. }
  assert (well_formed E Linux.unmount_record) as Hunmount.
  { repeat split; try (vm_compute; (discriminate || reflexivity)).
    vm_compute. eauto. }
  destruct (abandoned_records_wait E Scenario.stop_now Linux.create_record
              [Linux.unmount_record] [Linux.create_record] Linux.create_event tt
              tt tt [] Linux.watching_a s') as (Hstop & Hidle & Hnext).
  - exact Hcreate.
  - constructor; [exact Hunmount|constructor].
  - constructor; [exact Hcreate|constructor].
  - vm_compute. reflexivity.
  - vm_compute. reflexivity.
  - vm_compute. reflexivity.
  - vm_compute. reflexivity.
  - split; [exact Hstop|]. split; [exact Hidle|].
    rewrite Hnext by discriminate. vm_compute. reflexivity.
Defined.

(** ** The event generator: idle markers and the recorded stop *)

Section MoreEventGen.

Variable env : Env.
Variable args : event_gen_args.

Lemma event_gen_iteration_grown (x x' : Z * list (option event)) (s s' : Inotify)
    (stop : option (gen_end Empty_set)) :
  is_True (yield_nones args) = false ->
  event_gen_iteration env args keep x s = (x', s', stop) ->
  grown (snd x) (snd x').
Proof.
  intros Hyn. unfold event_gen_iteration.
  destruct (epoll_poll env (history s) (get_block_duration s)) as [events|errno].
  - destruct (for_polled env args keep events x _) as [[x1 s2] [q|]] eqn:Hfor;
      apply for_polled_grown in Hfor.
    + intros [= <- <- <-]. assumption.
    + destruct (timed_out env args (fst x1) s2) as [s3 out].
      destruct out; [intros [= <- <- <-]; assumption|].
      rewrite Hyn. intros [= <- <- <-]. assumption.
  - destruct (negb (errno =? EINTR)); [intros [= <- <- <-]; apply grown_refl|].
    destruct (timed_out env args (fst x) _) as [s2 out].
    destruct out; intros [= <- <- <-]; apply grown_refl.
Qed.

(** X16 — no idle marker unless [yield_nones] is [True] itself.  When
    [yield_nones] is anything but the object [True] ([False], [None],
    the integer [1]), everything the generator delivers, over any number
    of iterations and however it ends, is an event: the caller never
    receives [None]. *)
Theorem no_idle_markers (iterations : nat) (acc : list (option event)) (s : Inotify) :
  is_True (yield_nones args) = false ->
  exists es : list event,
    fst (fst (event_gen env args keep iterations acc s)) = acc ++ map Some es.
Proof.
  intros Hyn. unfold event_gen. destruct (now env _) as [s1 t].
  change acc with (snd (t, acc)) at 2.
  generalize (t, acc) as x. clear t acc. revert s1.
  induction iterations as [|n IH]; intros s1 x; [apply grown_refl|].
  cbn [event_gen_loop].
  destruct (event_gen_iteration env args keep x s1) as [[x' s'] stop] eqn:Hit.
  apply (event_gen_iteration_grown _ _ _ _ _ Hyn) in Hit.
  destruct stop as [q|]; [exact Hit|].
  eapply grown_trans; [exact Hit|apply IH].
Qed.




Section WithConsumer.

Context {Y Q : Type}.
Variable k : consumer Y Q (option event).
Hypothesis Hk : keeps_frame k.








End WithConsumer.


End MoreEventGen.

(** ** The event generator on a quiet watch *)

Section QuietStream.

Variable env : Env.
Variable args : event_gen_args.

(** No descriptor is ever ready. *)
Hypothesis Hquiet : forall (h : list call) (d : Z), epoll_poll env h d = Returned [].

Lemma markers_succ (n : nat) : markers args (S n) = markers args 1 ++ markers args n.
Proof.
  unfold markers. destruct (is_True (yield_nones args)); reflexivity.
Qed.

Lemma quiet_iteration (last_hit_s : Z) (acc : list (option event)) (s : Inotify) :
  let s1 := log (call_poll (get_block_duration s) (Returned [])) s in
  event_gen_iteration env args keep (last_hit_s, acc) s =
    match timeout_s args with
    | None => ((last_hit_s, acc ++ markers args 1), s1, None)
    | Some timeout =>
        let t := time_time env (history s1) in
        if t - last_hit_s >? timeout
        then ((last_hit_s, acc), log (call_time t) s1, Some Exhausted)
        else ((last_hit_s, acc ++ markers args 1), log (call_time t) s1, None)
    end.
Proof.
  intros s1. unfold event_gen_iteration. rewrite Hquiet. fold s1.
  cbn [for_polled]. unfold timed_out, now, markers.
  destruct (timeout_s args) as [timeout|]; cbn [fst snd].
  - destruct (_ >? _); [reflexivity|].
    destruct (is_True (yield_nones args)); [reflexivity|]. now rewrite app_nil_r.
  - destruct (is_True (yield_nones args)); [reflexivity|]. now rewrite app_nil_r.
Qed.

Lemma event_gen_loop_S {Y Q : Type} (k : consumer Y Q (option event)) (n : nat)
    (x : Z * Y) (s : Inotify) :
  event_gen_loop env args k (S n) x s =
    match event_gen_iteration env args k x s with
    | (x', s', Some q) => (snd x', s', q)
    | (x', s', None) => event_gen_loop env args k n x' s'
    end.
Proof. reflexivity. Qed.

(** X18 — a quiet watch without a timeout.  When no descriptor is ever
    ready and no timeout was given, the generator never ends by itself:
    after [n] iterations it is still running, it has polled [n] times,
    read nothing, and delivered [n] idle markers and nothing else (no
    item at all when [yield_nones] is not [True]). *)
Theorem quiet_without_timeout (n : nat) (acc : list (option event)) (s : Inotify) :
  timeout_s args = None ->
  let r := event_gen env args keep n acc s in
  fst (fst r) = acc ++ markers args n /\
  snd r = Unfinished /\
  polls_made (history (snd (fst r))) = (polls_made (history s) + n)%nat /\
  reads_made (history (snd (fst r))) = reads_made (history s).
Proof.
  intros Hno r. subst r. unfold event_gen, now. cbn [fst snd].
  set (s1 := log _ _).
  change (polls_made (history s)) with (polls_made (history s1)).
  change (reads_made (history s)) with (reads_made (history s1)).
  generalize (time_time env (history (set_last_success_return None s))) as t.
  clearbody s1. clear s. intros t. revert acc s1.
  induction n as [|n IH]; intros acc s.
  - cbn [event_gen_loop fst snd]. unfold markers.
    split; [destruct (is_True (yield_nones args)); simpl; now rewrite app_nil_r|].
    split; [reflexivity|]. split; [lia|reflexivity].
  - cbn [event_gen_loop]. rewrite quiet_iteration, Hno.
    destruct (IH (acc ++ markers args 1)
                (log (call_poll (get_block_duration s) (Returned [])) s))
      as (H1 & H2 & H3 & H4).
    rewrite H1, H2, H3, H4. cbn [history log polls_made reads_made].
    split; [now rewrite (markers_succ n), app_assoc|].
    split; [reflexivity|]. split; [lia|reflexivity].
Qed.

(** X19 — a quiet watch with a timeout.  Let the clock be a function of
    the number of polls made (time passes only while the generator
    waits), and let no descriptor ever be ready.  If the clock stays
    within [timeout_s] of its reading at the start for the first [n]
    polls and is beyond it after the next one, the generator delivers
    [n] idle markers, one per iteration, and returns normally in
    iteration [n + 1], without a marker for that iteration: idle markers
    do not count as activity. *)
Theorem quiet_with_timeout (clock : nat -> Z) (timeout : Z) (n extra : nat)
    (acc : list (option event)) (s : Inotify) :
  (forall h : list call, time_time env h = clock (polls_made h)) ->
  timeout_s args = Some timeout ->
  let p0 := polls_made (history s) in
  (forall i : nat, (1 <= i <= n)%nat -> clock (p0 + i)%nat - clock p0 <= timeout) ->
  clock (p0 + S n)%nat - clock p0 > timeout ->
  let r := event_gen env args keep (S n + extra) acc s in
  fst (fst r) = acc ++ markers args n /\
  snd r = Exhausted /\
  polls_made (history (snd (fst r))) = (p0 + S n)%nat.
Proof.
  intros Hclock Htimeout p0 Hwithin Hbeyond r. subst r.
  assert (forall (n j : nat) (acc : list (option event)) (s1 : Inotify),
            polls_made (history s1) = (p0 + j)%nat ->
            (forall i : nat, (j < i <= j + n)%nat ->
                             clock (p0 + i)%nat - clock p0 <= timeout) ->
            clock (p0 + j + S n)%nat - clock p0 > timeout ->
            let r := event_gen_loop env args keep (S n + extra) (clock p0, acc) s1 in
            fst (fst r) = acc ++ markers args n /\
            snd r = Exhausted /\
            polls_made (history (snd (fst r))) = (p0 + j + S n)%nat) as Hloop.
  { clear Hwithin Hbeyond. clearbody p0. clear n acc s.
    induction n as [|n IH]; intros j acc s1 Hp Hwithin Hbeyond.
    - change (1 + extra)%nat with (S extra).
      rewrite event_gen_loop_S, quiet_iteration, Htimeout. cbv zeta.
      rewrite Hclock. cbn [history log polls_made]. rewrite Hp.
      replace (S (p0 + j)) with (p0 + j + 1)%nat by lia.
      destruct (Z.gtb_spec (clock (p0 + j + 1)%nat - clock p0) timeout) as [_|Hle];
        [|lia].
      cbn [fst snd history log polls_made]. unfold markers.
      split; [destruct (is_True (yield_nones args)); simpl; now rewrite app_nil_r|].
      split; [reflexivity|lia].
    - change (S (S n) + extra)%nat with (S (S n + extra)).
      rewrite event_gen_loop_S, quiet_iteration, Htimeout. cbv zeta.
      rewrite Hclock. cbn [history log polls_made]. rewrite Hp.
      destruct (Z.gtb_spec (clock (S (p0 + j)) - clock p0) timeout) as [Hgt|_].
      + specialize (Hwithin (S j)).
        replace (p0 + S j)%nat with (S (p0 + j)) in Hwithin by lia. lia.
      + destruct (IH (S j) (acc ++ markers args 1)
                    (log (call_time (clock (S (p0 + j))))
                       (log (call_poll (get_block_duration s1) (Returned [])) s1)))
          as (H1 & H2 & H3).
        * cbn [history log polls_made]. lia.
        * intros i Hi. apply Hwithin. lia.
        * replace (p0 + S j + S n)%nat with (p0 + j + S (S n))%nat by lia.
          exact Hbeyond.
        * cbv beta iota. rewrite H1, H2, H3.
          split; [now rewrite (markers_succ n), app_assoc|].
          split; [reflexivity|lia]. }
  unfold event_gen, now. cbn [fst snd].
  assert (time_time env (history (set_last_success_return None s)) = clock p0) as ->
    by (rewrite Hclock; reflexivity).
  destruct (Hloop n 0%nat acc
              (log (call_time (clock p0)) (set_last_success_return None s)))
    as (H1 & H2 & H3).
  - subst p0. simpl. lia.
  - intros i Hi. apply Hwithin. lia.
  - now rewrite Nat.add_0_r.
  - rewrite H1, H2, H3. split; [reflexivity|]. split; [reflexivity|lia].
Qed.

End QuietStream.

Lemma no_idle_markers_witness :
  exists es : list event,
    fst (fst (event_gen (Linux.env (Linux.one_read (encode Linux.create_record)))
                Scenario.no_marker_args keep 3 [] Linux.watching_a))
    = [] ++ map Some es.
Proof.
  apply (no_idle_markers (Linux.env (Linux.one_read (encode Linux.create_record)))
           Scenario.no_marker_args 3 [] Linux.watching_a).
  reflexivity.
Defined.


Lemma quiet_polls (h : list call) (d : Z) :
  epoll_poll (Linux.env Linux.quiet) h d = Returned [].
Proof.
  simpl. destruct (Linux.count Linux.is_poll h); reflexivity.
Qed.

Lemma quiet_without_timeout_witness :
  let r := event_gen (Linux.env Linux.quiet) Linux.default_args keep 3 []
             Linux.watching_a in
  fst (fst r) = [None; None; None] /\ snd r = Unfinished.
Proof.
  intros r.
  destruct (quiet_without_timeout (Linux.env Linux.quiet) Linux.default_args
              quiet_polls 3 [] Linux.watching_a eq_refl) as (Hitems & Hend & _).
  exact (conj Hitems Hend).
Defined.

Lemma polls_made_count (h : list call) : polls_made h = Linux.count Linux.is_poll h.
Proof.
  unfold Linux.count. induction h as [|c h IH]; [reflexivity|].
  destruct c; simpl; now rewrite IH.
Qed.

Lemma quiet_with_timeout_witness :
  let r := event_gen (Linux.env Linux.quiet) Scenario.timeout_args keep 5 []
             Linux.watching_a in
  fst (fst r) = [None; None] /\ snd r = Exhausted.
Proof.
  intros r.
  destruct (quiet_with_timeout (Linux.env Linux.quiet) Scenario.timeout_args
              quiet_polls Z.of_nat 2 2 2 [] Linux.watching_a) as (Hitems & Hend & _).
  - intros h. simpl. now rewrite polls_made_count.
  - reflexivity.
  - intros i Hi. change (polls_made (history Linux.watching_a)) with 0%nat. lia.
  - change (polls_made (history Linux.watching_a)) with 0%nat. lia.
  - exact (conj Hitems Hend).
Defined.

(** ** The tree wrapper: its mask, its invariant, a refused watch *)

Section MoreTree.

Variable env : Env.

Lemma land_lor_l (a b : Z) : Z.land (Z.lor a b) a = a.
Proof.
  apply Z.bits_inj'. intros n Hn. rewrite Z.land_spec, Z.lor_spec.
  destruct (Z.testbit a n), (Z.testbit b n); reflexivity.
Qed.

Lemma land_lor_r (a b : Z) : Z.land (Z.lor a b) b = b.
Proof. rewrite Z.lor_comm. apply land_lor_l. Qed.

Lemma land_lor_keeps (a b c : Z) : Z.land a c = c -> Z.land (Z.lor a b) c = c.
Proof.
  intros H. apply Z.bits_inj'. intros n Hn.
  apply (f_equal (fun z => Z.testbit z n)) in H.
  rewrite Z.land_spec in *. rewrite Z.lor_spec.
  destruct (Z.testbit a n), (Z.testbit b n), (Z.testbit c n); simpl in *; congruence.
Qed.

(** X20 — the mask of the tree.  Whatever mask the caller asks for,
    the mask the tree installs its watches with has every bit of the
    caller's mask and every bit of [IN_ISDIR], [IN_CREATE], [IN_MOVED_TO],
    [IN_DELETE] and [IN_MOVED_FROM], and no other bit; building it from
    itself changes nothing. *)
Theorem tree_mask_contains (m : Z) :
  let t := tree_mask env m in
  Z.land t m = m /\
  Z.land t (IN_ISDIR env) = IN_ISDIR env /\
  Z.land t (IN_CREATE env) = IN_CREATE env /\
  Z.land t (IN_MOVED_TO env) = IN_MOVED_TO env /\
  Z.land t (IN_DELETE env) = IN_DELETE env /\
  Z.land t (IN_MOVED_FROM env) = IN_MOVED_FROM env /\
  (forall n : Z,
     0 <= n ->
     Z.testbit t n = true ->
     Z.testbit m n = true \/ Z.testbit (IN_ISDIR env) n = true \/
     Z.testbit (IN_CREATE env) n = true \/ Z.testbit (IN_MOVED_TO env) n = true \/
     Z.testbit (IN_DELETE env) n = true \/ Z.testbit (IN_MOVED_FROM env) n = true) /\
  tree_mask env t = t.
Proof.
  intros t. subst t. unfold tree_mask.
  do 6 (split; [auto 8 using land_lor_l, land_lor_r, land_lor_keeps|]).
  split.
  - intros n Hn. rewrite !Z.lor_spec, !orb_true_iff. tauto.
  - apply Z.bits_inj'. intros n Hn. rewrite !Z.lor_spec.
    destruct (Z.testbit m n), (Z.testbit (IN_ISDIR env) n),
      (Z.testbit (IN_CREATE env) n), (Z.testbit (IN_MOVED_TO env) n),
      (Z.testbit (IN_DELETE env) n), (Z.testbit (IN_MOVED_FROM env) n); reflexivity.
Qed.

Lemma registry_inv_log (c : call) (s : Inotify) :
  returned_wds (history (log c s)) = returned_wds (history s) ->
  registry_inv s -> registry_inv (log c s).
Proof.
  intros Hsame [Hbij Hdom]. split.
  - exact Hbij.
  - intros wd path H. rewrite Hsame. exact (Hdom wd path H).
Qed.

Lemma on_created_state (ign : pyval) (_mask : Z) (header : _INOTIFY_EVENT)
    (full_path : string) (s : Inotify) :
  let s0 := log (call_exists full_path (os_path_exists env (history s) full_path)) s in
  fst (on_created env ign _mask header full_path s) = s \/
  fst (on_created env ign _mask header full_path s) = s0 \/
  fst (on_created env ign _mask header full_path s) = fst (add_watch env full_path _mask s0).
Proof.
  intros s0. unfold on_created. destruct (_ || _); [|now left].
  unfold bind, path_exists. fold s0. destruct (_ || _); [|right; now left].
  right. right. destruct (add_watch env full_path _mask s0) as [s1 [a|ex]]; reflexivity.
Qed.

Lemma on_created_inv (ign : pyval) (_mask : Z) (header : _INOTIFY_EVENT)
    (full_path : string) (s : Inotify) :
  registry_inv s ->
  NoDup (returned_wds (history (fst (on_created env ign _mask header full_path s)))) ->
  registry_inv (fst (on_created env ign _mask header full_path s)).
Proof.
  intros Hinv.
  assert (registry_inv
            (log (call_exists full_path (os_path_exists env (history s) full_path)) s))
    as H0 by (apply registry_inv_log; [reflexivity|exact Hinv]).
  destruct (on_created_state ign _mask header full_path s) as [->|[->| ->]]; auto.
  exact (apply_op_inv env (Add full_path _mask) _ H0).
Qed.

Lemma on_removed_state (header : _INOTIFY_EVENT) (full_path : string) (s : Inotify) :
  fst (on_removed env header full_path s) = s \/
  exists superficial : pyval,
    fst (on_removed env header full_path s) = fst (remove_watch env full_path superficial s).
Proof.
  unfold on_removed. destruct (truthy _); [right; now exists (PyBool true)|].
  destruct (truthy _); [|now left].
  right. exists (PyBool false). apply except_InotifyError_state.
Qed.

(** X21 — the housekeeping keeps the registry consistent.  If the two
    dictionaries are inverse to each other and hold only descriptors the
    kernel returned, they still are and do after the tree wrapper has
    processed an event, whatever the event and whatever was raised, as
    long as the kernel did not return a descriptor it had returned
    before. *)
Theorem housekeeping_keeps_registry (ign : pyval) (_mask : Z) (e : event) (s : Inotify) :
  let s' := fst (housekeeping env ign _mask e s) in
  registry_inv s ->
  NoDup (returned_wds (history s')) ->
  registry_inv s' /\ bijective s' /\ no_sharing s'.
Proof.
  intros s' Hinv Hnd.
  assert (registry_inv s') as Hinv'; [|split; [exact Hinv'|];
    destruct Hinv' as [Hb _]; auto using bijective_no_sharing].
  subst s'. destruct e as [[[header type_names] path] filename].
  unfold housekeeping in *. destruct (truthy _); [|exact Hinv].
  set (full_path := os_path_join env path filename) in *.
  unfold bind in *.
  pose proof (on_created_inv ign _mask header full_path s Hinv) as Hc.
  destruct (on_created env ign _mask header full_path s) as [s1 [[]|ex]];
    cbn [fst] in *; [|auto].
  destruct (on_removed_state header full_path s1) as [E|[superficial E]];
    rewrite E in *; [auto|].
  pose proof (apply_op_returned env (Remove full_path superficial) s1) as [l Hl].
  cbn [apply_op] in Hl.
  apply (apply_op_inv env (Remove full_path superficial) s1); [|exact Hnd].
  apply Hc. rewrite Hl in Hnd. eapply NoDup_app_r_inv, Hnd.
Qed.

(** X22 — a refused watch ends the tree's stream.  For a directory event
    with the create or the moved-to flag on a path that is not yet
    watched, when the watch is to be installed (the path exists or
    [ignore_missing_new_folders] is [False]) and [inotify_add_watch],
    called on the encoding of the path, fails, the wrapper raises the
    [InotifyError]: the event is not passed on to the caller, the removal
    branch is not run, and the registry is as before. *)
Theorem refused_watch_ends_tree {Y Q : Type} (k : consumer Y Q (option event))
    (ign : pyval) (_mask : Z) (header : _INOTIFY_EVENT) (type_names : list string)
    (path filename : string) (path_bytes : list byte) (errno : Z) (y : Y) (s : Inotify) :
  let full_path := os_path_join env path filename in
  let present := os_path_exists env (history s) full_path in
  let s0 := log (call_exists full_path present) s in
  let refusal := call_add_watch (inotify_fd s) path_bytes _mask (Failed errno) in
  truthy (Z.land (mask header) (IN_ISDIR env)) = true ->
  truthy (Z.land (mask header) (IN_MOVED_TO env))
  || truthy (Z.land (mask header) (IN_CREATE env)) = true ->
  present || is_False ign = true ->
  watches s !! full_path = None ->
  encode_utf8 full_path = Ok path_bytes ->
  inotify_add_watch env (history s0) (inotify_fd s) path_bytes _mask = Failed errno ->
  tree_body env ign _mask k (Some (header, type_names, path, filename)) y s
  = (y, log refusal s0, Some (Raised (InotifyError errno))) /\
  watches (log refusal s0) = watches s /\
  watches_r (log refusal s0) = watches_r s.
Proof.
  intros full_path present s0 refusal Hdir Hnew Hcond Hfree Henc Hk.
  split; [|split; reflexivity].
  assert (add_watch env full_path _mask s0 = (log refusal s0, Raise (InotifyError errno)))
    as Hadd.
  { unfold add_watch. change (watches s0) with (watches s). rewrite Hfree, Henc.
    change (inotify_fd s0) with (inotify_fd s). now rewrite Hk. }
  assert (on_created env ign _mask header full_path s
          = (log refusal s0, Raise (InotifyError errno))) as Hcreated.
  { unfold on_created. rewrite Hnew. unfold bind at 1, path_exists.
    fold present s0. rewrite Hcond. unfold bind. now rewrite Hadd. }
  unfold tree_body. rewrite housekeeping_directory by assumption.
  fold full_path. unfold bind. now rewrite Hcreated.
Qed.

End MoreTree.

Lemma tree_mask_contains_witness :
  let E := Linux.env Linux.quiet in
  0 <= 8 /\ Z.testbit (tree_mask E 0x2) 8 = true /\
  (Z.testbit 0x2 8 = true \/ Z.testbit (IN_ISDIR E) 8 = true \/
   Z.testbit (IN_CREATE E) 8 = true \/ Z.testbit (IN_MOVED_TO E) 8 = true \/
   Z.testbit (IN_DELETE E) 8 = true \/ Z.testbit (IN_MOVED_FROM E) 8 = true).
Proof.
  intros E.
  destruct (tree_mask_contains E 0x2) as (_ & _ & _ & _ & _ & _ & Hbits & _).
  split; [lia|]. split; [vm_compute; reflexivity|].
  apply Hbits; [lia|vm_compute; reflexivity].
Defined.

Lemma housekeeping_keeps_registry_witness :
  let E := Linux.env Linux.quiet in
  bijective (fst (housekeeping E (PyBool false) 0xfff (Linux.dir_event 0x100)
                    Linux.watching_a)).
Proof.
  intros E.
  destruct (housekeeping_keeps_registry E (PyBool false) 0xfff (Linux.dir_event 0x100)
              Linux.watching_a) as (_ & Hb & _).
  - apply (apply_op_inv E (Add "/a" 0xfff) Linux.fresh (registry_inv_new 3 _)).
    apply (bool_decide_unpack (NoDup _)). vm_compute. exact I.
  - apply (bool_decide_unpack (NoDup _)). vm_compute. exact I.
  - exact Hb.
Defined.

Lemma refused_watch_ends_tree_witness :
  let E := Scenario.no_watch in
  snd (tree_body E (PyBool false) 0xfff keep (Some (Linux.dir_event 0x100)) []
         Linux.watching_a)
  = Some (Raised (InotifyError 2)) /\
  fst (fst (tree_body E (PyBool false) 0xfff keep (Some (Linux.dir_event 0x100)) []
              Linux.watching_a)) = [].
Proof.
  intros E.
  destruct (refused_watch_ends_tree E keep (PyBool false) 0xfff
              {| wd := 1; mask := Z.lor 0x40000000 0x100; cookie := 0; len := 16 |}
              (Linux.names_of (Z.lor 0x40000000 0x100)) "/a" "d"
              ["/"; "a"; "/"; "d"]%byte 2 [] Linux.watching_a)
    as (Hraise & _).
  - vm_compute. reflexivity.
  - vm_compute. reflexivity.
  - vm_compute. reflexivity.
  - vm_compute. reflexivity.
  - vm_compute. reflexivity.
  - vm_compute. reflexivity.
  - split.
    + exact (f_equal snd Hraise).
    + exact (f_equal (fun r => fst (fst r)) Hraise).
Defined.

(** ** The initial walk *)

Section Loaders.

Variable env : Env.
Variable fs : Filesystem.

Lemma in_subdirectories (current_path : string) (filenames : list string) (p : string) :
  In p (subdirectories env fs current_path filenames) <->
  exists filename : string,
    In filename filenames /\ p = os_path_join env current_path filename /\
    os_path_isdir fs p = true.
Proof.
  unfold subdirectories. rewrite filter_In, in_map_iff. split.
  - intros [(filename & <- & Hin) Hdir]. eauto.
  - intros (filename & Hin & -> & Hdir). eauto.
Qed.

Lemma walk_walked (fuel : nat) (q found q' found' : list string) :
  walk env fs fuel q found = (q', found', Walked) -> q' = [].
Proof.
  revert q found. induction fuel as [|fuel IH]; intros q found; destruct q as [|p q];
    simpl; try (intros [= <- <-]; reflexivity); try discriminate.
  destruct (os_listdir fs p); [apply IH|discriminate].
Qed.

Lemma walk_keeps (fuel : nat) (q found q' found' : list string) (e : walk_end) :
  walk env fs fuel q found = (q', found', e) ->
  forall p : string, In p (found ++ q) -> In p (found' ++ q').
Proof.
  revert q found. induction fuel as [|fuel IH]; intros q found; destruct q as [|c q];
    simpl; try (intros [= <- <- <-]; auto).
  destruct (os_listdir fs c) as [filenames|errno].
  - intros H p Hp. apply (IH _ _ H). rewrite !in_app_iff in *. simpl in *. tauto.
  - intros [= <- <- <-] p Hp. rewrite !in_app_iff in *. simpl in *. tauto.
Qed.

Lemma walk_sound (roots : list string) (fuel : nat) (q found q' found' : list string)
    (e : walk_end) :
  walk env fs fuel q found = (q', found', e) ->
  (forall p : string, In p (found ++ q) -> below env fs roots p) ->
  forall p : string, In p (found' ++ q') -> below env fs roots p.
Proof.
  revert q found. induction fuel as [|fuel IH]; intros q found; destruct q as [|c q];
    simpl; try (intros [= <- <- <-]; auto).
  destruct (os_listdir fs c) as [filenames|errno] eqn:Hls.
  - intros H Hall. apply (IH _ _ H). intros p Hp.
    rewrite !in_app_iff in Hp. simpl in Hp.
    destruct Hp as [[Hp|[<-|[]]]|[Hp|Hp]];
      try (apply Hall; rewrite in_app_iff; simpl; tauto).
    apply in_subdirectories in Hp as (filename & Hin & -> & Hdir).
    eapply below_entry; eauto. apply Hall. rewrite in_app_iff. simpl. tauto.
  - intros [= <- <- <-] Hall p Hp. apply Hall.
    rewrite !in_app_iff in *. simpl in *. tauto.
Qed.

Lemma walk_closed (fuel : nat) (q found q' found' : list string) (e : walk_end) :
  let closed (q found : list string) :=
    forall (parent filename : string) (filenames : list string),
      In parent found ->
      os_listdir fs parent = Returned filenames ->
      In filename filenames ->
      os_path_isdir fs (os_path_join env parent filename) = true ->
      In (os_path_join env parent filename) (found ++ q) in
  walk env fs fuel q found = (q', found', e) ->
  closed q found -> closed q' found'.
Proof.
  intros closed. subst closed.
  revert q found. induction fuel as [|fuel IH]; intros q found; destruct q as [|c q];
    simpl; try (intros [= <- <- <-]; auto).
  destruct (os_listdir fs c) as [filenames|errno] eqn:Hls.
  - intros H Hall. apply (IH _ _ H). intros parent filename names Hparent Hnames Hin Hdir.
    rewrite in_app_iff in Hparent. simpl in Hparent.
    rewrite !in_app_iff. simpl.
    destruct Hparent as [Hparent|[<-|[]]].
    + specialize (Hall parent filename names Hparent Hnames Hin Hdir).
      rewrite in_app_iff in Hall. simpl in Hall. tauto.
    + right. right. apply in_subdirectories. rewrite Hls in Hnames.
      injection Hnames as <-. eauto.
  - intros [= <- <- <-] Hall parent filename names Hparent Hnames Hin Hdir.
    rewrite in_app_iff in Hparent. simpl in Hparent.
    rewrite !in_app_iff. simpl.
    destruct Hparent as [Hparent|[<-|[]]].
    + specialize (Hall parent filename names Hparent Hnames Hin Hdir).
      rewrite in_app_iff in Hall. simpl in Hall. tauto.
    + congruence.
Qed.

Lemma walk_exact (fuel : nat) (roots q found : list string) :
  walk env fs fuel roots [] = (q, found, Walked) ->
  q = [] /\ forall p : string, In p found <-> below env fs roots p.
Proof.
  intros Hwalk. pose proof (walk_walked _ _ _ _ _ Hwalk) as ->.
  split; [reflexivity|]. intros p. split.
  - intros Hp. apply (walk_sound roots _ _ _ _ _ _ Hwalk).
    + simpl. intros r Hr. now apply below_root.
    + rewrite app_nil_r. exact Hp.
  - induction 1 as [r Hr|parent filename filenames _ IH Hls Hin Hdir].
    + pose proof (walk_keeps _ _ _ _ _ _ Hwalk r) as H. rewrite app_nil_r in H.
      apply H. simpl. exact Hr.
    + pose proof (walk_closed _ _ _ _ _ _ Hwalk) as H. cbv zeta in H.
      rewrite <- (app_nil_r found). eapply H; eauto.
      intros ? ? ? [].
Qed.

(** X23 — what the walk finds.  When the [while q:] loop ends, the queue
    is empty and the paths found are exactly the directories below the
    roots: the roots themselves and, entry by entry, every entry of a
    found directory that [os.path.isdir] accepts.  Files are not found,
    and no directory of the tree is missed. *)
Theorem walk_finds_the_tree (fuel : nat) (roots q found : list string) :
  walk env fs fuel roots [] = (q, found, Walked) ->
  q = [] /\ forall p : string, In p found <-> below env fs roots p.
Proof. exact (walk_exact fuel roots q found). Qed.

(** The bound on the turns only cuts off walks that have not ended. *)
Lemma walk_more_fuel (fuel extra : nat) (q found : list string) :
  snd (walk env fs fuel q found) <> Walking ->
  walk env fs (fuel + extra) q found = walk env fs fuel q found.
Proof.
  revert q found. induction fuel as [|fuel IH]; intros q found; destruct q as [|c q];
    simpl; try reflexivity.
  - destruct extra; reflexivity.
  - intros H. now contradiction H.
  - destruct (os_listdir fs c); [apply IH|reflexivity].
Qed.

Lemma watch_found_outcome (paths : list string) (_mask : Z) (s : Inotify) :
  let r := watch_found env paths _mask s in
  (forall (p : string) (wd : Z),
     watches s !! p = Some wd -> watches (fst r) !! p = Some wd) /\
  (snd r = Loaded -> forall p : string, In p paths -> is_Some (watches (fst r) !! p)) /\
  (forall ex : exn,
     snd r = LoadRaised ex ->
     exists p : string,
       In p paths /\ watches (fst r) !! p = None /\
       match encode_utf8 p with
       | Raise _ => ex = UnicodeEncodeError
       | Ok _ => exists errno : Z, ex = InotifyError errno
       end) /\
  (snd r = Loaded \/ exists ex : exn, snd r = LoadRaised ex).
Proof.
  intros r. subst r. unfold watch_found.
  destruct (add_watches env paths _mask s) as [s' res] eqn:Hadd.
  destruct (add_watches_result env paths _mask s s' res Hadd) as [Hkeep Hres].
  destruct res as [[]|ex]; simpl.
  - split; [exact Hkeep|]. split; [intros _; exact Hres|].
    split; [discriminate|now left].
  - destruct Hres as (done & p & rest & sd & -> & _ & _ & Hp & Hex).
    split; [exact Hkeep|]. split; [discriminate|]. split; [|right; eauto].
    intros ex' [= <-]. exists p. split; [apply in_elt|]. split; [exact Hp|].
    destruct (encode_utf8 p); [|tauto].
    destruct Hex as (errno & -> & _). eauto.
Qed.

(** X24 — what [InotifyTree] watches after its construction.  The
    loader installs watches only once the walk is over.  If the walk
    fails on a directory it cannot list, or has not ended, nothing has
    been registered and the kernel has not been called.  If the loader
    ends normally, the root and every directory below it are watched.
    Otherwise it has stopped at a directory of the tree that it could not
    register, which is not watched: one whose path has no encoding, as
    [os.listdir] gives for a name that is not UTF-8, with
    [UnicodeEncodeError], or one the kernel refused, with
    [InotifyError].  A result reached with some bound on the walk is the
    result with any larger bound. *)
Theorem load_tree_outcome (fuel : nat) (_mask : Z) (path : string) (s : Inotify) :
  let r := __load_tree env fs fuel _mask path s in
  (snd r = Loaded ->
   forall p : string, below env fs [path] p -> is_Some (watches (fst r) !! p)) /\
  ((exists errno : Z, snd r = LoadOSError errno) \/ snd r = StillWalking -> fst r = s) /\
  (forall ex : exn,
     snd r = LoadRaised ex ->
     exists p : string,
       below env fs [path] p /\ watches (fst r) !! p = None /\
       match encode_utf8 p with
       | Raise _ => ex = UnicodeEncodeError
       | Ok _ => exists errno : Z, ex = InotifyError errno
       end) /\
  (snd r <> StillWalking ->
   forall extra : nat, __load_tree env fs (fuel + extra) _mask path s = r).
Proof.
  intros r. subst r. unfold __load_tree.
  destruct (walk env fs fuel [path] []) as [[q found] e] eqn:Hwalk.
  assert (e <> Walking ->
          forall extra, walk env fs (fuel + extra) [path] [] = (q, found, e)) as Hfuel.
  { intros He extra. rewrite walk_more_fuel; [exact Hwalk|]. now rewrite Hwalk. }
  destruct e as [|errno|].
  - destruct (walk_exact _ _ _ _ Hwalk) as [_ Hfound].
    destruct (watch_found_outcome found _mask s) as (_ & Hall & Hraised & Hend).
    split; [|split; [|split]].
    + intros Hloaded p Hp. apply Hall; [exact Hloaded|]. now apply Hfound.
    + intros [[errno H]|H]; destruct Hend as [Hend|[ex' Hend]]; congruence.
    + intros ex Hex. destruct (Hraised ex Hex) as (p & Hin & Hp & Hcase).
      exists p. split; [now apply Hfound|]. split; assumption.
    + intros _ extra. rewrite Hfuel by discriminate. reflexivity.
  - simpl. split; [discriminate|]. split; [reflexivity|]. split; [discriminate|].
    intros _ extra. rewrite Hfuel by discriminate. reflexivity.
  - simpl. split; [discriminate|]. split; [reflexivity|]. split; [discriminate|].
    intros H. now contradiction H.
Qed.

(** X25 — [InotifyTrees] consumes the list it is given.  The loader uses
    the caller's list as its queue.  When the constructor returns, or
    raises because a watch was refused, the caller's list is empty; when
    it raises because a directory cannot be listed, the caller's list
    holds the directories that were still to be visited, and nothing has
    been registered.  On a normal end every root and every directory
    below a root is watched. *)
Theorem load_trees_outcome (fuel : nat) (_mask : Z) (paths : list string) (s : Inotify) :
  let r := __load_trees env fs fuel _mask paths s in
  let q := fst (fst r) in
  let s' := snd (fst r) in
  (snd r = Loaded ->
   q = [] /\ forall p : string, below env fs paths p -> is_Some (watches s' !! p)) /\
  (forall ex : exn, snd r = LoadRaised ex -> q = []) /\
  (forall errno : Z,
     snd r = LoadOSError errno ->
     s' = s /\ forall p : string, In p q -> below env fs paths p).
Proof.
  intros r q s'. subst q s' r. unfold __load_trees.
  destruct (walk env fs fuel paths []) as [[q found] e] eqn:Hwalk.
  destruct e as [|errno|].
  - destruct (walk_exact _ _ _ _ Hwalk) as [-> Hfound].
    destruct (watch_found_outcome found _mask s) as (_ & Hall & _ & Hend).
    destruct (watch_found env found _mask s) as [s1 ending]. simpl in *.
    split; [|split].
    + intros Hloaded. split; [reflexivity|]. intros p Hp.
      apply Hall; [exact Hloaded|]. now apply Hfound.
    + reflexivity.
    + intros errno H. destruct Hend as [Hend|[ex' Hend]]; congruence.
  - simpl. split; [discriminate|]. split; [discriminate|].
    intros errno' _. split; [reflexivity|]. intros p Hp.
    apply (walk_sound paths _ _ _ _ _ _ Hwalk).
    + simpl. intros r Hr. now apply below_root.
    + rewrite in_app_iff. now right.
  - simpl. split; [discriminate|]. split; discriminate.
Qed.

End Loaders.

Lemma walk_finds_the_tree_witness :
  below (Linux.env Linux.quiet) Scenario.small_tree ["/r"%string] "/r/a/c" /\
  ~ below (Linux.env Linux.quiet) Scenario.small_tree ["/r"%string] "/r/f".
Proof.
  destruct (walk_finds_the_tree (Linux.env Linux.quiet) Scenario.small_tree 10
              ["/r"%string] [] ["/r"; "/r/a"; "/r/b"; "/r/a/c"]%string) as [_ H].
  - vm_compute. reflexivity.
  - split.
    + apply H. do 3 right. now left.
    + intros Hf. apply H in Hf.
      destruct Hf as [Hf|[Hf|[Hf|[Hf|[]]]]]; discriminate Hf.
Defined.

Lemma load_tree_outcome_witness :
  let E := Linux.env Linux.quiet in
  let good := InotifyTree_init E Scenario.small_tree 10 3 "/r" 0x2 (Scalar 1) in
  let bad := InotifyTree_init E Scenario.locked_tree 10 3 "/r" 0x2 (Scalar 1) in
  let odd := InotifyTree_init E Scenario.odd_tree 10 3 "/r" 0x2 (Scalar 1) in
  is_Some (watches (fst good) !! "/r/a/c"%string) /\
  fst bad = new_Inotify 3 (Scalar 1) /\
  snd odd = LoadRaised UnicodeEncodeError /\
  exists p : string,
    below E Scenario.odd_tree ["/r"%string] p /\ watches (fst odd) !! p = None.
Proof.
  intros E good bad odd.
  destruct (load_tree_outcome E Scenario.small_tree 10 (tree_mask E 0x2) "/r"
              (new_Inotify 3 (Scalar 1))) as (Hloaded & _).
  destruct (load_tree_outcome E Scenario.locked_tree 10 (tree_mask E 0x2) "/r"
              (new_Inotify 3 (Scalar 1))) as (_ & Hfailed & _).
  destruct (load_tree_outcome E Scenario.odd_tree 10 (tree_mask E 0x2) "/r"
              (new_Inotify 3 (Scalar 1))) as (_ & _ & Hraised & _).
  assert (snd odd = LoadRaised UnicodeEncodeError) as Hodd by (vm_compute; reflexivity).
  split; [|split; [|split]].
  - apply Hloaded; [vm_compute; reflexivity|].
    apply (below_entry E Scenario.small_tree ["/r"%string] "/r/a" "c" ["c"%string]);
      [|vm_compute; reflexivity|now left|vm_compute; reflexivity].
    apply (below_entry E Scenario.small_tree ["/r"%string] "/r" "a"
             ["a"; "f"; "b"]%string);
      [|vm_compute; reflexivity|now left|vm_compute; reflexivity].
    apply below_root. now left.
  - apply Hfailed. left. exists 13. vm_compute. reflexivity.
  - exact Hodd.
  - destruct (Hraised UnicodeEncodeError Hodd) as (p & Hbelow & Hp & _).
    exists p. split; assumption.
Defined.

Lemma load_trees_outcome_witness :
  let E := Linux.env Linux.quiet in
  let r := InotifyTrees_init E Scenario.small_tree 10 3 ["/r/a"; "/r/b"]%string 0x2
             (Scalar 1) in
  fst (fst r) = [] /\ is_Some (watches (snd (fst r)) !! "/r/b"%string).
Proof.
  intros E r.
  destruct (load_trees_outcome E Scenario.small_tree 10 (tree_mask E 0x2)
              ["/r/a"; "/r/b"]%string (new_Inotify 3 (Scalar 1))) as (Hloaded & _).
  destruct Hloaded as [Hq Hall]; [vm_compute; reflexivity|].
  split; [exact Hq|]. apply Hall. apply below_root. right. now left.
Defined.
